(** * image-processor: sequential and pipelined JPEG filtering

    A shallow embedding of [main.go]: the two pixel transforms
    ([toGrayscale], [toSepia]), the three pipeline stages ([loadWorker],
    [processWorker], [saveWorker]), the orchestrator
    ([runParallelPipeline]), the sequential baseline ([runSequential]) and
    [main].

    Images are reference objects in Go, so they live in an explicit heap;
    the transforms are written in a small state-and-panic monad over that
    heap.  Goroutines, channels and wait groups are modelled by a step
    function per goroutine over one shared state; an execution is any
    interleaving of enabled steps.

    The development ends with further properties of the same code: what the
    transforms do to gray pixels, to the alpha channel and to empty
    rectangles, and when they panic; what the sequential runner writes and
    logs; and, for the pipeline, the panics it cannot have, the bounds it
    keeps, its behaviour at a worker count of zero or less, and the
    independence of its result from the interleaving.  Last come the outcome
    of each path as it is read off the final state, and the exit status of
    [main] case by case, which rest on those properties. *)

From Stdlib Require Import ZArith Floats Lia.
From stdpp Require Import gmap strings list relations.

#[local] Set Warnings "-inexact-float".
#[local] Open Scope Z_scope.

(** ** Machine numbers *)

Module GoNum.

(** Conversion of an integer to [uint8] keeps the low eight bits. *)
Definition uint8 (z : Z) : Z := z mod 256.

(** [float64(r)] for an unsigned integer below 2^63 (exact below 2^53). *)
Definition float64 (z : Z) : float := PrimFloat.of_uint63 (Uint63.of_Z z).

(** [int(f)]: conversion of a finite float to an integer discards the
    fraction (truncation towards zero). *)
Definition int_of_float64 (f : float) : Z :=
  match Prim2SF f with
  | S754_finite s m e =>
      let mag := if 0 <=? e then Z.shiftl (Z.pos m) e
                 else Z.shiftr (Z.pos m) (- e) in
      if s then - mag else mag
  | _ => 0
  end.

Definition uint8_of_float64 (f : float) : Z := uint8 (int_of_float64 f).

(** Largest value of Go's [int] on a 64-bit platform. *)
Definition maxInt : Z := 2 ^ 63 - 1.

Lemma uint8_range z : 0 <= uint8 z < 256.
Proof. unfold uint8. apply Z.mod_pos_bound. lia. Qed.

Lemma uint8_small z : 0 <= z < 256 -> uint8 z = z.
Proof. intros. unfold uint8. apply Z.mod_small. lia. Qed.

End GoNum.
Import GoNum.

(** ** The [image] and [image/color] packages, at their interface *)

Record Point := mkPoint { X : Z; Y : Z }.
Record Rectangle := mkRect { Min : Point; Max : Point }.

Definition Dx (r : Rectangle) : Z := X (Max r) - X (Min r).
Definition Dy (r : Rectangle) : Z := Y (Max r) - Y (Min r).

(** [Point.In]. *)
Definition Point_In (p : Point) (r : Rectangle) : bool :=
  (X (Min r) <=? X p) && (X p <? X (Max r)) &&
  (Y (Min r) <=? Y p) && (Y p <? Y (Max r)).

(** [color.RGBA]: four [uint8] channels, alpha-premultiplied. *)
Record RGBA := mkRGBA { R : Z; G : Z; B : Z; A : Z }.

(** A [color.Color] is either a [color.RGBA] or a value of some other
    colour type, known only through its [RGBA()] method (four 16-bit
    channels held in [uint32]s). *)
Inductive Color :=
| ColorRGBA (c : RGBA)
| ColorOther (r g b a : Z).

(** The [RGBA()] method.  For [color.RGBA]: [r = uint32(c.R); r |= r << 8]. *)
Definition Color_RGBA (c : Color) : Z * Z * Z * Z :=
  match c with
  | ColorRGBA c =>
      (Z.lor (R c) (Z.shiftl (R c) 8), Z.lor (G c) (Z.shiftl (G c) 8),
       Z.lor (B c) (Z.shiftl (B c) 8), Z.lor (A c) (Z.shiftl (A c) 8))
  | ColorOther r g b a => (r, g, b, a)
  end.

(** [color.RGBAModel.Convert]. *)
Definition RGBAModel_Convert (c : Color) : RGBA :=
  match c with
  | ColorRGBA c => c
  | ColorOther r g b a =>
      mkRGBA (uint8 (Z.shiftr r 8)) (uint8 (Z.shiftr g 8))
             (uint8 (Z.shiftr b 8)) (uint8 (Z.shiftr a 8))
  end.

(** An [image.RGBA]: the pixel buffer [Pix] holds four bytes per pixel, row
    after row, [Stride] bytes per row. *)
Record RGBAImage := mkRGBAImage { Pix : list Z; Stride : Z; Rect : Rectangle }.

(** What an [image.Image] interface value points to: an [image.RGBA], or an
    image of another type (the decoder returns [image.YCbCr], [image.Gray]
    or [image.CMYK]), which the program reads only through [Bounds] and
    [At]. *)
Inductive ImageObj :=
| ObjRGBA (p : RGBAImage)
| ObjOther (bounds : Rectangle) (at_ : Z -> Z -> Color).

Abbreviation loc := positive (only parsing).
Abbreviation Heap := (gmap positive ImageObj) (only parsing).

(** *** A state monad over the heap, with panics *)

Definition M (T : Type) : Type := Heap -> option (T * Heap).

Definition ret {T} (t : T) : M T := fun h => Some (t, h).
Definition panic {T} : M T := fun _ => None.
Definition bind {T U} (m : M T) (k : T -> M U) : M U :=
  fun h => match m h with
           | Some (t, h') => k t h'
           | None => None
           end.

Notation "'do' x <~ m ; k" := (bind m (fun x => k))
  (at level 10, x name, m at level 100, k at level 200,
   format "'[v' 'do'  x  <~  m ; '/' k ']'").
Notation "'do_' m ; k" := (bind m (fun _ => k))
  (at level 10, m at level 100, k at level 200,
   format "'[v' 'do_'  m ; '/' k ']'").

(** [for i := lo; i < hi; i++ { body }]. *)
Fixpoint forM (l : list Z) (body : Z -> M unit) : M unit :=
  match l with
  | [] => ret tt
  | i :: l => do_ body i; forM l body
  end.

Definition for_range (lo hi : Z) (body : Z -> M unit) : M unit :=
  forM (seqZ lo (hi - lo)) body.

(** *** Operations on images *)

Definition obj_Bounds (o : ImageObj) : Rectangle :=
  match o with
  | ObjRGBA p => Rect p
  | ObjOther b _ => b
  end.

(** [img.Bounds()]; a nil image panics. *)
Definition Bounds (img : loc) : M Rectangle :=
  fun h => match h !! img with
           | Some o => Some (obj_Bounds o, h)
           | None => None
           end.

Definition PixOffset (p : RGBAImage) (x y : Z) : Z :=
  (y - Y (Min (Rect p))) * Stride p + (x - X (Min (Rect p))) * 4.

(** The [At] method of [image.RGBA]: the zero colour outside the rectangle; inside, the
    slice expression [p.Pix[i : i+4 : i+4]] panics when the buffer is too
    short. *)
Definition RGBA_At (p : RGBAImage) (x y : Z) : option Color :=
  if negb (Point_In (mkPoint x y) (Rect p)) then Some (ColorRGBA (mkRGBA 0 0 0 0))
  else
    let i := PixOffset p x y in
    if (i <? 0) || (Z.of_nat (length (Pix p)) <? i + 4) then None
    else
      let n := Z.to_nat i in
      match Pix p !! n, Pix p !! (n + 1)%nat, Pix p !! (n + 2)%nat, Pix p !! (n + 3)%nat with
      | Some r, Some g, Some b, Some a => Some (ColorRGBA (mkRGBA r g b a))
      | _, _, _, _ => None
      end.

Definition obj_At (o : ImageObj) (x y : Z) : option Color :=
  match o with
  | ObjRGBA p => RGBA_At p x y
  | ObjOther _ at_ => Some (at_ x y)
  end.

(** [img.At(x, y)]. *)
Definition At (img : loc) (x y : Z) : M Color :=
  fun h => match h !! img with
           | Some o => match obj_At o x y with
                       | Some c => Some (c, h)
                       | None => None
                       end
           | None => None
           end.

(** The [SetRGBA] method of [image.RGBA] on the buffer: nothing changes
    outside the rectangle. *)
Definition RGBA_Set (p : RGBAImage) (x y : Z) (c : RGBA) : option RGBAImage :=
  if negb (Point_In (mkPoint x y) (Rect p)) then Some p
  else
    let i := PixOffset p x y in
    if (i <? 0) || (Z.of_nat (length (Pix p)) <? i + 4) then None
    else
      let n := Z.to_nat i in
      Some (mkRGBAImage
              (<[(n + 3)%nat := A c]> (<[(n + 2)%nat := B c]>
                 (<[(n + 1)%nat := G c]> (<[n := R c]> (Pix p)))))
              (Stride p) (Rect p)).

(** [img.SetRGBA(x, y, c)] for [img] a pointer to an [image.RGBA]. *)
Definition SetRGBA (img : loc) (x y : Z) (c : RGBA) : M unit :=
  fun h => match h !! img with
           | Some (ObjRGBA p) =>
               match RGBA_Set p x y c with
               | Some p' => Some (tt, <[img := ObjRGBA p']> h)
               | None => None
               end
           | _ => None
           end.

(** [image.NewRGBA(r)]: a fresh, zeroed buffer of [4 * Dx * Dy] bytes; panics
    on negative dimensions or when that length does not fit an [int].  (The
    runtime also refuses a buffer above its allocation limit, far above the
    size of any decoded image; where a statement depends on the exact bound
    it is made for images of ordinary size, see [ordinary_size].) *)
Definition NewRGBA (r : Rectangle) : M loc :=
  fun h =>
    if (Dx r <? 0) || (Dy r <? 0) || (maxInt <? 4 * Dx r * Dy r) then None
    else
      let l := fresh (dom h) in
      Some (l, <[l := ObjRGBA (mkRGBAImage (replicate (Z.to_nat (4 * Dx r * Dy r)) 0)
                                          (4 * Dx r) r)]> h).

(** ** The transforms of [main.go] *)

(** The body of the inner loop of [toGrayscale], on one colour. *)
Definition grayPixel (originalColor : Color) : RGBA :=
  let '(r, g, b, a) := Color_RGBA originalColor in
  let gray := uint8_of_float64
                ((0.299 * float64 r + 0.587 * float64 g + 0.114 * float64 b) / 256)%float in
  mkRGBA gray gray gray (uint8 (a / 256)).

Definition toGrayscale (img : loc) : M loc :=
  do bounds <~ Bounds img;
  do grayImg <~ NewRGBA bounds;
  do_ for_range (Y (Min bounds)) (Y (Max bounds)) (fun y =>
        for_range (X (Min bounds)) (X (Max bounds)) (fun x =>
          do originalColor <~ At img x y;
          SetRGBA grayImg x y (grayPixel originalColor)));
  ret grayImg.

(** The body of the inner loop of [toSepia], on one colour. *)
Definition sepiaPixel (c : Color) : RGBA :=
  let '(r, g, b, a) := Color_RGBA (ColorRGBA (RGBAModel_Convert c)) in
  let r8 := uint8 (r / 257) in
  let g8 := uint8 (g / 257) in
  let b8 := uint8 (b / 257) in
  let newR := (float64 r8 * 0.393 + float64 g8 * 0.769 + float64 b8 * 0.189)%float in
  let newG := (float64 r8 * 0.349 + float64 g8 * 0.686 + float64 b8 * 0.168)%float in
  let newB := (float64 r8 * 0.272 + float64 g8 * 0.534 + float64 b8 * 0.131)%float in
  mkRGBA (uint8 (Z.min 255 (int_of_float64 newR)))
         (uint8 (Z.min 255 (int_of_float64 newG)))
         (uint8 (Z.min 255 (int_of_float64 newB)))
         (uint8 (a / 256)).

Definition toSepia (img : loc) : M loc :=
  do bounds <~ Bounds img;
  do sepiaImg <~ NewRGBA bounds;
  do_ for_range (Y (Min bounds)) (Y (Max bounds)) (fun y =>
        for_range (X (Min bounds)) (X (Max bounds)) (fun x =>
          do c <~ At img x y;
          SetRGBA sepiaImg x y (sepiaPixel c)));
  ret sepiaImg.

(** Both transforms are the same loop nest around a per-pixel function. *)
Definition mapPixels (f : Color -> RGBA) (img : loc) : M loc :=
  do bounds <~ Bounds img;
  do out <~ NewRGBA bounds;
  do_ for_range (Y (Min bounds)) (Y (Max bounds)) (fun y =>
        for_range (X (Min bounds)) (X (Max bounds)) (fun x =>
          do c <~ At img x y;
          SetRGBA out x y (f c)));
  ret out.

(** ** What the loop nest computes *)

Definition bytes_of (c : RGBA) : list Z := [R c; G c; B c; A c].

Definition zeroColor : Color := ColorRGBA (mkRGBA 0 0 0 0).

(** The colour [At] returns, where it returns one. *)
Definition at_total (o : ImageObj) (x y : Z) : Color :=
  default zeroColor (obj_At o x y).

(** A rectangle a pixel buffer can be allocated for. *)
Definition wf_rect (b : Rectangle) : Prop :=
  0 <= Dx b /\ 0 <= Dy b /\ 4 * Dx b * Dy b <= maxInt.

(** An image whose pixels can all be read: any image of another type, or an
    [image.RGBA] whose buffer has the length and stride [NewRGBA] gives it. *)
Definition wf_obj (o : ImageObj) : Prop :=
  wf_rect (obj_Bounds o) /\
  match o with
  | ObjRGBA p => Stride p = 4 * Dx (Rect p) /\
                 Z.of_nat (length (Pix p)) = 4 * Dx (Rect p) * Dy (Rect p)
  | ObjOther _ _ => True
  end.

(** An image every pixel of which can be read, and for which a buffer of the
    same size can be allocated: what the transforms need of their input. *)
Definition readable (o : ImageObj) : Prop :=
  wf_rect (obj_Bounds o) /\
  forall x y, Point_In (mkPoint x y) (obj_Bounds o) = true -> is_Some (obj_At o x y).

Section MapImage.
Variable f : Color -> RGBA.
Variable at_ : Z -> Z -> Color.
Variable b : Rectangle.

(** Row [y], columns before [x]. *)
Definition row_upto (y x : Z) : list RGBA :=
  (fun x' => f (at_ x' y)) <$> seqZ (X (Min b)) (x - X (Min b)).

(** The rows before [y], one after the other. *)
Definition rows_upto (y : Z) : list RGBA :=
  mjoin ((fun y' => row_upto y' (X (Max b))) <$> seqZ (Y (Min b)) (y - Y (Min b))).

(** The buffer once the pixels [done] are written: zeroes after them. *)
Definition buffer (done : list RGBA) : list Z :=
  (done ≫= bytes_of) ++
  replicate (Z.to_nat (4 * Dx b * Dy b) - 4 * length done)%nat 0.

Definition partialImage (done : list RGBA) : RGBAImage :=
  mkRGBAImage (buffer done) (4 * Dx b) b.

(** The image with [f] applied to every pixel of the rectangle. *)
Definition mapImage : RGBAImage :=
  mkRGBAImage (rows_upto (Y (Max b)) ≫= bytes_of) (4 * Dx b) b.
End MapImage.

(** ** Proofs about the image layer *)

Lemma length_bytes (l : list RGBA) : length (l ≫= bytes_of) = (4 * length l)%nat.
Proof. induction l as [|c l IH]; csimpl; [done|]. rewrite IH. lia. Qed.

Lemma lookup_bytes (l : list RGBA) (q : nat) (c : RGBA) :
  l !! q = Some c ->
  (l ≫= bytes_of) !! (4 * q)%nat = Some (R c) /\
  (l ≫= bytes_of) !! (4 * q + 1)%nat = Some (G c) /\
  (l ≫= bytes_of) !! (4 * q + 2)%nat = Some (B c) /\
  (l ≫= bytes_of) !! (4 * q + 3)%nat = Some (A c).
Proof.
  revert q. induction l as [|c' l IH]; intros [|q] Hq; simplify_eq/=.
  - done.
  - destruct (IH q Hq) as (H0 & H1 & H2 & H3).
    replace (q + S (q + S (q + S (q + 0))))%nat with (S (S (S (4 * q)))) by lia.
    simpl in *. rewrite <- !Nat.add_assoc in *. simpl in *. repeat split; try done.
    all: replace (q + (q + (q + (q + 0))) + 1)%nat with (4 * q + 1)%nat by lia;
         replace (q + (q + (q + (q + 0))) + 2)%nat with (4 * q + 2)%nat by lia;
         replace (q + (q + (q + (q + 0))) + 3)%nat with (4 * q + 3)%nat by lia; done.
Qed.

Section MapImageFacts.
Variable f : Color -> RGBA.
Variable at_ : Z -> Z -> Color.
Variable b : Rectangle.

Lemma length_row_upto y x :
  X (Min b) <= x -> length (row_upto f at_ b y x) = Z.to_nat (x - X (Min b)).
Proof. intros. unfold row_upto. by rewrite length_fmap, length_seqZ. Qed.

Lemma row_upto_start y : row_upto f at_ b y (X (Min b)) = [].
Proof. unfold row_upto. by rewrite Z.sub_diag. Qed.

Lemma row_upto_succ y x :
  X (Min b) <= x ->
  row_upto f at_ b y (x + 1) = row_upto f at_ b y x ++ [f (at_ x y)].
Proof.
  intros. unfold row_upto.
  replace (x + 1 - X (Min b)) with ((x - X (Min b)) + 1) by lia.
  rewrite seqZ_app, fmap_app by lia. do 2 f_equal.
  replace (X (Min b) + (x - X (Min b))) with x by lia. done.
Qed.

Lemma rows_upto_start : rows_upto f at_ b (Y (Min b)) = [].
Proof. unfold rows_upto. by rewrite Z.sub_diag. Qed.

Lemma rows_upto_succ y :
  Y (Min b) <= y ->
  rows_upto f at_ b (y + 1) = rows_upto f at_ b y ++ row_upto f at_ b y (X (Max b)).
Proof.
  intros. unfold rows_upto.
  replace (y + 1 - Y (Min b)) with ((y - Y (Min b)) + 1) by lia.
  rewrite seqZ_app, fmap_app, join_app by lia. f_equal.
  replace (Y (Min b) + (y - Y (Min b))) with y by lia.
  simpl. by rewrite app_nil_r.
Qed.

Lemma length_rows_upto y :
  0 <= Dx b -> Y (Min b) <= y ->
  Z.of_nat (length (rows_upto f at_ b y)) = (y - Y (Min b)) * Dx b.
Proof.
  intros HDx Hy. unfold rows_upto. rewrite length_join, <- list_fmap_compose.
  rewrite (sum_list_fmap_same (Z.to_nat (Dx b))).
  - rewrite length_seqZ. unfold Dx in *. nia.
  - apply Forall_forall. intros y' _. simpl.
    rewrite length_row_upto; unfold Dx in *; [done | lia].
Qed.

Lemma length_buffer done :
  (4 * length done <= Z.to_nat (4 * Dx b * Dy b))%nat ->
  length (buffer b done) = Z.to_nat (4 * Dx b * Dy b).
Proof. intros. unfold buffer. rewrite length_app, length_bytes, length_replicate. lia. Qed.

Lemma buffer_nil : buffer b [] = replicate (Z.to_nat (4 * Dx b * Dy b)) 0.
Proof. unfold buffer. simpl. by rewrite Nat.sub_0_r. Qed.

Lemma buffer_full done :
  Z.of_nat (length done) = Dx b * Dy b -> buffer b done = done ≫= bytes_of.
Proof.
  intros Hl. unfold buffer.
  replace (Z.to_nat (4 * Dx b * Dy b) - 4 * length done)%nat with 0%nat by lia.
  simpl. by rewrite app_nil_r.
Qed.
End MapImageFacts.

Lemma insert4 (pre : list Z) (k : nat) (r g b a : Z) :
  <[(length pre + 3)%nat := a]>
    (<[(length pre + 2)%nat := b]>
       (<[(length pre + 1)%nat := g]>
          (<[(length pre + 0)%nat := r]> (pre ++ replicate (4 + k) 0))))
  = pre ++ [r; g; b; a] ++ replicate k 0.
Proof. by rewrite !insert_app_r. Qed.

Lemma Point_In_true x y b :
  Point_In (mkPoint x y) b = true <->
  X (Min b) <= x < X (Max b) /\ Y (Min b) <= y < Y (Max b).
Proof. unfold Point_In. simpl. rewrite !andb_true_iff. lia. Qed.

(** Writing the next pixel in row-major order extends the written prefix. *)
Lemma RGBA_Set_partial b done x y c :
  0 <= Dx b ->
  Point_In (mkPoint x y) b = true ->
  Z.of_nat (length done) = (y - Y (Min b)) * Dx b + (x - X (Min b)) ->
  RGBA_Set (partialImage b done) x y c = Some (partialImage b (done ++ [c])).
Proof.
  intros HDx Hin Hlen. unfold RGBA_Set. cbn [Rect partialImage]. rewrite Hin. cbn [negb].
  apply Point_In_true in Hin. destruct Hin as [Hx Hy].
  assert (Hoff : PixOffset (partialImage b done) x y = 4 * Z.of_nat (length done)).
  { unfold PixOffset. simpl. lia. }
  assert (Hroom : 4 * Z.of_nat (length done) + 4 <= 4 * Dx b * Dy b).
  { unfold Dx, Dy in *. nia. }
  rewrite Hoff. cbn [Pix Stride partialImage]. rewrite length_buffer by lia.
  assert (E1 : (4 * Z.of_nat (length done) <? 0) = false) by (apply Z.ltb_ge; lia).
  assert (E2 : (Z.of_nat (Z.to_nat (4 * Dx b * Dy b)) <? 4 * Z.of_nat (length done) + 4) = false)
    by (apply Z.ltb_ge; lia).
  rewrite E1, E2. cbn [orb].
  unfold partialImage. f_equal. f_equal.
  unfold buffer. rewrite bind_app, length_app.
  change ([c] ≫= bytes_of) with [R c; G c; B c; A c].
  change (length [c]) with 1%nat.
  replace (Z.to_nat (4 * Z.of_nat (length done))) with (length (done ≫= bytes_of))
    by (rewrite length_bytes; lia).
  replace (Z.to_nat (4 * Dx b * Dy b) - 4 * length done)%nat
    with (4 + (Z.to_nat (4 * Dx b * Dy b) - 4 * (length done + 1)))%nat by lia.
  rewrite <- (Nat.add_0_r (length (done ≫= bytes_of))) at 4.
  rewrite insert4, <- app_assoc. done.
Qed.

(** Loop rule: an invariant indexed by the loop variable. *)
Lemma for_range_inv (I : Z -> Heap -> Prop) lo hi body h :
  lo <= hi ->
  I lo h ->
  (forall i h, lo <= i < hi -> I i h -> exists h', body i h = Some (tt, h') /\ I (i + 1) h') ->
  exists h', for_range lo hi body h = Some (tt, h') /\ I hi h'.
Proof.
  unfold for_range. intros Hle HI Hbody.
  remember (Z.to_nat (hi - lo)) as n eqn:Hn. revert lo h Hle HI Hbody Hn.
  induction n as [|n IH]; intros lo h Hle HI Hbody Hn.
  - assert (hi = lo) as -> by lia. rewrite Z.sub_diag. simpl. eauto.
  - rewrite seqZ_cons by lia. simpl. unfold bind at 1.
    destruct (Hbody lo h) as (h' & -> & HI'); [lia | done |].
    replace (Z.pred (hi - lo)) with (hi - Z.succ lo) by lia.
    apply IH; [lia | by rewrite <- Z.add_1_r | | lia].
    intros i h0 Hi. apply Hbody. lia.
Qed.

Lemma NewRGBA_wf (b : Rectangle) (h : Heap) :
  wf_rect b ->
  NewRGBA b h = Some (fresh (dom h), <[fresh (dom h) := ObjRGBA (partialImage b [])]> h).
Proof.
  intros (HDx & HDy & Hsz). unfold NewRGBA.
  rewrite (proj2 (Z.ltb_ge _ _) HDx), (proj2 (Z.ltb_ge _ _) HDy).
  rewrite (proj2 (Z.ltb_ge _ _) Hsz). cbn [orb].
  unfold partialImage. by rewrite buffer_nil.
Qed.

(** A well-formed image can be read at every point of its rectangle. *)
Lemma obj_At_wf o x y :
  wf_obj o -> Point_In (mkPoint x y) (obj_Bounds o) = true ->
  obj_At o x y = Some (at_total o x y).
Proof.
  intros [(HDx & HDy & _) Hbuf] Hin. unfold at_total.
  destruct o as [p | b at_]; [|done]. simpl in *.
  destruct Hbuf as [Hstride Hlen]. unfold RGBA_At. rewrite Hin. cbn [negb].
  apply Point_In_true in Hin. destruct Hin as [Hx Hy].
  assert (Hlo : 0 <= PixOffset p x y) by (unfold PixOffset; nia).
  assert (Hhi : PixOffset p x y + 4 <= Z.of_nat (length (Pix p))).
  { unfold PixOffset. rewrite Hlen, Hstride. unfold Dx, Dy in *. nia. }
  rewrite (proj2 (Z.ltb_ge _ _) Hlo), (proj2 (Z.ltb_ge _ _) Hhi). cbn [orb].
  destruct (lookup_lt_is_Some_2 (Pix p) (Z.to_nat (PixOffset p x y))) as [r ->]; [lia|].
  destruct (lookup_lt_is_Some_2 (Pix p) (Z.to_nat (PixOffset p x y) + 1)) as [g ->]; [lia|].
  destruct (lookup_lt_is_Some_2 (Pix p) (Z.to_nat (PixOffset p x y) + 2)) as [b' ->]; [lia|].
  destruct (lookup_lt_is_Some_2 (Pix p) (Z.to_nat (PixOffset p x y) + 3)) as [a ->]; [lia|].
  done.
Qed.

Lemma wf_readable o : wf_obj o -> readable o.
Proof.
  intros Hwf. split; [apply Hwf|]. intros x y Hin. rewrite (obj_At_wf o x y) by done. eauto.
Qed.

Lemma obj_At_readable o x y :
  readable o -> Point_In (mkPoint x y) (obj_Bounds o) = true ->
  obj_At o x y = Some (at_total o x y).
Proof. intros [_ Hr] Hin. unfold at_total. by destruct (Hr x y Hin) as [c ->]. Qed.

(** The loop nest writes [f] of every pixel into a fresh buffer and touches
    nothing else. *)
Lemma mapPixels_spec f (h : Heap) img o :
  h !! img = Some o -> readable o ->
  mapPixels f img h =
    Some (fresh (dom h),
          <[fresh (dom h) := ObjRGBA (mapImage f (at_total o) (obj_Bounds o))]> h).
Proof.
  intros Himg Hwf. pose proof Hwf as [Hrect _]. pose proof Hrect as (HDx & HDy & Hsz).
  set (b := obj_Bounds o) in *. set (g := fresh (dom h)).
  assert (Hg : g ≠ img).
  { intros E. apply (is_fresh (dom h)). fold g. rewrite E. apply elem_of_dom. eauto. }
  unfold mapPixels, bind at 1, Bounds. rewrite Himg. fold b.
  unfold bind at 1. rewrite NewRGBA_wf by done. fold g.
  set (st := fun done => <[g := ObjRGBA (partialImage b done)]> h).
  unfold bind at 1. change (<[g := ObjRGBA (partialImage b [])]> h) with (st []).
  destruct (for_range_inv
              (fun y h' => h' = st (rows_upto f (at_total o) b y))
              (Y (Min b)) (Y (Max b))
              (fun y => for_range (X (Min b)) (X (Max b)) (fun x =>
                 do c <~ At img x y; SetRGBA g x y (f c)))
              (st [])) as (h' & -> & ->).
  - unfold Dy in HDy. lia.
  - by rewrite rows_upto_start.
  - intros y h0 Hy ->.
    destruct (for_range_inv
                (fun x h' => h' = st (rows_upto f (at_total o) b y ++
                                      row_upto f (at_total o) b y x))
                (X (Min b)) (X (Max b))
                (fun x => do c <~ At img x y; SetRGBA g x y (f c))
                (st (rows_upto f (at_total o) b y))) as (h' & -> & ->).
    + unfold Dx in HDx. lia.
    + by rewrite row_upto_start, app_nil_r.
    + intros x h0 Hx ->. unfold bind, At, SetRGBA, st.
      rewrite lookup_insert_ne, Himg by done.
      assert (Hin : Point_In (mkPoint x y) b = true) by (apply Point_In_true; lia).
      rewrite (obj_At_readable o x y) by done.
      rewrite lookup_insert_eq.
      rewrite (RGBA_Set_partial b _ x y (f (at_total o x y))); [| done | done |].
      * eexists. split; [done|]. rewrite insert_insert_eq.
        by rewrite row_upto_succ, app_assoc by lia.
      * rewrite length_app, Nat2Z.inj_add, length_rows_upto, length_row_upto by lia. lia.
    + eexists. split; [done|]. by rewrite rows_upto_succ by lia.
  - unfold ret, st. do 3 f_equal. unfold partialImage, mapImage.
    rewrite buffer_full; [done|]. rewrite length_rows_upto by (unfold Dy in HDy; lia).
    unfold Dx, Dy. lia.
Qed.

Lemma lookup_rows_upto f at_ b x y :
  0 <= Dx b -> Point_In (mkPoint x y) b = true ->
  rows_upto f at_ b (Y (Max b)) !! Z.to_nat ((y - Y (Min b)) * Dx b + (x - X (Min b)))
  = Some (f (at_ x y)).
Proof.
  intros HDx Hin. apply Point_In_true in Hin. destruct Hin as [Hx Hy].
  replace (Z.to_nat ((y - Y (Min b)) * Dx b + (x - X (Min b))))
    with (Z.to_nat (y - Y (Min b)) * Z.to_nat (Dx b) + Z.to_nat (x - X (Min b)))%nat by nia.
  unfold rows_upto. apply join_lookup_Some_same_length'.
  - apply Forall_fmap, Forall_forall. intros y' _. simpl.
    rewrite length_row_upto; unfold Dx in *; [done | lia].
  - unfold Dx. lia.
  - eexists. split.
    + rewrite list_lookup_fmap, lookup_seqZ_lt by lia. done.
    + unfold row_upto. rewrite list_lookup_fmap, lookup_seqZ_lt by lia. simpl.
      do 3 f_equal; lia.
Qed.

Lemma length_mapImage f at_ b :
  wf_rect b -> Z.of_nat (length (Pix (mapImage f at_ b))) = 4 * Dx b * Dy b.
Proof.
  intros (HDx & HDy & _). simpl. rewrite length_bytes, Nat2Z.inj_mul.
  rewrite length_rows_upto by (unfold Dy in HDy; lia). unfold Dx, Dy. lia.
Qed.

Lemma mapImage_wf f at_ b : wf_rect b -> wf_obj (ObjRGBA (mapImage f at_ b)).
Proof. intros Hb. split; [done|]. split; [done|]. by apply length_mapImage. Qed.

(** Reading back a pixel of the mapped image. *)
Lemma RGBA_At_mapImage f at_ b x y :
  wf_rect b -> Point_In (mkPoint x y) b = true ->
  RGBA_At (mapImage f at_ b) x y = Some (ColorRGBA (f (at_ x y))).
Proof.
  intros Hb Hin. pose proof Hb as (HDx & HDy & _).
  pose proof (length_mapImage f at_ b Hb) as Hlen.
  pose proof (lookup_rows_upto f at_ b x y HDx Hin) as Hq.
  unfold RGBA_At. cbn [Rect mapImage]. rewrite Hin. cbn [negb].
  apply Point_In_true in Hin. destruct Hin as [Hx Hy].
  set (q := Z.to_nat ((y - Y (Min b)) * Dx b + (x - X (Min b)))) in *.
  assert (Hoff : PixOffset (mapImage f at_ b) x y = 4 * Z.of_nat q).
  { unfold PixOffset. simpl. unfold q, Dx in *. nia. }
  rewrite Hoff, Hlen.
  assert (E1 : (4 * Z.of_nat q <? 0) = false) by (apply Z.ltb_ge; lia).
  assert (E2 : (4 * Dx b * Dy b <? 4 * Z.of_nat q + 4) = false).
  { apply Z.ltb_ge. unfold q, Dx, Dy in *. nia. }
  rewrite E1, E2. cbn [orb Pix mapImage].
  replace (Z.to_nat (4 * Z.of_nat q)) with (4 * q)%nat by lia.
  destruct (lookup_bytes _ _ _ Hq) as (-> & -> & -> & ->).
  by destruct (f (at_ x y)).
Qed.

Lemma at_total_mapImage f at_ b x y :
  wf_rect b -> Point_In (mkPoint x y) b = true ->
  at_total (ObjRGBA (mapImage f at_ b)) x y = ColorRGBA (f (at_ x y)).
Proof. intros. unfold at_total. simpl. by rewrite RGBA_At_mapImage. Qed.

(** The mapped image depends on the source colours inside the rectangle only. *)
Lemma mapImage_ext f at1 at2 b :
  (forall x y, Point_In (mkPoint x y) b = true -> at1 x y = at2 x y) ->
  mapImage f at1 b = mapImage f at2 b.
Proof.
  intros Hext. unfold mapImage. do 2 f_equal. unfold rows_upto. f_equal.
  apply list_fmap_ext. intros i y' Hy'. apply lookup_seqZ in Hy' as [-> Hi].
  unfold row_upto. apply list_fmap_ext. intros j x' Hx'.
  apply lookup_seqZ in Hx' as [-> Hj]. f_equal. apply Hext, Point_In_true. lia.
Qed.

(** Loop rule for a loop known to have run to its end. *)
Lemma for_range_inv_Some (I : Z -> Heap -> Prop) lo hi body h h' :
  lo <= hi ->
  I lo h ->
  (forall i h1 h2, lo <= i < hi -> I i h1 -> body i h1 = Some (tt, h2) -> I (i + 1) h2) ->
  for_range lo hi body h = Some (tt, h') -> I hi h'.
Proof.
  unfold for_range. intros Hle HI Hbody.
  remember (Z.to_nat (hi - lo)) as n eqn:Hn. revert lo h Hle HI Hbody Hn.
  induction n as [|n IH]; intros lo h Hle HI Hbody Hn.
  - assert (hi = lo) as -> by lia. rewrite Z.sub_diag. simpl. by intros [= <-].
  - rewrite seqZ_cons by lia. simpl. unfold bind at 1.
    destruct (body lo h) as [[[] h1]|] eqn:Hb; [|done].
    replace (Z.pred (hi - lo)) with (hi - Z.succ lo) by lia.
    apply IH; [lia | | | lia].
    + rewrite <- Z.add_1_r. apply (Hbody lo h h1); [lia | done | done].
    + intros i h2 h3 Hi. apply Hbody. lia.
Qed.

(** If the loop nest returns, its input could be read everywhere. *)
Lemma mapPixels_Some_inv f (h : Heap) img out h' :
  mapPixels f img h = Some (out, h') ->
  exists o, h !! img = Some o /\ readable o.
Proof.
  intros Hrun. unfold mapPixels, bind at 1, Bounds in Hrun.
  destruct (h !! img) as [o|] eqn:Himg; [|done].
  exists o. split; [done|]. revert Hrun. unfold bind at 1, NewRGBA.
  set (b := obj_Bounds o).
  destruct (Dx b <? 0) eqn:E1; [done|]. destruct (Dy b <? 0) eqn:E2; [done|].
  destruct (maxInt <? 4 * Dx b * Dy b) eqn:E3; [done|]. cbn [orb].
  apply Z.ltb_ge in E1, E2, E3.
  set (g := fresh (dom h)). set (h1 := <[g := _]> h).
  assert (Hg : g ≠ img).
  { intros E. apply (is_fresh (dom h)). fold g. rewrite E. apply elem_of_dom. eauto. }
  unfold bind at 1.
  destruct (for_range _ _ _ h1) as [[[] h2]|] eqn:Hloop; [|done]. intros _.
  split; [done|]. fold b.
  set (Irow := fun (y : Z) (hh : Heap) => hh !! img = Some o /\
       forall x' y', X (Min b) <= x' < X (Max b) -> Y (Min b) <= y' < y ->
                     is_Some (obj_At o x' y')).
  assert (Hall : Irow (Y (Max b)) h2).
  { eapply (for_range_inv_Some Irow); [| | |exact Hloop].
    - unfold Dy in E2. lia.
    - unfold Irow. split; [unfold h1; by rewrite lookup_insert_ne|]. intros; lia.
    - intros y ha hb Hy [Hla Hrows] Hinner.
      set (Icol := fun (x : Z) (hh : Heap) => hh !! img = Some o /\
         forall x', X (Min b) <= x' < x -> is_Some (obj_At o x' y)).
      assert (Hrow : Icol (X (Max b)) hb).
      { eapply (for_range_inv_Some Icol); [| | |exact Hinner].
        - unfold Dx in E1. lia.
        - unfold Icol. split; [done|]. intros; lia.
        - intros x hc hd Hx [Hlc Hcols]. unfold bind, At, SetRGBA. rewrite Hlc.
          destruct (obj_At o x y) as [c|] eqn:Hat; [|done].
          destruct (hc !! g) as [[p|]|]; try done.
          destruct (RGBA_Set p x y (f c)); [|done]. intros [= <-].
          unfold Icol. split; [by rewrite lookup_insert_ne|].
          intros x' Hx'. destruct (decide (x' = x)) as [->|]; [rewrite Hat; eauto|].
          apply Hcols. lia. }
      destruct Hrow as [Hlb Hrow]. unfold Irow. split; [done|]. intros x' y' Hx' Hy'.
      destruct (decide (y' = y)) as [->|]; [by apply Hrow|]. apply Hrows; lia. }
  destruct Hall as [_ Hall].
  intros x y Hin. apply Point_In_true in Hin as [? ?]. by apply Hall.
Qed.

(** ** The world outside the program *)

(** Outcome of [os.Open] followed by [image.Decode] on a path. *)
Inductive LoadResult :=
| OpenFails (err : string)
| DecodeFails (err : string)
| Decodes (o : ImageObj).

(** Everything the program asks of the operating system and of the
    libraries it calls.  The answers are fixed for the duration of a run. *)
Record World := mkWorld {
  (** [runtime.NumCPU()] *)
  numCPU : Z;
  (** [filepath.Glob(pattern)]: the matches, or an error *)
  filepath_Glob : string -> list string + string;
  filepath_Join : string -> string -> string;
  filepath_Base : string -> string;
  (** [os.Open(path)] then [image.Decode(file)] *)
  load_file : string -> LoadResult;
  (** the error of [os.Create(path)], [None] when the file is created *)
  os_Create : string -> option string;
  (** the JPEG stream of an image under the default options, or the
      encoder's own error *)
  jpeg_stream : ImageObj -> list Z + string;
  (** the error of writing a stream to the file at a path, [None] when all of
      it is written *)
  write_err : string -> option string;
  (** [time.Since(start)] at the end of each mode *)
  elapsed_seq : Z;
  elapsed_par : Z
}.

(** A file on disk: fully written, or cut short by a failed write. *)
Inductive FileContent :=
| Complete (bytes : list Z)
| Incomplete.

(** Lines of [log.Printf] and [log.Fatal]. *)
Inductive LogEntry :=
| LogOpen (path err : string)         (* "Error opening file %s: %v" *)
| LogDecode (path err : string)       (* "Error decoding image %s: %v" *)
| LogCreate (outputPath err : string) (* "Error creating output file %s: %v" *)
| LogEncode (outputPath err : string) (* "Error encoding JPEG %s: %v" *)
| LogFatal (err : string).

(** Lines of [fmt.Printf] and [fmt.Println], in the order of [main.go]. *)
Inductive Line :=
| LineCPU (n : Z)          (* number of CPU cores in use *)
| LineNoImages             (* no images in the input directory *)
| LineFound (n : Z)        (* number of files found for processing *)
| LineRule                 (* a row of dashes *)
| LineSeqHeader            (* header of the sequential mode *)
| LineSeqTime (d : Z)      (* elapsed time of the sequential mode *)
| LineParHeader (n : Z)    (* header of the parallel mode, with the worker count *)
| LineParTime (d : Z)      (* elapsed time of the parallel mode *)
| LineFinished.            (* processing finished *)

(** The state one thread of control sees: the image heap, the files
    written, the log and the standard output. *)
Record Proc := mkProc {
  heap : Heap;
  files : gmap string FileContent;
  log : list LogEntry;
  stdout : list Line
}.

Definition set_heap (h : Heap) (p : Proc) : Proc :=
  mkProc h (files p) (log p) (stdout p).
Definition set_files (fs : gmap string FileContent) (p : Proc) : Proc :=
  mkProc (heap p) fs (log p) (stdout p).
Definition log_Printf (e : LogEntry) (p : Proc) : Proc :=
  mkProc (heap p) (files p) (log p ++ [e]) (stdout p).
Definition fmt_Println (l : Line) (p : Proc) : Proc :=
  mkProc (heap p) (files p) (log p) (stdout p ++ [l]).

(** A successful [image.Decode] allocates the image. *)
Definition alloc (o : ImageObj) (p : Proc) : loc * Proc :=
  let l := fresh (dom (heap p)) in (l, set_heap (<[l := o]> (heap p)) p).

(** [jpeg.Encode(outFile, img, nil)] on the file just created at
    [outputPath]; returns the error, if any.  [None] is a panic on a nil
    image. *)
Definition jpeg_Encode (W : World) (outputPath : string) (img : loc) (p : Proc)
  : option (option string * Proc) :=
  match heap p !! img with
  | None => None
  | Some o =>
      match jpeg_stream W o with
      | inr err => Some (Some err, p)
      | inl bytes =>
          match write_err W outputPath with
          | Some err => Some (Some err, set_files (<[outputPath := Incomplete]> (files p)) p)
          | None => Some (None, set_files (<[outputPath := Complete bytes]> (files p)) p)
          end
      end
  end.

(** [os.Create] truncates or creates the file. *)
Definition create_file (outputPath : string) (p : Proc) : Proc :=
  set_files (<[outputPath := Complete []]> (files p)) p.

(** ** The sequential runner *)

(** One iteration of the loop of [runSequential]; [None] is a panic. *)
Definition runSequential_body (W : World) (path : string) (p : Proc) : option Proc :=
  match load_file W path with
  | OpenFails err => Some (log_Printf (LogOpen path err) p)
  | DecodeFails err => Some (log_Printf (LogDecode path err) p)
  | Decodes o =>
      let '(img, p) := alloc o p in
      match (do grayImg <~ toGrayscale img; toSepia grayImg) (heap p) with
      | None => None
      | Some (sepiaImg, h) =>
          let p := set_heap h p in
          let outputPath := filepath_Join W "output_sequential" (filepath_Base W path) in
          match os_Create W outputPath with
          | Some err => Some (log_Printf (LogCreate outputPath err) p)
          | None =>
              (* the result of [jpeg.Encode] is discarded *)
              match jpeg_Encode W outputPath sepiaImg (create_file outputPath p) with
              | None => None
              | Some (_, p) => Some p
              end
          end
      end
  end.

Fixpoint runSequential_loop (W : World) (filePaths : list string) (p : Proc) : option Proc :=
  match filePaths with
  | [] => Some p
  | path :: rest =>
      match runSequential_body W path p with
      | None => None
      | Some p => runSequential_loop W rest p
      end
  end.

Definition runSequential (W : World) (filePaths : list string) (p : Proc) : option Proc :=
  match runSequential_loop W filePaths (fmt_Println LineSeqHeader p) with
  | None => None
  | Some p => Some (fmt_Println (LineSeqTime (elapsed_seq W)) p)
  end.

(** The state [runSequential] is in when an iteration panics: the header is
    printed, and the files, the log and the output are those the iterations
    before have left; the iteration that panics has written and logged
    nothing yet.  (Of the heap of a process that dies nothing is seen; it is
    given as it was before that iteration.)  When no iteration panics, this
    is the state at the end of the loop. *)
Fixpoint runSequential_loop_panic (W : World) (filePaths : list string) (p : Proc) : Proc :=
  match filePaths with
  | [] => p
  | path :: rest =>
      match runSequential_body W path p with
      | None => p
      | Some p => runSequential_loop_panic W rest p
      end
  end.

Definition runSequential_panic (W : World) (filePaths : list string) (p : Proc) : Proc :=
  runSequential_loop_panic W filePaths (fmt_Println LineSeqHeader p).

(** ** Channels and wait groups *)

(** A buffered channel: the queued values, oldest first, the capacity given
    to [make], and whether [close] was called. *)
Record Chan (T : Type) := mkChan { buf : list T; cap : Z; closed : bool }.
Arguments mkChan {T} _ _ _.
Arguments buf {T} _.
Arguments cap {T} _.
Arguments closed {T} _.

Inductive SendResult (T : Type) :=
| Sent (c : Chan T)
| SendBlocks
| SendPanics.
Arguments Sent {T} _.
Arguments SendBlocks {T}.
Arguments SendPanics {T}.

Inductive RecvResult (T : Type) :=
| Received (v : T) (c : Chan T)
| RecvBlocks
| RecvClosed.
Arguments Received {T} _ _.
Arguments RecvBlocks {T}.
Arguments RecvClosed {T}.

(** [c <- v]: a send on a closed channel panics; a send on a full channel
    waits.  (A channel of capacity zero would hand the value to a waiting
    receiver instead; in this program a channel of capacity zero is never
    sent on, or has no receiver: the paths channel has the length of the
    path list, and the other two have as many slots as there are transform
    workers.) *)
Definition chan_send {T} (c : Chan T) (v : T) : SendResult T :=
  if closed c then SendPanics
  else if Z.of_nat (length (buf c)) <? cap c
       then Sent (mkChan (buf c ++ [v]) (cap c) (closed c))
       else SendBlocks.

(** One iteration of [for v := range c]: the oldest value; the end of the
    loop once the channel is closed and drained; otherwise the receiver
    waits. *)
Definition chan_recv {T} (c : Chan T) : RecvResult T :=
  match buf c with
  | v :: rest => Received v (mkChan rest (cap c) (closed c))
  | [] => if closed c then RecvClosed else RecvBlocks
  end.

(** [close(c)]; closing twice panics. *)
Definition chan_close {T} (c : Chan T) : option (Chan T) :=
  if closed c then None else Some (mkChan (buf c) (cap c) true).

(** [wg.Done()]; a negative counter panics. *)
Definition wg_Done (n : Z) : option Z :=
  if n <=? 0 then None else Some (n - 1).

(** ** The pipeline as a system of goroutines *)

Record ImageTask := mkTask { FilePath : string; Img : loc }.

Inductive Panic :=
| SendOnClosed
| CloseOfClosed
| NegativeWaitGroup
| MakeChanSize
| TransformPanic
| NilImage.

(** Where the goroutine of [runParallelPipeline] stands. *)
Inductive MainPC :=
| MSpawnSave                      (* wgSave.Add(1); go saveWorker *)
| MSpawnProcess (i : Z)           (* the loop starting the transform workers *)
| MSpawnLoad                      (* wgLoad.Add(1); go loadWorker *)
| MSend (rest : list string)      (* the loop sending the paths *)
| MCloseFiles
| MWaitLoad
| MCloseTasks
| MWaitProcess
| MCloseResults
| MWaitSave
| MDone.

Inductive LoadPC := LIdle | LRecv | LSend (task : ImageTask) | LDone.
Inductive WorkPC := WRecv | WSend (task : ImageTask) | WDone.
Inductive SavePC := SIdle | SRecv | SDone.

Record PState := mkPState {
  pc : MainPC;
  loadpc : LoadPC;
  workers : list WorkPC;
  savepc : SavePC;
  filesChan : Chan string;
  tasksChan : Chan ImageTask;
  resultsChan : Chan ImageTask;
  wgLoad : Z;
  wgProcess : Z;
  wgSave : Z;
  proc : Proc;
  crashed : option Panic
}.

Definition set_pc v s :=
  mkPState v (loadpc s) (workers s) (savepc s) (filesChan s) (tasksChan s)
           (resultsChan s) (wgLoad s) (wgProcess s) (wgSave s) (proc s) (crashed s).
Definition set_loadpc v s :=
  mkPState (pc s) v (workers s) (savepc s) (filesChan s) (tasksChan s)
           (resultsChan s) (wgLoad s) (wgProcess s) (wgSave s) (proc s) (crashed s).
Definition set_workers v s :=
  mkPState (pc s) (loadpc s) v (savepc s) (filesChan s) (tasksChan s)
           (resultsChan s) (wgLoad s) (wgProcess s) (wgSave s) (proc s) (crashed s).
Definition set_savepc v s :=
  mkPState (pc s) (loadpc s) (workers s) v (filesChan s) (tasksChan s)
           (resultsChan s) (wgLoad s) (wgProcess s) (wgSave s) (proc s) (crashed s).
Definition set_filesChan v s :=
  mkPState (pc s) (loadpc s) (workers s) (savepc s) v (tasksChan s)
           (resultsChan s) (wgLoad s) (wgProcess s) (wgSave s) (proc s) (crashed s).
Definition set_tasksChan v s :=
  mkPState (pc s) (loadpc s) (workers s) (savepc s) (filesChan s) v
           (resultsChan s) (wgLoad s) (wgProcess s) (wgSave s) (proc s) (crashed s).
Definition set_resultsChan v s :=
  mkPState (pc s) (loadpc s) (workers s) (savepc s) (filesChan s) (tasksChan s)
           v (wgLoad s) (wgProcess s) (wgSave s) (proc s) (crashed s).
Definition set_wgLoad v s :=
  mkPState (pc s) (loadpc s) (workers s) (savepc s) (filesChan s) (tasksChan s)
           (resultsChan s) v (wgProcess s) (wgSave s) (proc s) (crashed s).
Definition set_wgProcess v s :=
  mkPState (pc s) (loadpc s) (workers s) (savepc s) (filesChan s) (tasksChan s)
           (resultsChan s) (wgLoad s) v (wgSave s) (proc s) (crashed s).
Definition set_wgSave v s :=
  mkPState (pc s) (loadpc s) (workers s) (savepc s) (filesChan s) (tasksChan s)
           (resultsChan s) (wgLoad s) (wgProcess s) v (proc s) (crashed s).
Definition set_proc v s :=
  mkPState (pc s) (loadpc s) (workers s) (savepc s) (filesChan s) (tasksChan s)
           (resultsChan s) (wgLoad s) (wgProcess s) (wgSave s) v (crashed s).
Definition crash (e : Panic) s :=
  mkPState (pc s) (loadpc s) (workers s) (savepc s) (filesChan s) (tasksChan s)
           (resultsChan s) (wgLoad s) (wgProcess s) (wgSave s) (proc s) (Some e).

(** *** [loadWorker] *)
Definition loadWorker_step (W : World) (s : PState) : option PState :=
  match loadpc s with
  | LIdle | LDone => None
  | LRecv =>
      match chan_recv (filesChan s) with
      | RecvBlocks => None
      | RecvClosed =>
          (* the loop is over: the deferred [wg.Done()] runs *)
          match wg_Done (wgLoad s) with
          | None => Some (crash NegativeWaitGroup s)
          | Some n => Some (set_loadpc LDone (set_wgLoad n s))
          end
      | Received path c =>
          let s := set_filesChan c s in
          match load_file W path with
          | OpenFails err => Some (set_proc (log_Printf (LogOpen path err) (proc s)) s)
          | DecodeFails err => Some (set_proc (log_Printf (LogDecode path err) (proc s)) s)
          | Decodes o =>
              let '(img, p) := alloc o (proc s) in
              Some (set_loadpc (LSend (mkTask path img)) (set_proc p s))
          end
      end
  | LSend task =>
      match chan_send (tasksChan s) task with
      | SendBlocks => None
      | SendPanics => Some (crash SendOnClosed s)
      | Sent c => Some (set_loadpc LRecv (set_tasksChan c s))
      end
  end.

(** *** [processWorker], for the worker started [i]-th *)
Definition processWorker_step (i : nat) (s : PState) : option PState :=
  match workers s !! i with
  | None | Some WDone => None
  | Some WRecv =>
      match chan_recv (tasksChan s) with
      | RecvBlocks => None
      | RecvClosed =>
          match wg_Done (wgProcess s) with
          | None => Some (crash NegativeWaitGroup s)
          | Some n => Some (set_workers (<[i := WDone]> (workers s)) (set_wgProcess n s))
          end
      | Received task c =>
          let s := set_tasksChan c s in
          match (do grayImg <~ toGrayscale (Img task); toSepia grayImg) (heap (proc s)) with
          | None => Some (crash TransformPanic s)
          | Some (sepiaImg, h) =>
              Some (set_workers (<[i := WSend (mkTask (FilePath task) sepiaImg)]> (workers s))
                      (set_proc (set_heap h (proc s)) s))
          end
      end
  | Some (WSend task) =>
      match chan_send (resultsChan s) task with
      | SendBlocks => None
      | SendPanics => Some (crash SendOnClosed s)
      | Sent c => Some (set_workers (<[i := WRecv]> (workers s)) (set_resultsChan c s))
      end
  end.

(** *** [saveWorker]

    The output files are closed by deferred calls when the worker returns;
    their contents are complete as soon as [jpeg.Encode] returns. *)
Definition saveWorker_step (W : World) (s : PState) : option PState :=
  match savepc s with
  | SIdle | SDone => None
  | SRecv =>
      match chan_recv (resultsChan s) with
      | RecvBlocks => None
      | RecvClosed =>
          match wg_Done (wgSave s) with
          | None => Some (crash NegativeWaitGroup s)
          | Some n => Some (set_savepc SDone (set_wgSave n s))
          end
      | Received task c =>
          let s := set_resultsChan c s in
          let outputPath := filepath_Join W "output_parallel" (filepath_Base W (FilePath task)) in
          match os_Create W outputPath with
          | Some err => Some (set_proc (log_Printf (LogCreate outputPath err) (proc s)) s)
          | None =>
              match jpeg_Encode W outputPath (Img task) (create_file outputPath (proc s)) with
              | None => Some (crash NilImage s)
              | Some (Some err, p) => Some (set_proc (log_Printf (LogEncode outputPath err) p) s)
              | Some (None, p) => Some (set_proc p s)
              end
          end
      end
  end.

(** *** The goroutine of [runParallelPipeline] itself *)
Definition runParallelPipeline_step (W : World) (filePaths : list string)
    (numWorkers : Z) (s : PState) : option PState :=
  match pc s with
  | MSpawnSave =>
      Some (set_pc (MSpawnProcess 0) (set_savepc SRecv (set_wgSave (wgSave s + 1) s)))
  | MSpawnProcess i =>
      if i <? numWorkers
      then Some (set_pc (MSpawnProcess (i + 1))
                   (set_workers (workers s ++ [WRecv]) (set_wgProcess (wgProcess s + 1) s)))
      else Some (set_pc MSpawnLoad s)
  | MSpawnLoad =>
      Some (set_pc (MSend filePaths) (set_loadpc LRecv (set_wgLoad (wgLoad s + 1) s)))
  | MSend [] => Some (set_pc MCloseFiles s)
  | MSend (path :: rest) =>
      match chan_send (filesChan s) path with
      | SendBlocks => None
      | SendPanics => Some (crash SendOnClosed s)
      | Sent c => Some (set_pc (MSend rest) (set_filesChan c s))
      end
  | MCloseFiles =>
      match chan_close (filesChan s) with
      | None => Some (crash CloseOfClosed s)
      | Some c => Some (set_pc MWaitLoad (set_filesChan c s))
      end
  | MWaitLoad => if wgLoad s =? 0 then Some (set_pc MCloseTasks s) else None
  | MCloseTasks =>
      match chan_close (tasksChan s) with
      | None => Some (crash CloseOfClosed s)
      | Some c => Some (set_pc MWaitProcess (set_tasksChan c s))
      end
  | MWaitProcess => if wgProcess s =? 0 then Some (set_pc MCloseResults s) else None
  | MCloseResults =>
      match chan_close (resultsChan s) with
      | None => Some (crash CloseOfClosed s)
      | Some c => Some (set_pc MWaitSave (set_resultsChan c s))
      end
  | MWaitSave =>
      if wgSave s =? 0
      then Some (set_pc MDone (set_proc (fmt_Println (LineParTime (elapsed_par W)) (proc s)) s))
      else None
  | MDone => None
  end.

(** The state after the first lines of [runParallelPipeline]: the header is
    printed and the three channels are made; a negative capacity panics. *)
Definition runParallelPipeline_init (filePaths : list string) (numWorkers : Z)
    (p : Proc) : PState :=
  {| pc := MSpawnSave; loadpc := LIdle; workers := []; savepc := SIdle;
     filesChan := mkChan [] (Z.of_nat (length filePaths)) false;
     tasksChan := mkChan [] numWorkers false;
     resultsChan := mkChan [] numWorkers false;
     wgLoad := 0; wgProcess := 0; wgSave := 0;
     proc := fmt_Println (LineParHeader numWorkers) p;
     crashed := if numWorkers <? 0 then Some MakeChanSize else None |}.

Inductive Tid := TMain | TLoad | TProcess (i : nat) | TSave.

(** One step of one goroutine.  Nothing runs after a panic, nor after
    [runParallelPipeline] has returned. *)
Definition step_of (W : World) (filePaths : list string) (numWorkers : Z)
    (t : Tid) (s : PState) : option PState :=
  match crashed s, pc s with
  | Some _, _ => None
  | None, MDone => None
  | None, _ =>
      match t with
      | TMain => runParallelPipeline_step W filePaths numWorkers s
      | TLoad => loadWorker_step W s
      | TProcess i => processWorker_step i s
      | TSave => saveWorker_step W s
      end
  end.

Definition step (W : World) (filePaths : list string) (numWorkers : Z)
    (s s' : PState) : Prop :=
  exists t, step_of W filePaths numWorkers t s = Some s'.

(** Running a schedule: the goroutines named in it take one step each, in
    turn; a goroutine that cannot move is skipped. *)
Fixpoint run_schedule (W : World) (filePaths : list string) (numWorkers : Z)
    (sched : list Tid) (s : PState) : PState :=
  match sched with
  | [] => s
  | t :: sched =>
      match step_of W filePaths numWorkers t s with
      | Some s' => run_schedule W filePaths numWorkers sched s'
      | None => run_schedule W filePaths numWorkers sched s
      end
  end.

(** The run is over: [runParallelPipeline] has returned, or a goroutine has
    panicked. *)
Definition finished (s : PState) : Prop := pc s = MDone \/ crashed s <> None.

(** ** [main] *)

(** How the process ends: the exit status and the final state. *)
Definition Outcome : Type := Z * Proc.

(** [main], up to the call of [runParallelPipeline]: either the process has
    exited already, or the pipeline starts from the state given. *)
Definition main_before_pipeline (W : World) (p : Proc)
  : Outcome + (list string * PState) :=
  let p := fmt_Println (LineCPU (numCPU W)) p in
  match filepath_Glob W (filepath_Join W "input_images" "*.jpg") with
  | inr err => inl (1, log_Printf (LogFatal err) p)
  | inl filePaths =>
      let p := if decide (length filePaths = 0%nat) then fmt_Println LineNoImages p else p in
      let p := fmt_Println (LineFound (Z.of_nat (length filePaths))) p in
      let p := fmt_Println LineRule p in
      match runSequential W filePaths p with
      | None => inl (2, runSequential_panic W filePaths p)
      | Some p =>
          let p := fmt_Println LineRule p in
          inr (filePaths, runParallelPipeline_init filePaths (numCPU W) p)
      end
  end.

(** [main] after [runParallelPipeline] has returned. *)
Definition main_after_pipeline (p : Proc) : Outcome :=
  (0, fmt_Println LineFinished (fmt_Println LineRule p)).

(** The outcomes of [main]: the pipeline runs under any interleaving until
    no goroutine can move.  A panic, and a state in which every goroutine
    waits, end the process with status 2. *)
Inductive main_outcome (W : World) (p : Proc) : Outcome -> Prop :=
| main_exits o :
    main_before_pipeline W p = inl o ->
    main_outcome W p o
| main_returns filePaths s0 s :
    main_before_pipeline W p = inr (filePaths, s0) ->
    rtc (step W filePaths (numCPU W)) s0 s ->
    pc s = MDone -> crashed s = None ->
    main_outcome W p (main_after_pipeline (proc s))
| main_aborts filePaths s0 s :
    main_before_pipeline W p = inr (filePaths, s0) ->
    rtc (step W filePaths (numCPU W)) s0 s ->
    pc s <> MDone ->
    (forall s', ~ step W filePaths (numCPU W) s s') ->
    main_outcome W p (2, proc s).

(** *** Inversion of the channel operations *)

Lemma chan_send_Sent {T} (c c' : Chan T) v :
  chan_send c v = Sent c' ->
  closed c = false /\ Z.of_nat (length (buf c)) < cap c /\
  c' = mkChan (buf c ++ [v]) (cap c) false.
Proof.
  unfold chan_send. destruct (closed c) eqn:Hc; [done|].
  destruct (_ <? _) eqn:Hlt; [|done]. intros [= <-].
  apply Z.ltb_lt in Hlt. done.
Qed.

Lemma chan_send_Panics {T} (c : Chan T) v :
  chan_send c v = SendPanics -> closed c = true.
Proof.
  unfold chan_send. destruct (closed c); [done|]. by destruct (_ <? _).
Qed.

Lemma chan_send_Blocks {T} (c : Chan T) v :
  chan_send c v = SendBlocks -> closed c = false /\ cap c <= Z.of_nat (length (buf c)).
Proof.
  unfold chan_send. destruct (closed c); [done|].
  destruct (_ <? _) eqn:Hlt; [done|]. apply Z.ltb_ge in Hlt. done.
Qed.

Lemma chan_recv_Received {T} (c c' : Chan T) v :
  chan_recv c = Received v c' ->
  buf c = v :: buf c' /\ cap c' = cap c /\ closed c' = closed c.
Proof.
  unfold chan_recv. destruct (buf c) as [|v' rest]; [by destruct (closed c)|].
  by intros [= <- <-].
Qed.

Lemma chan_recv_Closed {T} (c : Chan T) :
  chan_recv c = RecvClosed -> buf c = [] /\ closed c = true.
Proof. unfold chan_recv. destruct (buf c); [|done]. by destruct (closed c). Qed.

Lemma chan_recv_Blocks {T} (c : Chan T) :
  chan_recv c = RecvBlocks -> buf c = [] /\ closed c = false.
Proof. unfold chan_recv. destruct (buf c); [|done]. by destruct (closed c). Qed.

Lemma chan_close_Some {T} (c c' : Chan T) :
  chan_close c = Some c' -> closed c = false /\ c' = mkChan (buf c) (cap c) true.
Proof. unfold chan_close. destruct (closed c); [done|]. by intros [= <-]. Qed.

Lemma chan_close_None {T} (c : Chan T) : chan_close c = None -> closed c = true.
Proof. unfold chan_close. by destruct (closed c). Qed.

Lemma wg_Done_Some n m : wg_Done n = Some m -> 0 < n /\ m = n - 1.
Proof.
  unfold wg_Done. destruct (n <=? 0) eqn:E; [done|]. intros [= <-].
  apply Z.leb_gt in E. done.
Qed.

Lemma wg_Done_None n : wg_Done n = None -> n <= 0.
Proof. unfold wg_Done. destruct (n <=? 0) eqn:E; [|done]. by apply Z.leb_le in E. Qed.

(** Case analysis on the operations a step performs. *)
Ltac step_cases Hs :=
  repeat match type of Hs with
    | context [chan_send ?c ?v] =>
        let E := fresh "E" in
        destruct (chan_send c v) eqn:E;
        [apply chan_send_Sent in E as (? & ? & ->)
        |apply chan_send_Blocks in E as (? & ?)
        |apply chan_send_Panics in E]
    | context [chan_recv ?c] =>
        let E := fresh "E" in
        destruct (chan_recv c) eqn:E;
        [apply chan_recv_Received in E as (? & ? & ?)
        |apply chan_recv_Blocks in E as (? & ?)
        |apply chan_recv_Closed in E as (? & ?)]
    | context [chan_close ?c] =>
        let E := fresh "E" in
        destruct (chan_close c) eqn:E;
        [apply chan_close_Some in E as (? & ->)
        |apply chan_close_None in E]
    | context [wg_Done ?n] =>
        let E := fresh "E" in
        destruct (wg_Done n) eqn:E;
        [apply wg_Done_Some in E as (? & ->)
        |apply wg_Done_None in E]
    | context [if ?x =? ?y then _ else _] =>
        let E := fresh "E" in
        destruct (x =? y) eqn:E; [apply Z.eqb_eq in E | apply Z.eqb_neq in E]
    | context [if ?x <? ?y then _ else _] =>
        let E := fresh "E" in
        destruct (x <? y) eqn:E; [apply Z.ltb_lt in E | apply Z.ltb_ge in E]
    end.

(** ** Invariants of the pipeline *)

(** How far the orchestrator has come. *)
Definition stage (m : MainPC) : Z :=
  match m with
  | MSpawnSave => 0
  | MSpawnProcess _ => 1
  | MSpawnLoad => 2
  | MSend _ => 3
  | MCloseFiles => 4
  | MWaitLoad => 5
  | MCloseTasks => 6
  | MWaitProcess => 7
  | MCloseResults => 8
  | MWaitSave => 9
  | MDone => 10
  end.

Definition live (w : WorkPC) : bool :=
  match w with WDone => false | _ => true end.

(** Number of transform workers still in their loop. *)
Fixpoint count_live (ws : list WorkPC) : Z :=
  match ws with
  | [] => 0
  | w :: ws => (if live w then 1 else 0) + count_live ws
  end.

(** The panics that come from the channel and wait-group protocol. *)
Definition protocol_panic (e : Panic) : bool :=
  match e with
  | SendOnClosed | CloseOfClosed | NegativeWaitGroup => true
  | _ => false
  end.

Section Pipeline.
Variable W : World.
Variable filePaths : list string.
Variable numWorkers : Z.


(** The paths the orchestrator has still to send. *)
Definition to_send (m : MainPC) : list string :=
  match m with
  | MSpawnSave | MSpawnProcess _ | MSpawnLoad => filePaths
  | MSend rest => rest
  | _ => []
  end.

Record Inv (s : PState) : Prop := mkInv {
  (* capacities are those given to make *)
  inv_cap_files : cap (filesChan s) = Z.of_nat (length filePaths);
  inv_cap_tasks : cap (tasksChan s) = numWorkers;
  inv_cap_results : cap (resultsChan s) = numWorkers;
  inv_len_files :
    Z.of_nat (length (buf (filesChan s))) + Z.of_nat (length (to_send (pc s)))
    <= Z.of_nat (length filePaths);
  inv_len_tasks : Z.of_nat (length (buf (tasksChan s))) <= Z.max 0 numWorkers;
  inv_len_results : Z.of_nat (length (buf (resultsChan s))) <= Z.max 0 numWorkers;
  (* a channel is closed exactly from the close statement on *)
  inv_closed_files :
    if closed (filesChan s) then 5 <= stage (pc s) else stage (pc s) < 5;
  inv_closed_tasks :
    if closed (tasksChan s) then 7 <= stage (pc s) else stage (pc s) < 7;
  inv_closed_results :
    if closed (resultsChan s) then 9 <= stage (pc s) else stage (pc s) < 9;
  (* the load stage *)
  inv_load :
    match loadpc s with
    | LIdle => stage (pc s) <= 2 /\ wgLoad s = 0
    | LRecv | LSend _ => 3 <= stage (pc s) <= 5 /\ wgLoad s = 1
    | LDone => 5 <= stage (pc s) /\ wgLoad s = 0 /\ buf (filesChan s) = []
    end;
  (* the transform workers *)
  inv_workers_len :
    match pc s with
    | MSpawnSave => workers s = []
    | MSpawnProcess i => Z.of_nat (length (workers s)) = i /\ i <= Z.max 0 numWorkers
    | _ => Z.of_nat (length (workers s)) = Z.max 0 numWorkers
    end;
  inv_wgProcess : wgProcess s = count_live (workers s);
  inv_workers_done :
    WDone ∈ workers s -> 7 <= stage (pc s) /\ buf (tasksChan s) = [];
  inv_joined : 8 <= stage (pc s) -> wgProcess s = 0;
  (* the save stage *)
  inv_save :
    match savepc s with
    | SIdle => stage (pc s) = 0 /\ wgSave s = 0
    | SRecv => 1 <= stage (pc s) <= 9 /\ wgSave s = 1
    | SDone => 9 <= stage (pc s) /\ wgSave s = 0 /\ buf (resultsChan s) = []
    end;
  inv_main_done : pc s = MDone -> savepc s = SDone;
  (* nothing is queued before the goroutines run *)
  inv_early :
    stage (pc s) <= 2 ->
    buf (filesChan s) = [] /\ buf (tasksChan s) = [] /\ buf (resultsChan s) = [];
  inv_early_workers : stage (pc s) <= 2 -> forall w, w ∈ workers s -> w = WRecv;
  (* no panic of the protocol *)
  inv_crashed : forall e, crashed s = Some e -> protocol_panic e = false
}.

Lemma count_live_nonneg ws : 0 <= count_live ws.
Proof. induction ws as [|w ws IH]; simpl; [lia|]. destruct (live w); lia. Qed.

Lemma count_live_app ws1 ws2 : count_live (ws1 ++ ws2) = count_live ws1 + count_live ws2.
Proof. induction ws1 as [|w ws1 IH]; simpl; [lia|]. rewrite IH. lia. Qed.

Lemma count_live_insert ws i w w' :
  ws !! i = Some w ->
  count_live (<[i := w']> ws)
  = count_live ws - (if live w then 1 else 0) + (if live w' then 1 else 0).
Proof.
  revert i. induction ws as [|w0 ws IH]; intros [|i] Hi; simplify_eq/=.
  - lia.
  - rewrite (IH i) by done. lia.
Qed.

Lemma count_live_zero ws : count_live ws = 0 -> Forall (fun w => w = WDone) ws.
Proof.
  induction ws as [|w ws IH]; simpl; intros H; [constructor|].
  pose proof (count_live_nonneg ws). destruct w; simpl in *; try lia.
  constructor; [done|]. apply IH. lia.
Qed.

Lemma count_live_pos ws :
  0 < count_live ws -> exists i w, ws !! i = Some w /\ live w = true.
Proof.
  induction ws as [|w ws IH]; simpl; intros H; [lia|].
  destruct (live w) eqn:E.
  - exists 0%nat, w. done.
  - destruct IH as (i & w' & ? & ?); [lia|]. exists (S i), w'. done.
Qed.

Lemma count_live_lookup ws i w :
  ws !! i = Some w -> live w = true -> 1 <= count_live ws.
Proof.
  revert i. induction ws as [|w0 ws IH]; intros [|i] Hi Hw; simplify_eq/=.
  - rewrite Hw. pose proof (count_live_nonneg ws). lia.
  - specialize (IH i Hi Hw). destruct (live w0); lia.
Qed.

Lemma elem_of_insert_inv (ws : list WorkPC) i w x :
  x ∈ <[i := w]> ws -> x = w \/ x ∈ ws.
Proof.
  intros Hx. apply list_elem_of_lookup in Hx as [j Hj].
  destruct (decide (i = j)) as [->|Hne].
  - left. assert (j < length ws)%nat.
    { apply lookup_lt_Some in Hj. by rewrite length_insert in Hj. }
    rewrite list_lookup_insert_eq in Hj by done. congruence.
  - right. rewrite list_lookup_insert_ne in Hj by done.
    apply list_elem_of_lookup. eauto.
Qed.

Lemma Inv_init p :
  Inv (runParallelPipeline_init filePaths numWorkers p).
Proof.
  split; simpl; try done; try lia.
  - intros H. by apply elem_of_nil in H.
  - intros _ w H. by apply elem_of_nil in H.
  - intros e. destruct (numWorkers <? 0); intros [= <-]; done.
Qed.

Ltac inv_case :=
  repeat match goal with
    | H : _ /\ _ |- _ => destruct H
    | H : context [match ?x with _ => _ end] |- _ => is_var x; destruct x
    | H : ?a <= ?b -> _ |- _ =>
        let HP := fresh in
        assert (HP : a <= b) by (compute; discriminate); specialize (H HP); clear HP
    end.

Ltac inv_start s Hs :=
  intros [] Hs;
  destruct s as [pc0 lp ws sp [fb fcap fcl] [tb tcap tcl] [rb rcap rcl] wl wp wsv p cr];
  simpl in *.

Ltac inv_goal :=
  try done; try lia;
  try (rewrite ?length_app, ?count_live_app; simpl; lia);
  try (rewrite ?length_insert; lia);
  try (erewrite count_live_insert by eassumption; simpl; lia);
  try (intros; simplify_eq; done);
  try match goal with
    | H : WDone ∈ ?ws -> _ |- WDone ∈ <[_ := _]> ?ws -> _ =>
        let Hd := fresh in
        intros Hd; apply elem_of_insert_inv in Hd as [Hd|Hd];
        [try discriminate | destruct (H Hd) as [? ?]; simplify_eq];
        try (split; [lia | done])
    | H : ?P |- _ -> ?P => intros _; exact H
    | H : forall w, w ∈ ?ws -> w = WRecv |- _ -> forall w, w ∈ ?ws ++ [_] -> w = WRecv =>
        let Hd := fresh in
        intros _ ? Hd; apply elem_of_app in Hd as [Hd|Hd];
        [by apply H | by apply list_elem_of_singleton in Hd]
    | H : WDone ∈ ?ws -> _ |- WDone ∈ ?ws -> _ =>
        let Hd := fresh in intros Hd; destruct (H Hd); split; [lia | done]
    | H : WDone ∈ ?ws -> _ |- WDone ∈ ?ws ++ [_] -> _ =>
        let Hd := fresh in
        intros Hd; apply elem_of_app in Hd as [Hd|Hd];
        [destruct (H Hd); lia | apply list_elem_of_singleton in Hd; done]
    | H : _ -> ?P |- _ -> ?P => intros; apply H; lia
    end.

Ltac inv_finish :=
  simplify_eq; simpl in *; inv_case; simpl in *; simplify_eq;
  try (exfalso; lia);
  try match goal with
    | H : forall w, w ∈ ?ws -> w = WRecv, Hi : ?ws !! _ = Some (WSend _) |- _ =>
        exfalso; pose proof (H _ (list_elem_of_lookup_2 _ _ _ Hi)); discriminate
    end;
  split; simpl; inv_goal.

Lemma Inv_main s s' :
  Inv s -> runParallelPipeline_step W filePaths numWorkers s = Some s' -> Inv s'.
Proof.
  inv_start s Hs.
  unfold runParallelPipeline_step in Hs; simpl in Hs.
  destruct pc0 as [| | |[|path rest]| | | | | | |]; simpl in *;
    step_cases Hs; inv_finish.
Qed.

Lemma Inv_load s s' : Inv s -> loadWorker_step W s = Some s' -> Inv s'.
Proof.
  inv_start s Hs.
  unfold loadWorker_step in Hs; simpl in Hs.
  destruct lp; simpl in *; step_cases Hs;
    repeat match type of Hs with
      | context [load_file ?W ?x] => destruct (load_file W x)
      end; simpl in *; inv_finish.
Qed.

Lemma Inv_save s s' : Inv s -> saveWorker_step W s = Some s' -> Inv s'.
Proof.
  inv_start s Hs.
  unfold saveWorker_step in Hs; simpl in Hs.
  destruct sp; simpl in *; step_cases Hs;
    repeat match type of Hs with
      | context [os_Create ?W ?x] => destruct (os_Create W x)
      | context [jpeg_Encode ?W ?x ?y ?z] => destruct (jpeg_Encode W x y z) as [[[?|] ?]|]
      end; simpl in *; inv_finish.
Qed.

Lemma Inv_process i s s' : Inv s -> processWorker_step i s = Some s' -> Inv s'.
Proof.
  inv_start s Hs.
  unfold processWorker_step in Hs; simpl in Hs.
  destruct (ws !! i) as [w|] eqn:Hi; [|done].
  destruct w; try done.
  all: pose proof (count_live_lookup _ _ _ Hi eq_refl) as Hlive.
  all: simpl in *; step_cases Hs;
    repeat match type of Hs with
      | context [bind ?a ?b ?c] => destruct (bind a b c) as [[? ?]|]
      end; simpl in *; inv_finish.
Qed.

(** Every step of every goroutine keeps the invariant. *)
Lemma Inv_step s s' : Inv s -> step W filePaths numWorkers s s' -> Inv s'.
Proof.
  intros HI [t Ht]. unfold step_of in Ht.
  destruct (crashed s); [done|].
  destruct t; destruct (pc s) eqn:Hpc; try done;
    eauto using Inv_main, Inv_load, Inv_process, Inv_save.
  all: rewrite <- Hpc in Ht; eauto using Inv_main, Inv_load, Inv_process, Inv_save.
Qed.

Lemma Inv_reachable p s :
  rtc (step W filePaths numWorkers) (runParallelPipeline_init filePaths numWorkers p) s ->
  Inv s.
Proof.
  intros Hr. apply (rtc_ind_r (fun s => Inv s) _ (Inv_init p)) in Hr; [done|].
  intros ? ? _ ? ?. eauto using Inv_step.
Qed.

(** *** Termination: a measure that every step decreases *)

Definition main_rank (m : MainPC) : Z :=
  match m with
  | MDone => 0
  | MWaitSave => 1
  | MCloseResults => 2
  | MWaitProcess => 3
  | MCloseTasks => 4
  | MWaitLoad => 5
  | MCloseFiles => 6
  | MSend rest => 7 + 6 * Z.of_nat (length rest)
  | MSpawnLoad => 9 + 6 * Z.of_nat (length filePaths)
  | MSpawnProcess i => 10 + 6 * Z.of_nat (length filePaths) + 2 * Z.max 0 (numWorkers - i)
  | MSpawnSave => 12 + 6 * Z.of_nat (length filePaths) + 2 * Z.max 0 numWorkers
  end.

Definition load_rank (l : LoadPC) : Z :=
  match l with LIdle | LRecv => 1 | LSend _ => 5 | LDone => 0 end.

Definition work_rank (w : WorkPC) : Z :=
  match w with WRecv => 1 | WSend _ => 3 | WDone => 0 end.

Fixpoint work_ranks (ws : list WorkPC) : Z :=
  match ws with
  | [] => 0
  | w :: ws => work_rank w + work_ranks ws
  end.

Definition save_rank (l : SavePC) : Z :=
  match l with SIdle | SRecv => 1 | SDone => 0 end.

Definition measure (s : PState) : Z :=
  main_rank (pc s) + load_rank (loadpc s) + work_ranks (workers s) + save_rank (savepc s)
  + 5 * Z.of_nat (length (buf (filesChan s)))
  + 3 * Z.of_nat (length (buf (tasksChan s)))
  + Z.of_nat (length (buf (resultsChan s)))
  + (match crashed s with Some _ => 0 | None => 1 end).

Lemma work_ranks_nonneg ws : 0 <= work_ranks ws.
Proof. induction ws as [|[] ws IH]; simpl; lia. Qed.

Lemma work_ranks_app ws1 ws2 : work_ranks (ws1 ++ ws2) = work_ranks ws1 + work_ranks ws2.
Proof. induction ws1 as [|w ws1 IH]; simpl; lia. Qed.

Lemma work_ranks_insert ws i w w' :
  ws !! i = Some w ->
  work_ranks (<[i := w']> ws) = work_ranks ws - work_rank w + work_rank w'.
Proof.
  revert i. induction ws as [|w0 ws IH]; intros [|i] Hi; simplify_eq/=.
  - lia.
  - rewrite (IH i) by done. lia.
Qed.

Lemma measure_nonneg s : 0 <= measure s.
Proof.
  unfold measure. pose proof (work_ranks_nonneg (workers s)).
  destruct (pc s), (loadpc s), (savepc s), (crashed s); simpl; lia.
Qed.

Ltac measure_start s Hs :=
  intros Hcr Hs;
  destruct s as [pc0 lp ws sp [fb fcap fcl] [tb tcap tcl] [rb rcap rcl] wl wp wsv p cr];
  unfold measure; simpl in *; subst cr.

Ltac measure_finish :=
  simplify_eq; simpl in *;
  repeat match goal with
    | H : _ = _ :: _ |- _ => rewrite H
    end;
  rewrite ?length_app, ?work_ranks_app; simpl;
  try (erewrite work_ranks_insert by eassumption; simpl);
  repeat match goal with
    | |- context [load_rank ?l] => is_var l; destruct l
    | |- context [save_rank ?l] => is_var l; destruct l
    end; simpl;
  lia.

Lemma measure_main s s' :
  crashed s = None ->
  runParallelPipeline_step W filePaths numWorkers s = Some s' -> measure s' < measure s.
Proof.
  measure_start s Hs. unfold runParallelPipeline_step in Hs; simpl in Hs.
  destruct pc0 as [| | |[|path rest]| | | | | | |]; simpl in *;
    step_cases Hs; measure_finish.
Qed.

Lemma measure_load s s' :
  crashed s = None -> loadWorker_step W s = Some s' -> measure s' < measure s.
Proof.
  measure_start s Hs. unfold loadWorker_step in Hs; simpl in Hs.
  destruct lp; simpl in *; step_cases Hs;
    repeat match type of Hs with
      | context [load_file ?W ?x] => destruct (load_file W x)
      end; measure_finish.
Qed.

Lemma measure_save s s' :
  crashed s = None -> saveWorker_step W s = Some s' -> measure s' < measure s.
Proof.
  measure_start s Hs. unfold saveWorker_step in Hs; simpl in Hs.
  destruct sp; simpl in *; step_cases Hs;
    repeat match type of Hs with
      | context [os_Create ?W ?x] => destruct (os_Create W x)
      | context [jpeg_Encode ?W ?x ?y ?z] => destruct (jpeg_Encode W x y z) as [[[?|] ?]|]
      end; measure_finish.
Qed.

Lemma measure_process i s s' :
  crashed s = None -> processWorker_step i s = Some s' -> measure s' < measure s.
Proof.
  measure_start s Hs. unfold processWorker_step in Hs; simpl in Hs.
  destruct (ws !! i) as [[]|] eqn:Hi; simpl in *; step_cases Hs;
    repeat match type of Hs with
      | context [bind ?a ?b ?c] => destruct (bind a b c) as [[? ?]|]
      end; measure_finish.
Qed.

Lemma measure_step s s' : step W filePaths numWorkers s s' -> measure s' < measure s.
Proof.
  intros [t Ht]. unfold step_of in Ht.
  destruct (crashed s) eqn:Hcr; [done|].
  destruct t; destruct (pc s) eqn:Hpc; try done; rewrite <- ?Hpc in Ht;
    eauto using measure_main, measure_load, measure_process, measure_save.
Qed.

(** No execution is infinite. *)
Lemma step_sn s : sn (step W filePaths numWorkers) s.
Proof.
  apply (wf_projected (R1 := flip (step W filePaths numWorkers)) lt
           (fun s => Z.to_nat (measure s))); [|apply lt_wf].
  intros s1 s2 Hs. unfold flip in Hs. apply measure_step in Hs.
  pose proof (measure_nonneg s1). lia.
Qed.

(** *** Progress: while the run is not over, some goroutine can move *)

Lemma step_of_running t s :
  crashed s = None -> pc s <> MDone ->
  step_of W filePaths numWorkers t s =
    match t with
    | TMain => runParallelPipeline_step W filePaths numWorkers s
    | TLoad => loadWorker_step W s
    | TProcess i => processWorker_step i s
    | TSave => saveWorker_step W s
    end.
Proof. intros Hc Hpc. unfold step_of. rewrite Hc. by destruct (pc s). Qed.

Lemma chan_recv_ready {T} (c : Chan T) :
  buf c <> [] \/ closed c = true -> chan_recv c <> RecvBlocks.
Proof. unfold chan_recv. destruct (buf c), (closed c); intros [?|?]; done. Qed.

Lemma chan_send_ready {T} (c : Chan T) v :
  Z.of_nat (length (buf c)) < cap c -> chan_send c v <> SendBlocks.
Proof.
  intros Hlt. unfold chan_send. destruct (closed c); [done|].
  apply Z.ltb_lt in Hlt. by rewrite Hlt.
Qed.

Lemma loadWorker_recv_moves s :
  loadpc s = LRecv -> chan_recv (filesChan s) <> RecvBlocks ->
  is_Some (loadWorker_step W s).
Proof.
  intros Hl Hr. unfold loadWorker_step. rewrite Hl.
  destruct (chan_recv (filesChan s)); [|done|].
  - destruct (load_file W v); simpl; eauto.
  - destruct (wg_Done _); eauto.
Qed.

Lemma loadWorker_send_moves s task :
  loadpc s = LSend task -> chan_send (tasksChan s) task <> SendBlocks ->
  is_Some (loadWorker_step W s).
Proof.
  intros Hl Hr. unfold loadWorker_step. rewrite Hl.
  destruct (chan_send (tasksChan s) task); eauto. done.
Qed.

Lemma processWorker_recv_moves i s :
  workers s !! i = Some WRecv -> chan_recv (tasksChan s) <> RecvBlocks ->
  is_Some (processWorker_step i s).
Proof.
  intros Hl Hr. unfold processWorker_step. rewrite Hl.
  destruct (chan_recv (tasksChan s)); [|done|].
  - simpl. destruct (bind _ _ _) as [[? ?]|]; eauto.
  - destruct (wg_Done _); eauto.
Qed.

Lemma processWorker_send_moves i s task :
  workers s !! i = Some (WSend task) -> chan_send (resultsChan s) task <> SendBlocks ->
  is_Some (processWorker_step i s).
Proof.
  intros Hl Hr. unfold processWorker_step. rewrite Hl.
  destruct (chan_send (resultsChan s) task); eauto. done.
Qed.

Lemma saveWorker_moves s :
  savepc s = SRecv -> chan_recv (resultsChan s) <> RecvBlocks ->
  is_Some (saveWorker_step W s).
Proof.
  intros Hl Hr. unfold saveWorker_step. rewrite Hl.
  destruct (chan_recv (resultsChan s)); [|done|].
  - simpl. destruct (os_Create _ _); eauto.
    destruct (jpeg_Encode _ _ _ _) as [[[?|] ?]|]; eauto.
  - destruct (wg_Done _); eauto.
Qed.

(** A transform worker still in its loop can move, or the save stage can,
    as long as the worker has something to receive or is sending. *)
Lemma worker_or_saver_moves s i w :
  Inv s -> 1 <= numWorkers -> crashed s = None -> pc s <> MDone ->
  1 <= stage (pc s) <= 8 ->
  workers s !! i = Some w -> live w = true ->
  chan_recv (tasksChan s) <> RecvBlocks ->
  exists s', step W filePaths numWorkers s s'.
Proof.
  intros HI HN Hc Hpc Hst Hi Hlive Hrecv.
  destruct w as [|task|]; [| |done].
  - destruct (processWorker_recv_moves i s Hi Hrecv) as [s' Hs'].
    exists s', (TProcess i). by rewrite step_of_running.
  - destruct (decide (Z.of_nat (length (buf (resultsChan s))) < cap (resultsChan s)))
      as [Hroom|Hfull].
    + destruct (processWorker_send_moves i s task Hi) as [s' Hs'].
      { by apply chan_send_ready. }
      exists s', (TProcess i). by rewrite step_of_running.
    + destruct (saveWorker_moves s) as [s' Hs'].
      * pose proof (inv_save _ HI) as Hsv. destruct (savepc s); [lia | done | lia].
      * apply chan_recv_ready. left. rewrite (inv_cap_results _ HI) in Hfull.
        destruct (buf (resultsChan s)); [simpl in Hfull; lia | done].
      * exists s', TSave. by rewrite step_of_running.
Qed.

Lemma progress s :
  Inv s -> 1 <= numWorkers -> crashed s = None -> pc s <> MDone ->
  exists s', step W filePaths numWorkers s s'.
Proof.
  intros HI HN Hc Hpc.
  assert (Hmain : forall s', runParallelPipeline_step W filePaths numWorkers s = Some s' ->
                   exists s', step W filePaths numWorkers s s').
  { intros s' Hs'. exists s', TMain. by rewrite step_of_running. }
  pose proof (inv_closed_files _ HI) as Hcf.
  pose proof (inv_closed_tasks _ HI) as Hct.
  pose proof (inv_closed_results _ HI) as Hcr.
  destruct (pc s) as [| | |[|path rest]| | | | | | |] eqn:Hp; try done; simpl in *.
  - (* MSpawnSave *)
    eapply Hmain. unfold runParallelPipeline_step. by rewrite Hp.
  - (* MSpawnProcess *)
    destruct (i <? numWorkers) eqn:E.
    all: eapply Hmain; unfold runParallelPipeline_step; by rewrite Hp, E.
  - (* MSpawnLoad *)
    eapply Hmain. unfold runParallelPipeline_step. by rewrite Hp.
  - (* MSend [] *)
    eapply Hmain. unfold runParallelPipeline_step. by rewrite Hp.
  - (* MSend (path :: rest) *)
    pose proof (inv_len_files _ HI) as Hlen. rewrite Hp in Hlen. simpl in Hlen.
    destruct (chan_send (filesChan s) path) eqn:E.
    + eapply Hmain. unfold runParallelPipeline_step. by rewrite Hp, E.
    + exfalso. revert E. apply chan_send_ready. rewrite (inv_cap_files _ HI). lia.
    + eapply Hmain. unfold runParallelPipeline_step. by rewrite Hp, E.
  - (* MCloseFiles *)
    destruct (chan_close (filesChan s)) eqn:E.
    all: eapply Hmain; unfold runParallelPipeline_step; by rewrite Hp, E.
  - (* MWaitLoad *)
    destruct (wgLoad s =? 0) eqn:E.
    { eapply Hmain. unfold runParallelPipeline_step. by rewrite Hp, E. }
    apply Z.eqb_neq in E.
    pose proof (inv_load _ HI) as Hl. rewrite Hp in Hl. simpl in Hl.
    destruct (loadpc s) as [| |task|] eqn:Hlp; [lia | | | lia].
    + destruct (loadWorker_recv_moves s Hlp) as [s' Hs'].
      { apply chan_recv_ready. right. by destruct (closed (filesChan s)); [|lia]. }
      exists s', TLoad. rewrite step_of_running; [done..|]. by rewrite Hp.
    + destruct (decide (Z.of_nat (length (buf (tasksChan s))) < cap (tasksChan s)))
        as [Hroom|Hfull].
      * destruct (loadWorker_send_moves s task Hlp) as [s' Hs'].
        { by apply chan_send_ready. }
        exists s', TLoad. rewrite step_of_running; [done..|]. by rewrite Hp.
      * rewrite (inv_cap_tasks _ HI) in Hfull.
        pose proof (inv_workers_len _ HI) as Hwl. rewrite Hp in Hwl.
        destruct (workers s) as [|w ws] eqn:Hws; [simpl in Hwl; lia|].
        apply (worker_or_saver_moves s 0%nat w); try done.
        -- by rewrite Hp.
        -- rewrite Hp. simpl. lia.
        -- by rewrite Hws.
        -- destruct w; try done. exfalso.
           destruct (inv_workers_done _ HI) as [H7 _]; [rewrite Hws; left|].
           rewrite Hp in H7. simpl in H7. lia.
        -- apply chan_recv_ready. left.
           destruct (buf (tasksChan s)); [simpl in Hfull; lia | done].
  - (* MCloseTasks *)
    destruct (chan_close (tasksChan s)) eqn:E.
    all: eapply Hmain; unfold runParallelPipeline_step; by rewrite Hp, E.
  - (* MWaitProcess *)
    destruct (wgProcess s =? 0) eqn:E.
    { eapply Hmain. unfold runParallelPipeline_step. by rewrite Hp, E. }
    apply Z.eqb_neq in E. rewrite (inv_wgProcess _ HI) in E.
    pose proof (count_live_nonneg (workers s)).
    destruct (count_live_pos (workers s)) as (i & w & Hi & Hw); [lia|].
    apply (worker_or_saver_moves s i w); try done.
    + by rewrite Hp.
    + rewrite Hp. simpl. lia.
    + apply chan_recv_ready. right. by destruct (closed (tasksChan s)); [|lia].
  - (* MCloseResults *)
    destruct (chan_close (resultsChan s)) eqn:E.
    all: eapply Hmain; unfold runParallelPipeline_step; by rewrite Hp, E.
  - (* MWaitSave *)
    destruct (wgSave s =? 0) eqn:E.
    { eapply Hmain. unfold runParallelPipeline_step. by rewrite Hp, E. }
    apply Z.eqb_neq in E.
    pose proof (inv_save _ HI) as Hsv. rewrite Hp in Hsv. simpl in Hsv.
    destruct (savepc s) eqn:Hsp; [lia | | lia].
    destruct (saveWorker_moves s Hsp) as [s' Hs'].
    { apply chan_recv_ready. right. by destruct (closed (resultsChan s)); [|lia]. }
    exists s', TSave. rewrite step_of_running; [done..|]. by rewrite Hp.
Qed.
End Pipeline.

(** ** What the transform chain computes *)

(** The image [toSepia (toGrayscale img)] points to, for [img] pointing to [o]. *)
Definition transformed (o : ImageObj) : RGBAImage :=
  mapImage sepiaPixel
    (at_total (ObjRGBA (mapImage grayPixel (at_total o) (obj_Bounds o))))
    (obj_Bounds o).

Lemma fresh_lookup_None (h : Heap) : h !! fresh (dom h) = None.
Proof. apply not_elem_of_dom, is_fresh. Qed.

Lemma insert_fresh_subseteq (h : Heap) o : h ⊆ <[fresh (dom h) := o]> h.
Proof. apply insert_subseteq, fresh_lookup_None. Qed.

(** The chain of [processWorker] and [runSequential]: grayscale, then sepia.
    Two buffers are allocated; nothing that existed before is written. *)
Lemma transform_spec (h : Heap) img o :
  h !! img = Some o -> readable o ->
  exists grayImg sepiaImg h',
    (do grayImg <~ toGrayscale img; toSepia grayImg) h = Some (sepiaImg, h') /\
    h' = <[sepiaImg := ObjRGBA (transformed o)]>
           (<[grayImg := ObjRGBA (mapImage grayPixel (at_total o) (obj_Bounds o))]> h) /\
    grayImg = fresh (dom h) /\
    sepiaImg = fresh (dom (<[grayImg := ObjRGBA (mapImage grayPixel (at_total o) (obj_Bounds o))]> h)) /\
    h ⊆ h' /\
    h' !! sepiaImg = Some (ObjRGBA (transformed o)).
Proof.
  intros Himg Hwf. pose proof Hwf as [Hrect _].
  set (g := mapImage grayPixel (at_total o) (obj_Bounds o)).
  set (l1 := fresh (dom h)). set (h1 := <[l1 := ObjRGBA g]> h).
  set (l2 := fresh (dom h1)).
  exists l1, l2, (<[l2 := ObjRGBA (transformed o)]> h1).
  assert (Hg : toGrayscale img h = Some (l1, h1)) by (by apply mapPixels_spec).
  assert (Hs : toSepia l1 h1 = Some (l2, <[l2 := ObjRGBA (transformed o)]> h1)).
  { unfold toSepia. fold (mapPixels sepiaPixel l1).
    rewrite (mapPixels_spec sepiaPixel h1 l1 (ObjRGBA g)).
    - done.
    - apply lookup_insert_eq.
    - by apply wf_readable, mapImage_wf. }
  split; [|split; [done|split; [done|split; [done|split]]]].
  - unfold bind. by rewrite Hg.
  - etrans; [apply insert_fresh_subseteq | apply insert_fresh_subseteq].
  - apply lookup_insert_eq.
Qed.

(** ** The terminal outcome of one path *)

Definition outputPath_of (W : World) (dir path : string) : string :=
  filepath_Join W dir (filepath_Base W path).

(** How the handling of one path ends. *)
Inductive ItemOutcome :=
| OutOpenFails (err : string)
| OutDecodeFails (err : string)
| OutCreateFails (err : string)
| OutEncodeFails (err : string) (content : FileContent)
| OutWritten (bytes : list Z).

Definition outcome_of (W : World) (dir path : string) : ItemOutcome :=
  match load_file W path with
  | OpenFails err => OutOpenFails err
  | DecodeFails err => OutDecodeFails err
  | Decodes o =>
      match os_Create W (outputPath_of W dir path) with
      | Some err => OutCreateFails err
      | None =>
          match jpeg_stream W (ObjRGBA (transformed o)) with
          | inr err => OutEncodeFails err (Complete [])
          | inl bytes =>
              match write_err W (outputPath_of W dir path) with
              | Some err => OutEncodeFails err Incomplete
              | None => OutWritten bytes
              end
          end
      end
  end.

(** The files after a path has reached its outcome. *)
Definition files_after (W : World) (dir : string) (fs : gmap string FileContent)
    (path : string) : gmap string FileContent :=
  match outcome_of W dir path with
  | OutOpenFails _ | OutDecodeFails _ | OutCreateFails _ => fs
  | OutEncodeFails _ content => <[outputPath_of W dir path := content]> fs
  | OutWritten bytes => <[outputPath_of W dir path := Complete bytes]> fs
  end.

(** The log lines of a path; [log_encode] tells whether the runner logs the
    error of [jpeg.Encode]. *)
Definition log_of (W : World) (dir : string) (log_encode : bool) (path : string)
  : list LogEntry :=
  match outcome_of W dir path with
  | OutOpenFails err => [LogOpen path err]
  | OutDecodeFails err => [LogDecode path err]
  | OutCreateFails err => [LogCreate (outputPath_of W dir path) err]
  | OutEncodeFails err _ =>
      if log_encode then [LogEncode (outputPath_of W dir path) err] else []
  | OutWritten _ => []
  end.

(** The decoder returns images whose pixels can all be read. *)
Definition wf_world (W : World) : Prop :=
  forall path o, load_file W path = Decodes o -> readable o.

(** *** The sequential runner, path by path *)

Lemma runSequential_body_spec W path p :
  wf_world W ->
  exists h,
    runSequential_body W path p =
      Some (mkProc h (files_after W "output_sequential" (files p) path)
                   (log p ++ log_of W "output_sequential" false path) (stdout p)) /\
    heap p ⊆ h.
Proof.
  intros Hwf. unfold runSequential_body, files_after, log_of, outcome_of.
  destruct (load_file W path) as [err|err|o] eqn:Hload.
  - exists (heap p). destruct p; simpl. by rewrite app_nil_r || done.
  - exists (heap p). by destruct p.
  - simpl.
    destruct (transform_spec (<[fresh (dom (heap p)) := o]> (heap p))
                (fresh (dom (heap p))) o) as (g & sp & h' & Hrun & _ & _ & _ & Hsub & Hlook).
    { apply lookup_insert_eq. } { by eapply Hwf. }
    rewrite Hrun. exists h'. split.
    2:{ etrans; [apply insert_fresh_subseteq | done]. }
    fold (outputPath_of W "output_sequential" path).
    destruct (os_Create W _) as [err|]; [done|].
    unfold jpeg_Encode, create_file. simpl. rewrite Hlook.
    destruct (jpeg_stream W _) as [bytes|err]; simpl.
    + destruct (write_err W _); simpl; by rewrite insert_insert_eq, app_nil_r.
    + by rewrite app_nil_r.
Qed.

Lemma runSequential_loop_spec W paths p :
  wf_world W ->
  exists h,
    runSequential_loop W paths p =
      Some (mkProc h (foldl (files_after W "output_sequential") (files p) paths)
                   (log p ++ (paths ≫= log_of W "output_sequential" false)) (stdout p)).
Proof.
  intros Hwf. revert p. induction paths as [|path rest IH]; intros p.
  - exists (heap p). simpl. rewrite app_nil_r. by destruct p.
  - destruct (runSequential_body_spec W path p Hwf) as (h & Hbody & _).
    simpl. rewrite Hbody.
    destruct (IH (mkProc h (files_after W "output_sequential" (files p) path)
                    (log p ++ log_of W "output_sequential" false path) (stdout p)))
      as (h' & ->).
    exists h'. simpl. by rewrite <- app_assoc.
Qed.

(** The sequential runner always returns, and its effects are those of the
    paths taken in order. *)
Lemma runSequential_spec W paths p :
  wf_world W ->
  exists h,
    runSequential W paths p =
      Some (mkProc h (foldl (files_after W "output_sequential") (files p) paths)
                   (log p ++ (paths ≫= log_of W "output_sequential" false))
                   (stdout p ++ [LineSeqHeader; LineSeqTime (elapsed_seq W)])).
Proof.
  intros Hwf. unfold runSequential.
  destruct (runSequential_loop_spec W paths (fmt_Println LineSeqHeader p) Hwf) as (h & ->).
  exists h. unfold fmt_Println. simpl. by rewrite <- app_assoc.
Qed.

(** ** Accounting for every path in the pipeline *)

Definition load_hold (l : LoadPC) : list ImageTask :=
  match l with LSend task => [task] | _ => [] end.

Definition work_hold (w : WorkPC) : list ImageTask :=
  match w with WSend task => [task] | _ => [] end.

(** Tasks decoded and not yet transformed. *)
Definition raw_tasks (s : PState) : list ImageTask :=
  load_hold (loadpc s) ++ buf (tasksChan s).

(** Tasks transformed and not yet saved. *)
Definition done_tasks (s : PState) : list ImageTask :=
  (workers s ≫= work_hold) ++ buf (resultsChan s).

(** The paths on their way through the pipeline. *)
Definition in_flight (filePaths : list string) (s : PState) : list string :=
  to_send filePaths (pc s) ++ buf (filesChan s) ++
  (FilePath <$> raw_tasks s) ++ (FilePath <$> done_tasks s).

Definition raw_ok (W : World) (h : Heap) (task : ImageTask) : Prop :=
  exists o, load_file W (FilePath task) = Decodes o /\ h !! Img task = Some o.

Definition done_ok (W : World) (h : Heap) (task : ImageTask) : Prop :=
  exists o, load_file W (FilePath task) = Decodes o /\
            h !! Img task = Some (ObjRGBA (transformed o)).

(** [processed] lists the paths that have reached their outcome, in the
    order in which they did. *)
Record DInv (W : World) (filePaths : list string) (numWorkers : Z) (p0 : Proc)
    (processed : list string) (s : PState) : Prop := mkDInv {
  d_perm : filePaths ≡ₚ processed ++ in_flight filePaths s;
  d_log : log (proc s) = log p0 ++ (processed ≫= log_of W "output_parallel" true);
  d_files : files (proc s) = foldl (files_after W "output_parallel") (files p0) processed;
  d_stdout :
    stdout (proc s) =
      stdout p0 ++ [LineParHeader numWorkers] ++
      match pc s with MDone => [LineParTime (elapsed_par W)] | _ => [] end;
  d_raw : Forall (raw_ok W (heap (proc s))) (raw_tasks s);
  d_done : Forall (done_ok W (heap (proc s))) (done_tasks s);
  d_crashed : forall e, crashed s = Some e -> e = MakeChanSize /\ numWorkers < 0
}.

Lemma raw_ok_weaken W (h h' : Heap) task : h ⊆ h' -> raw_ok W h task -> raw_ok W h' task.
Proof. intros Hsub (o & ? & ?). exists o. eauto using lookup_weaken. Qed.

Lemma done_ok_weaken W (h h' : Heap) task : h ⊆ h' -> done_ok W h task -> done_ok W h' task.
Proof. intros Hsub (o & ? & ?). exists o. eauto using lookup_weaken. Qed.

Lemma work_hold_insert (ws : list WorkPC) i w w' :
  ws !! i = Some w ->
  exists rest,
    ws ≫= work_hold ≡ₚ work_hold w ++ rest /\
    <[i := w']> ws ≫= work_hold ≡ₚ work_hold w' ++ rest.
Proof.
  intros Hi. exists ((take i ws ++ drop (S i) ws) ≫= work_hold).
  assert (i < length ws)%nat by eauto using lookup_lt_Some.
  split.
  - rewrite <- (take_drop_middle ws i w Hi) at 1. rewrite !bind_app, bind_cons.
    solve_Permutation.
  - rewrite insert_take_drop by done. rewrite !bind_app, bind_cons.
    solve_Permutation.
Qed.

Lemma DInv_init W filePaths numWorkers p0 :
  DInv W filePaths numWorkers p0 [] (runParallelPipeline_init filePaths numWorkers p0).
Proof.
  split; simpl; try done.
  - unfold in_flight. simpl. by rewrite app_nil_r.
  - by rewrite app_nil_r.
  - intros e. destruct (numWorkers <? 0) eqn:E; intros [= <-].
    apply Z.ltb_lt in E. done.
Qed.

Section Accounting.
Variable W : World.
Variable filePaths : list string.
Variable numWorkers : Z.
Variable p0 : Proc.
Hypothesis Hwf : wf_world W.

Ltac dinv_start s Hs :=
intros HI' [Hperm Hlog Hfiles Hout Hraw Hdone Hcr] Hs;
destruct s as [pc0 lp ws sp [fb fcap fcl] [tb tcap tcl] [rb rcap rcl] wl wp wsv p cr];
unfold in_flight, raw_tasks, done_tasks in *; simpl in *.

(** A protocol panic contradicts the structural invariant of the new state. *)
Ltac no_protocol_panic HI' :=
exfalso; pose proof (inv_crashed _ _ _ HI' _ eq_refl) as Hpp; simpl in Hpp; discriminate.

Ltac perm_solve Hperm :=
etrans; [exact Hperm|]; rewrite ?fmap_app; simpl; solve_Permutation.

Ltac outcome_rewrite :=
unfold outputPath_of in *;
repeat match goal with
  | H : load_file _ _ = _ |- _ => rewrite H
  | H : os_Create _ _ = _ |- _ => rewrite H
  | H : jpeg_stream _ _ = _ |- _ => rewrite H
  | H : write_err _ _ = _ |- _ => rewrite H
  end.

Ltac log_solve Hlog :=
rewrite Hlog, bind_app; unfold log_of, outcome_of; csimpl; outcome_rewrite;
rewrite ?app_nil_r, ?app_assoc; done.

Ltac files_solve Hfiles :=
rewrite foldl_app; simpl; unfold files_after at 1, outcome_of; outcome_rewrite;
rewrite ?insert_insert_eq, ?Hfiles; done.

Ltac dinv_split :=
split; unfold in_flight, raw_tasks, done_tasks; simpl in *.

Lemma DInv_load pr s s' :
Inv filePaths numWorkers s' ->
DInv W filePaths numWorkers p0 pr s -> loadWorker_step W s = Some s' ->
exists pr', DInv W filePaths numWorkers p0 pr' s'.
Proof.
dinv_start s Hs. unfold loadWorker_step in Hs; simpl in Hs.
destruct lp as [| |task|]; simpl in *; try done; step_cases Hs.
- destruct (load_file W v) as [err|err|o] eqn:Hload; simpl in *; simplify_eq.
  + exists (pr ++ [v]). dinv_split; try done.
    * perm_solve Hperm.
    * log_solve Hlog.
    * files_solve Hfiles.
  + exists (pr ++ [v]). dinv_split; try done.
    * perm_solve Hperm.
    * log_solve Hlog.
    * files_solve Hfiles.
  + exists pr. dinv_split; try done.
    * perm_solve Hperm.
    * constructor.
      -- exists o. split; [done|]. simpl. apply lookup_insert_eq.
      -- eapply Forall_impl; [exact Hraw|]. intros t.
         apply raw_ok_weaken, insert_fresh_subseteq.
    * eapply Forall_impl; [exact Hdone|]. intros t.
      apply done_ok_weaken, insert_fresh_subseteq.
- simplify_eq.
- simplify_eq. exists pr. by dinv_split.
- simplify_eq. no_protocol_panic HI'.
- simplify_eq. exists pr. dinv_split; try done.
  + perm_solve Hperm.
  + apply Forall_app. apply Forall_cons in Hraw as [? ?]. split; [done|]. by constructor.
- simplify_eq.
- simplify_eq. no_protocol_panic HI'.
Qed.

Lemma DInv_save pr s s' :
Inv filePaths numWorkers s' ->
DInv W filePaths numWorkers p0 pr s -> saveWorker_step W s = Some s' ->
exists pr', DInv W filePaths numWorkers p0 pr' s'.
Proof.
dinv_start s Hs. unfold saveWorker_step in Hs; simpl in Hs.
destruct sp; simpl in *; try done; step_cases Hs; simpl in *.
- simplify_eq.
  apply Forall_app in Hdone as [Hdone1 Hdone2].
  apply Forall_cons in Hdone2 as [(o & Hload & Hlook) Hdone2].
  assert (Hperm' : filePaths ≡ₚ (pr ++ [FilePath v]) ++
            to_send filePaths pc0 ++ fb ++ (FilePath <$> load_hold lp ++ tb) ++
            (FilePath <$> (ws ≫= work_hold) ++ buf c)) by perm_solve Hperm.
  assert (Hdone' : Forall (done_ok W (heap p)) ((ws ≫= work_hold) ++ buf c))
    by (by apply Forall_app).
  destruct (os_Create W _) as [err|] eqn:Hcreate; simplify_eq.
  + exists (pr ++ [FilePath v]). dinv_split; try done.
    * log_solve Hlog.
    * files_solve Hfiles.
  + unfold jpeg_Encode, create_file in Hs. simpl in Hs. rewrite Hlook in Hs.
    destruct (jpeg_stream W _) as [bytes|err] eqn:Hstream; simpl in Hs.
    * destruct (write_err W _) as [err|] eqn:Hwrite; simplify_eq.
      -- exists (pr ++ [FilePath v]). dinv_split; try done.
         ++ log_solve Hlog.
         ++ files_solve Hfiles.
      -- exists (pr ++ [FilePath v]). dinv_split; try done.
         ++ log_solve Hlog.
         ++ files_solve Hfiles.
    * simplify_eq. exists (pr ++ [FilePath v]). dinv_split; try done.
      -- log_solve Hlog.
      -- files_solve Hfiles.
- simplify_eq.
- simplify_eq. exists pr. by dinv_split.
- simplify_eq. no_protocol_panic HI'.
Qed.

Lemma DInv_process i pr s s' :
Inv filePaths numWorkers s' ->
DInv W filePaths numWorkers p0 pr s -> processWorker_step i s = Some s' ->
exists pr', DInv W filePaths numWorkers p0 pr' s'.
Proof.
dinv_start s Hs. unfold processWorker_step in Hs; simpl in Hs.
destruct (ws !! i) as [w|] eqn:Hi; [|done].
destruct w as [|task|]; [| |done]; simpl in *; step_cases Hs; simpl in *; simplify_eq.
- (* a task is received and transformed *)
  apply Forall_app in Hraw as [Hraw1 Hraw2].
  apply Forall_cons in Hraw2 as [(o & Hload & Hlook) Hraw2].
  destruct (transform_spec (heap p) (Img v) o Hlook)
    as (g & sp' & h' & Hrun & _ & _ & _ & Hsub & Hlook'); [by eapply Hwf|].
  rewrite Hrun in Hs. simplify_eq.
  destruct (work_hold_insert ws i WRecv (WSend (mkTask (FilePath v) sp')) Hi)
    as (rest' & P1 & P2). simpl in P1, P2.
  exists pr. dinv_split; try done.
  + etrans; [exact Hperm|]. rewrite P1, P2, ?fmap_app. simpl. solve_Permutation.
  + apply Forall_app. split; eapply Forall_impl; eauto using raw_ok_weaken.
  + apply Forall_app in Hdone as [Hd1 Hd2]. rewrite P1 in Hd1.
    apply Forall_app. split.
    * rewrite P2. constructor; [by exists o|].
      eapply Forall_impl; eauto using done_ok_weaken.
    * eapply Forall_impl; eauto using done_ok_weaken.
- (* the tasks channel is closed and drained *)
  destruct (work_hold_insert ws i WRecv WDone Hi) as (rest' & P1 & P2). simpl in P1, P2.
  exists pr. dinv_split; try done.
  + etrans; [exact Hperm|]. rewrite P1, P2. done.
  + by rewrite P2, <- P1.
- no_protocol_panic HI'.
- (* a result is sent *)
  destruct (work_hold_insert ws i (WSend task) WRecv Hi) as (rest' & P1 & P2).
  simpl in P1, P2.
  exists pr. dinv_split; try done.
  + etrans; [exact Hperm|]. rewrite P1, P2, ?fmap_app. simpl. solve_Permutation.
  + apply Forall_app in Hdone as [Hd1 Hd2]. rewrite P1 in Hd1.
    apply Forall_cons in Hd1 as [Ht Hd1].
    rewrite P2. apply Forall_app. split; [done|]. apply Forall_app. split; [done|].
    by constructor.
- no_protocol_panic HI'.
Qed.

Lemma DInv_main pr s s' :
Inv filePaths numWorkers s ->
Inv filePaths numWorkers s' ->
DInv W filePaths numWorkers p0 pr s ->
runParallelPipeline_step W filePaths numWorkers s = Some s' ->
exists pr', DInv W filePaths numWorkers p0 pr' s'.
Proof.
intros HI HI' [Hperm Hlog Hfiles Hout Hraw Hdone Hcr] Hs.
pose proof (inv_load _ _ _ HI) as Hload. clear HI.
destruct s as [pc0 lp ws sp [fb fcap fcl] [tb tcap tcl] [rb rcap rcl] wl wp wsv p cr];
  unfold in_flight, raw_tasks, done_tasks in *; simpl in *.
unfold runParallelPipeline_step in Hs; simpl in Hs.
destruct pc0 as [| | |[|path rest]| | | | | | |]; simpl in *;
  step_cases Hs; simpl in *; simplify_eq;
  try (no_protocol_panic HI');
  exists pr; dinv_split; try done;
  try (rewrite ?bind_app; csimpl; rewrite ?app_nil_r; done);
  try perm_solve Hperm.
- destruct lp; simpl in *; try lia. perm_solve Hperm.
- destruct lp; simpl in *; try lia. done.
- rewrite Hout. by rewrite <- !app_assoc.
Qed.


(** Every step keeps the accounting. *)
Lemma DInv_step pr s s' :
Inv filePaths numWorkers s ->
DInv W filePaths numWorkers p0 pr s ->
step W filePaths numWorkers s s' ->
exists pr', DInv W filePaths numWorkers p0 pr' s'.
Proof.
intros HI HD Hstep. pose proof (Inv_step W _ _ _ _ HI Hstep) as HI'.
destruct Hstep as [t Ht]. unfold step_of in Ht.
destruct (crashed s); [done|].
destruct t; destruct (pc s) eqn:Hpc; try done; rewrite <- ?Hpc in Ht;
  eauto using DInv_main, DInv_load, DInv_process, DInv_save.
Qed.

Lemma reachable_invs s :
rtc (step W filePaths numWorkers) (runParallelPipeline_init filePaths numWorkers p0) s ->
Inv filePaths numWorkers s /\ exists pr, DInv W filePaths numWorkers p0 pr s.
Proof.
intros Hr.
apply (rtc_ind_r (fun s => Inv filePaths numWorkers s /\
                           exists pr, DInv W filePaths numWorkers p0 pr s)) in Hr.
- done.
- split; [apply Inv_init|]. exists []. apply DInv_init.
- intros s1 s2 _ Hstep [HI [pr HD]]. split; [by eapply Inv_step|].
  by eapply DInv_step.
Qed.

(** With a non-negative worker count and readable images, no goroutine
  ever panics. *)
Lemma reachable_no_panic s :
0 <= numWorkers ->
rtc (step W filePaths numWorkers) (runParallelPipeline_init filePaths numWorkers p0) s ->
crashed s = None.
Proof.
intros HN Hr. destruct (reachable_invs s Hr) as [_ [pr HD]].
destruct (crashed s) as [e|] eqn:E; [|done].
destruct (d_crashed _ _ _ _ _ _ HD e E). lia.
Qed.
End Accounting.

(** When the orchestrator has returned, nothing is left in the pipeline. *)
Lemma in_flight_done filePaths numWorkers s :
  Inv filePaths numWorkers s -> 1 <= numWorkers -> pc s = MDone ->
  in_flight filePaths s = [].
Proof.
  intros HI HN Hpc.
  pose proof (inv_load _ _ _ HI) as Hl.
  pose proof (inv_save _ _ _ HI) as Hs.
  pose proof (inv_joined _ _ _ HI) as Hj.
  pose proof (inv_workers_len _ _ _ HI) as Hwl.
  pose proof (inv_workers_done _ _ _ HI) as Hwd.
  pose proof (inv_wgProcess _ _ _ HI) as Hwg.
  unfold in_flight, raw_tasks, done_tasks. rewrite Hpc in *. simpl in *.
  destruct (loadpc s); [lia | lia | lia |]. destruct Hl as (_ & _ & ->).
  destruct (savepc s); [lia | lia |]. destruct Hs as (_ & _ & ->).
  rewrite Hj in Hwg by lia. symmetry in Hwg. apply count_live_zero in Hwg.
  assert (Hhold : workers s ≫= work_hold = []).
  { clear -Hwg. induction Hwg as [|w ws -> _ IH]; [done|]. by csimpl. }
  rewrite Hhold.
  destruct (workers s) as [|w ws] eqn:Hws; [simpl in Hwl; lia|].
  apply Forall_cons in Hwg as [-> _].
  destruct Hwd as [_ ->]; [left|]. done.
Qed.

(** * The claims *)

(** ** A small world for the worked examples *)

(** A 2 x 1 image of some non-RGBA type. *)
Definition demo_img (k : Z) : ImageObj :=
  ObjOther (mkRect (mkPoint 0 0) (mkPoint 2 1))
           (fun x y => ColorOther (x * 30000 + k) 20000 (k * 200) 65535).

Definition demo_heap : Heap := {[ 1%positive := demo_img 100 ]}.

Definition demo_gray : RGBAImage :=
  mkRGBAImage [54; 54; 54; 255; 89; 89; 89; 255] 8 (mkRect (mkPoint 0 0) (mkPoint 2 1)).

Lemma demo_img_readable k : readable (demo_img k).
Proof.
  split.
  - unfold wf_rect, Dx, Dy, maxInt. simpl. lia.
  - intros x y _. simpl. eauto.
Qed.

Lemma demo_toGrayscale :
  toGrayscale 1%positive demo_heap
  = Some (2%positive, <[2%positive := ObjRGBA demo_gray]> demo_heap).
Proof.
  change (toGrayscale 1%positive) with (mapPixels grayPixel 1%positive).
  rewrite (mapPixels_spec grayPixel demo_heap 1%positive (demo_img 100));
    [| done | apply demo_img_readable].
  replace (fresh (dom demo_heap)) with 2%positive by (vm_compute; reflexivity).
  replace (mapImage grayPixel (at_total (demo_img 100)) (obj_Bounds (demo_img 100)))
    with demo_gray by (vm_compute; reflexivity).
  done.
Qed.

(** C10: for every image the grayscale transform returns, every pixel inside
    the bounds of the result has equal red, green and blue channels, and the
    pixel is computed from the input pixel at the same place only (it is
    [grayPixel] of that colour). *)
Theorem toGrayscale_achromatic (h : Heap) img grayImg h' :
  toGrayscale img h = Some (grayImg, h') ->
  exists o,
    h !! img = Some o /\
    Bounds grayImg h' = Some (obj_Bounds o, h') /\
    forall x y, Point_In (mkPoint x y) (obj_Bounds o) = true ->
      exists c gray,
        At img x y h = Some (c, h) /\
        At grayImg x y h' = Some (ColorRGBA (grayPixel c), h') /\
        R (grayPixel c) = gray /\ G (grayPixel c) = gray /\ B (grayPixel c) = gray.
Proof.
  intros Hrun. change (mapPixels grayPixel img h = Some (grayImg, h')) in Hrun.
  destruct (mapPixels_Some_inv _ _ _ _ _ Hrun) as (o & Himg & Hread).
  rewrite (mapPixels_spec grayPixel h img o Himg Hread) in Hrun.
  injection Hrun as <- <-. exists o. split; [done|]. split.
  - unfold Bounds. by rewrite lookup_insert_eq.
  - intros x y Hin. exists (at_total o x y), (R (grayPixel (at_total o x y))).
    split; [|split; [|split; [done|]]].
    + unfold At. by rewrite Himg, (obj_At_readable o x y).
    + unfold At. rewrite lookup_insert_eq. simpl.
      rewrite RGBA_At_mapImage; [done | apply Hread | done].
    + unfold grayPixel. by destruct (Color_RGBA (at_total o x y)) as [[[r g] b] a].
Qed.

Lemma toGrayscale_achromatic_witness :
  toGrayscale 1%positive demo_heap
    = Some (2%positive, <[2%positive := ObjRGBA demo_gray]> demo_heap) /\
  exists o,
    demo_heap !! 1%positive = Some o /\
    Bounds 2%positive (<[2%positive := ObjRGBA demo_gray]> demo_heap)
      = Some (obj_Bounds o, <[2%positive := ObjRGBA demo_gray]> demo_heap) /\
    forall x y, Point_In (mkPoint x y) (obj_Bounds o) = true ->
      exists c gray,
        At 1%positive x y demo_heap = Some (c, demo_heap) /\
        At 2%positive x y (<[2%positive := ObjRGBA demo_gray]> demo_heap)
          = Some (ColorRGBA (grayPixel c), <[2%positive := ObjRGBA demo_gray]> demo_heap) /\
        R (grayPixel c) = gray /\ G (grayPixel c) = gray /\ B (grayPixel c) = gray.
Proof.
  split; [exact demo_toGrayscale | exact (toGrayscale_achromatic _ _ _ _ demo_toGrayscale)].
Defined.

(** A state in which the first transform worker is about to receive the
    task of [demo_img 100]. *)
Definition demo_worker_state : PState :=
  {| pc := MWaitLoad; loadpc := LDone; workers := [WRecv]; savepc := SRecv;
     filesChan := mkChan [] 1 true;
     tasksChan := mkChan [mkTask "input_images/a.jpg" 1%positive] 1 false;
     resultsChan := mkChan [] 1 false;
     wgLoad := 0; wgProcess := 1; wgSave := 1;
     proc := mkProc demo_heap ∅ [] [];
     crashed := None |}.

(** C4: for every work item a transform worker receives, the worker applies
    grayscale first and then sepia; each of the two returns a newly allocated
    image (an address not in use before), nothing that existed before is
    written (the input buffer and, during sepia, the gray buffer are
    unchanged), and the result depends on the input image only: it is
    [transformed o], whose pixel at (x, y) is [sepiaPixel] of [grayPixel] of
    the input pixel at (x, y). *)
Theorem processWorker_gray_then_sepia (i : nat) (s : PState) task rest o :
  workers s !! i = Some WRecv ->
  buf (tasksChan s) = task :: rest ->
  heap (proc s) !! Img task = Some o ->
  readable o ->
  exists grayImg hg sepiaImg s',
    processWorker_step i s = Some s' /\
    toGrayscale (Img task) (heap (proc s)) = Some (grayImg, hg) /\
    toSepia grayImg hg = Some (sepiaImg, heap (proc s')) /\
    workers s' !! i = Some (WSend (mkTask (FilePath task) sepiaImg)) /\
    (grayImg ∉ dom (heap (proc s))) /\ (sepiaImg ∉ dom hg) /\
    (forall l, l ∈ dom (heap (proc s)) -> hg !! l = heap (proc s) !! l) /\
    (forall l, l ∈ dom hg -> heap (proc s') !! l = hg !! l) /\
    heap (proc s') !! sepiaImg = Some (ObjRGBA (transformed o)) /\
    forall x y, Point_In (mkPoint x y) (obj_Bounds o) = true ->
      At sepiaImg x y (heap (proc s'))
      = Some (ColorRGBA (sepiaPixel (ColorRGBA (grayPixel (at_total o x y)))),
              heap (proc s')).
Proof.
  intros Hw Hbuf Himg Hread.
  set (h := heap (proc s)) in *.
  set (g := mapImage grayPixel (at_total o) (obj_Bounds o)).
  set (l1 := fresh (dom h)). set (hg := <[l1 := ObjRGBA g]> h).
  set (l2 := fresh (dom hg)). set (h2 := <[l2 := ObjRGBA (transformed o)]> hg).
  assert (Hrect : wf_rect (obj_Bounds o)) by apply Hread.
  assert (Hg : toGrayscale (Img task) h = Some (l1, hg)) by (by apply mapPixels_spec).
  assert (Hs : toSepia l1 hg = Some (l2, h2)).
  { change (toSepia l1) with (mapPixels sepiaPixel l1).
    rewrite (mapPixels_spec sepiaPixel hg l1 (ObjRGBA g)); [done | apply lookup_insert_eq |].
    by apply wf_readable, mapImage_wf. }
  exists l1, hg, l2,
    (set_workers (<[i := WSend (mkTask (FilePath task) l2)]> (workers s))
       (set_proc (set_heap h2 (proc s))
          (set_tasksChan (mkChan rest (cap (tasksChan s)) (closed (tasksChan s))) s))).
  split; [|split; [done|split; [done|split; [|split; [|split; [|split; [|split; [|split]]]]]]]].
  - unfold processWorker_step, chan_recv. rewrite Hw, Hbuf. simpl. fold h.
    unfold bind. by rewrite Hg, Hs.
  - simpl. apply list_lookup_insert_eq. by eapply lookup_lt_Some.
  - apply is_fresh.
  - apply is_fresh.
  - intros l Hl. unfold hg. apply lookup_insert_ne. intros <-. by apply (is_fresh (dom h)).
  - intros l Hl. simpl. unfold h2. apply lookup_insert_ne. intros <-.
    by apply (is_fresh (dom hg)).
  - simpl. apply lookup_insert_eq.
  - intros x y Hin. simpl. unfold At, h2. rewrite lookup_insert_eq. simpl.
    unfold transformed. rewrite RGBA_At_mapImage by done.
    by rewrite at_total_mapImage.
Qed.

Lemma processWorker_gray_then_sepia_witness :
  workers demo_worker_state !! 0%nat = Some WRecv /\
  buf (tasksChan demo_worker_state) = [mkTask "input_images/a.jpg" 1%positive] /\
  heap (proc demo_worker_state) !! 1%positive = Some (demo_img 100) /\
  readable (demo_img 100) /\
  exists sepiaImg s',
    processWorker_step 0 demo_worker_state = Some s' /\
    heap (proc s') !! sepiaImg = Some (ObjRGBA (transformed (demo_img 100))).
Proof.
  split; [reflexivity|]. split; [reflexivity|]. split; [reflexivity|].
  split; [apply demo_img_readable|].
  destruct (processWorker_gray_then_sepia 0 demo_worker_state
              (mkTask "input_images/a.jpg" 1%positive) [] (demo_img 100)
              eq_refl eq_refl eq_refl (demo_img_readable 100))
    as (g & hg & sp & s' & Hstep & _ & _ & _ & _ & _ & _ & _ & Hres & _).
  exists sp, s'. split; [exact Hstep | exact Hres].
Defined.

(** The last element of a slash-separated path. *)
Fixpoint base_go (s acc : string) : string :=
  match s with
  | EmptyString => acc
  | String c r =>
      if Ascii.eqb c (Ascii.ascii_of_nat 47) then base_go r EmptyString
      else base_go r (acc +:+ String c EmptyString)
  end.

Definition demo_paths : list string :=
  ["input_images/a.jpg"; "input_images/b.jpg"; "input_images/c.jpg"].

(** Three files: the first and the third decode, the second does not; every
    output file can be created and written.  The stand-in for the JPEG
    stream of an RGBA image is its pixel buffer. *)
Definition demo_world : World :=
  {| numCPU := 2;
     filepath_Glob := fun _ => inl demo_paths;
     filepath_Join := fun d f => d +:+ "/" +:+ f;
     filepath_Base := fun p => base_go p EmptyString;
     load_file := fun p =>
       if String.eqb p "input_images/a.jpg" then Decodes (demo_img 100)
       else if String.eqb p "input_images/c.jpg" then Decodes (demo_img 7)
       else DecodeFails "invalid JPEG format";
     os_Create := fun _ => None;
     jpeg_stream := fun o =>
       match o with
       | ObjRGBA p => inl (Pix p)
       | ObjOther _ _ => inr "unsupported image type"
       end;
     write_err := fun _ => None;
     elapsed_seq := 10;
     elapsed_par := 5 |}.

Definition demo_proc : Proc := mkProc ∅ ∅ [] [].

(** Every goroutine in turn, often enough for the run to finish. *)
Definition demo_schedule : list Tid :=
  concat (replicate 40 [TMain; TLoad; TProcess 0; TProcess 1; TSave]).

Definition demo_final : PState :=
  run_schedule demo_world demo_paths 2 demo_schedule
    (runParallelPipeline_init demo_paths 2 demo_proc).

Lemma demo_world_wf : wf_world demo_world.
Proof.
  intros path o. simpl.
  destruct (String.eqb path _); [intros [= <-]; apply demo_img_readable|].
  destruct (String.eqb path _); [intros [= <-]; apply demo_img_readable|done].
Qed.

(** A schedule is an execution. *)
Lemma run_schedule_rtc W filePaths numWorkers sched s :
  rtc (step W filePaths numWorkers) s (run_schedule W filePaths numWorkers sched s).
Proof.
  revert s. induction sched as [|t sched IH]; intros s; simpl; [done|].
  destruct (step_of W filePaths numWorkers t s) as [s'|] eqn:Hs; [|done].
  eapply rtc_l; [by exists t | done].
Qed.

(** From every reachable state the run can be brought to its end. *)
Lemma can_finish W filePaths numWorkers p s :
  1 <= numWorkers -> wf_world W ->
  rtc (step W filePaths numWorkers) (runParallelPipeline_init filePaths numWorkers p) s ->
  exists s', rtc (step W filePaths numWorkers) s s' /\ pc s' = MDone /\ crashed s' = None.
Proof.
  intros HN Hwf Hr. induction (step_sn W filePaths numWorkers s) as [s _ IH].
  assert (Hc : crashed s = None) by (eapply reachable_no_panic; eauto; lia).
  assert (pc s = MDone \/ pc s <> MDone) as [Hd|Hd]
    by (destruct (pc s); (by left) || (by right)).
  { by exists s. }
  destruct (progress W filePaths numWorkers s) as [s1 Hs1]; try done.
  { by eapply Inv_reachable. }
  destruct (IH s1 Hs1) as (s' & Hs' & ?); [by eapply rtc_r|].
  exists s'. split; [by eapply rtc_l|done].
Qed.

(** C9: the three queues are made with capacities that never change: that
    of the paths queue is the number of paths, those of the two intermediate
    queues the number of transform workers; and no queue ever holds more
    than its capacity. *)
Theorem queue_capacities_fixed W filePaths numWorkers p s :
  rtc (step W filePaths numWorkers) (runParallelPipeline_init filePaths numWorkers p) s ->
  cap (filesChan (runParallelPipeline_init filePaths numWorkers p))
    = Z.of_nat (length filePaths) /\
  cap (tasksChan (runParallelPipeline_init filePaths numWorkers p)) = numWorkers /\
  cap (resultsChan (runParallelPipeline_init filePaths numWorkers p)) = numWorkers /\
  cap (filesChan s) = Z.of_nat (length filePaths) /\
  cap (tasksChan s) = numWorkers /\
  cap (resultsChan s) = numWorkers /\
  Z.of_nat (length (buf (filesChan s))) <= Z.of_nat (length filePaths) /\
  Z.of_nat (length (buf (tasksChan s))) <= Z.max 0 numWorkers /\
  Z.of_nat (length (buf (resultsChan s))) <= Z.max 0 numWorkers.
Proof.
  intros Hr. apply Inv_reachable in Hr. destruct Hr.
  repeat split; try done. lia.
Qed.

Lemma queue_capacities_fixed_witness :
  rtc (step demo_world demo_paths 2) (runParallelPipeline_init demo_paths 2 demo_proc)
      demo_final /\
  cap (filesChan demo_final) = 3 /\
  cap (tasksChan demo_final) = 2 /\
  cap (resultsChan demo_final) = 2.
Proof.
  split; [apply run_schedule_rtc|].
  destruct (queue_capacities_fixed demo_world demo_paths 2 demo_proc demo_final
              (run_schedule_rtc _ _ _ _ _)) as (_ & _ & _ & H1 & H2 & H3 & _).
  exact (conj H1 (conj H2 H3)).
Defined.

(** C1: the shutdown of the parallel pipeline follows the drain order.  In
    every state an execution can reach: the paths queue is closed only when
    no path is left to send; the transform queue is closed only when the load
    stage has finished; the save queue is closed only when all the transform
    workers, as many as were asked for, have left their loop; and
    [runParallelPipeline] returns only when the save stage has finished.  No
    goroutine panics, so no send on a closed queue occurs.  The run
    terminates: no execution is infinite, a state in which the orchestrator
    has not returned always has a goroutine that can move, and so every
    execution can be continued to the return of [runParallelPipeline]. *)
Theorem shutdown_order_and_termination W filePaths numWorkers p :
  1 <= numWorkers -> wf_world W ->
  (forall s,
     rtc (step W filePaths numWorkers) (runParallelPipeline_init filePaths numWorkers p) s ->
     (closed (filesChan s) = true -> to_send filePaths (pc s) = []) /\
     (closed (tasksChan s) = true -> loadpc s = LDone) /\
     (closed (resultsChan s) = true ->
        Z.of_nat (length (workers s)) = numWorkers /\
        Forall (fun w => w = WDone) (workers s)) /\
     (pc s = MDone -> savepc s = SDone) /\
     crashed s = None /\
     (pc s <> MDone -> exists s', step W filePaths numWorkers s s') /\
     (exists s', rtc (step W filePaths numWorkers) s s' /\ pc s' = MDone /\ crashed s' = None)) /\
  sn (step W filePaths numWorkers) (runParallelPipeline_init filePaths numWorkers p).
Proof.
  intros HN Hwf. split; [|apply step_sn].
  intros s Hr. pose proof (Inv_reachable W _ _ _ _ Hr) as HI.
  assert (Hc : crashed s = None) by (eapply reachable_no_panic; eauto; lia).
  pose proof (inv_closed_files _ _ _ HI) as Hcf.
  pose proof (inv_closed_tasks _ _ _ HI) as Hct.
  pose proof (inv_closed_results _ _ _ HI) as Hcr.
  split; [|split; [|split; [|split; [|split; [done|split]]]]].
  - intros E. rewrite E in Hcf. by destruct (pc s).
  - intros E. rewrite E in Hct. pose proof (inv_load _ _ _ HI) as Hl.
    destruct (loadpc s); [lia | lia | lia | done].
  - intros E. rewrite E in Hcr.
    pose proof (inv_workers_len _ _ _ HI) as Hwl.
    pose proof (inv_joined _ _ _ HI) as Hj.
    pose proof (inv_wgProcess _ _ _ HI) as Hwg.
    split.
    + destruct (pc s); simpl in *; lia.
    + apply count_live_zero. rewrite <- Hwg. apply Hj. lia.
  - apply (inv_main_done _ _ _ HI).
  - intros Hd. by apply (progress W).
  - by eapply can_finish.
Qed.

Lemma shutdown_order_and_termination_witness :
  1 <= 2 /\ wf_world demo_world /\
  pc demo_final = MDone /\ savepc demo_final = SDone /\ crashed demo_final = None /\
  sn (step demo_world demo_paths 2) (runParallelPipeline_init demo_paths 2 demo_proc).
Proof.
  split; [lia|]. split; [apply demo_world_wf|].
  destruct (shutdown_order_and_termination demo_world demo_paths 2 demo_proc
              ltac:(lia) demo_world_wf) as [Hall Hsn].
  destruct (Hall demo_final (run_schedule_rtc _ _ _ _ _)) as (_ & _ & _ & Hd & Hc & _).
  assert (Hpc : pc demo_final = MDone) by (vm_compute; reflexivity).
  exact (conj Hpc (conj (Hd Hpc) (conj Hc Hsn))).
Defined.

(** ** The state in which [runParallelPipeline] returns *)

Lemma final_state_spec W filePaths numWorkers p s :
  1 <= numWorkers -> wf_world W ->
  rtc (step W filePaths numWorkers) (runParallelPipeline_init filePaths numWorkers p) s ->
  pc s = MDone ->
  exists pr,
    pr ≡ₚ filePaths /\
    log (proc s) = log p ++ (pr ≫= log_of W "output_parallel" true) /\
    files (proc s) = foldl (files_after W "output_parallel") (files p) pr /\
    stdout (proc s) = stdout p ++ [LineParHeader numWorkers; LineParTime (elapsed_par W)] /\
    crashed s = None.
Proof.
  intros HN Hwf Hr Hpc.
  destruct (reachable_invs W filePaths numWorkers p Hwf s Hr) as [HI [pr HD]].
  exists pr. destruct HD as [Hperm Hlog Hfiles Hout _ _ _].
  rewrite (in_flight_done _ _ _ HI HN Hpc), app_nil_r in Hperm.
  rewrite Hpc in Hout. repeat split; try done.
  eapply reachable_no_panic; eauto. lia.
Qed.

(** A path whose output path is not among those of [paths] keeps its file. *)
Lemma foldl_files_other W dir fs paths key :
  key ∉ (outputPath_of W dir <$> paths) ->
  foldl (files_after W dir) fs paths !! key = fs !! key.
Proof.
  revert fs. induction paths as [|q paths IH]; intros fs Hkey; [done|].
  simpl. rewrite IH by (intros Hin; apply Hkey; by right).
  assert (key ≠ outputPath_of W dir q) by (intros ->; apply Hkey; by left).
  unfold files_after. destruct (outcome_of W dir q); try done; by rewrite lookup_insert_ne.
Qed.

(** With distinct output paths, the file of a written path holds its stream
    once all the paths are handled, in whatever order. *)
Lemma foldl_files_written W dir fs paths path bytes :
  path ∈ paths ->
  NoDup (outputPath_of W dir <$> paths) ->
  outcome_of W dir path = OutWritten bytes ->
  foldl (files_after W dir) fs paths !! outputPath_of W dir path = Some (Complete bytes).
Proof.
  revert fs. induction paths as [|q paths IH]; intros fs Hin Hnd Hout.
  - by apply elem_of_nil in Hin.
  - rewrite fmap_cons in Hnd. apply NoDup_cons in Hnd as [Hq Hnd].
    apply elem_of_cons in Hin as [->|Hin]; simpl.
    + rewrite foldl_files_other by done. unfold files_after. rewrite Hout.
      apply lookup_insert_eq.
    + by apply IH.
Qed.

Lemma outcome_written W dir path o bytes :
  load_file W path = Decodes o ->
  os_Create W (outputPath_of W dir path) = None ->
  jpeg_stream W (ObjRGBA (transformed o)) = inl bytes ->
  write_err W (outputPath_of W dir path) = None ->
  outcome_of W dir path = OutWritten bytes.
Proof. intros H1 H2 H3 H4. unfold outcome_of. by rewrite H1, H2, H3, H4. Qed.

(** C2: for every input file that decodes, the sequential runner and the
    parallel runner write the same bytes to the output file of that input,
    for every number of transform workers (one included) and every
    interleaving: both files hold the JPEG stream of [transformed o].  The
    output files of the run are taken to be creatable and writable for that
    input, and distinct inputs to have distinct output paths (in [main] the
    inputs are the files of one directory). *)
Theorem runners_write_identical_bytes W filePaths numWorkers pa pb path o bytes s :
  1 <= numWorkers -> wf_world W ->
  path ∈ filePaths ->
  load_file W path = Decodes o ->
  jpeg_stream W (ObjRGBA (transformed o)) = inl bytes ->
  os_Create W (outputPath_of W "output_sequential" path) = None ->
  write_err W (outputPath_of W "output_sequential" path) = None ->
  os_Create W (outputPath_of W "output_parallel" path) = None ->
  write_err W (outputPath_of W "output_parallel" path) = None ->
  NoDup (outputPath_of W "output_sequential" <$> filePaths) ->
  NoDup (outputPath_of W "output_parallel" <$> filePaths) ->
  rtc (step W filePaths numWorkers) (runParallelPipeline_init filePaths numWorkers pb) s ->
  pc s = MDone ->
  exists pa',
    runSequential W filePaths pa = Some pa' /\
    files pa' !! outputPath_of W "output_sequential" path = Some (Complete bytes) /\
    files (proc s) !! outputPath_of W "output_parallel" path = Some (Complete bytes).
Proof.
  intros HN Hwf Hin Hload Hstream Hc1 Hw1 Hc2 Hw2 Hnd1 Hnd2 Hr Hpc.
  destruct (runSequential_spec W filePaths pa Hwf) as (h & Hseq).
  eexists. split; [exact Hseq|]. simpl. split.
  - apply foldl_files_written; [done | done |]. by eapply outcome_written.
  - destruct (final_state_spec W filePaths numWorkers pb s HN Hwf Hr Hpc)
      as (pr & Hperm & _ & Hfiles & _).
    rewrite Hfiles. apply foldl_files_written.
    + by rewrite Hperm.
    + by rewrite Hperm.
    + by eapply outcome_written.
Qed.

(** The run of [demo_world] with a single transform worker. *)
Definition demo_final_one : PState :=
  run_schedule demo_world demo_paths 1 demo_schedule
    (runParallelPipeline_init demo_paths 1 demo_proc).

Lemma runners_write_identical_bytes_witness :
  1 <= 1 /\ wf_world demo_world /\
  "input_images/a.jpg" ∈ demo_paths /\
  load_file demo_world "input_images/a.jpg" = Decodes (demo_img 100) /\
  jpeg_stream demo_world (ObjRGBA (transformed (demo_img 100)))
    = inl (Pix (transformed (demo_img 100))) /\
  NoDup (outputPath_of demo_world "output_sequential" <$> demo_paths) /\
  NoDup (outputPath_of demo_world "output_parallel" <$> demo_paths) /\
  rtc (step demo_world demo_paths 1) (runParallelPipeline_init demo_paths 1 demo_proc)
      demo_final_one /\
  pc demo_final_one = MDone /\
  exists pa',
    runSequential demo_world demo_paths demo_proc = Some pa' /\
    files pa' !! "output_sequential/a.jpg"
      = Some (Complete (Pix (transformed (demo_img 100)))) /\
    files (proc demo_final_one) !! "output_parallel/a.jpg"
      = Some (Complete (Pix (transformed (demo_img 100)))).
Proof.
  assert (Hin : "input_images/a.jpg" ∈ demo_paths) by (left).
  assert (Hnd1 : NoDup (outputPath_of demo_world "output_sequential" <$> demo_paths))
    by (apply (bool_decide_unpack _); vm_compute; exact I).
  assert (Hnd2 : NoDup (outputPath_of demo_world "output_parallel" <$> demo_paths))
    by (apply (bool_decide_unpack _); vm_compute; exact I).
  assert (Hpc : pc demo_final_one = MDone) by (vm_compute; reflexivity).
  split; [lia|]. split; [apply demo_world_wf|]. split; [exact Hin|].
  split; [reflexivity|]. split; [reflexivity|]. split; [exact Hnd1|]. split; [exact Hnd2|].
  split; [apply run_schedule_rtc|]. split; [exact Hpc|].
  exact (runners_write_identical_bytes demo_world demo_paths 1 demo_proc demo_proc
           "input_images/a.jpg" (demo_img 100) (Pix (transformed (demo_img 100)))
           demo_final_one ltac:(lia) demo_world_wf Hin eq_refl eq_refl eq_refl eq_refl
           eq_refl eq_refl Hnd1 Hnd2 (run_schedule_rtc _ _ _ _ _) Hpc).
Defined.

(** ** [main] as a whole *)

(** What [main] prints on the standard output when the enumeration succeeds. *)
Definition main_stdout (W : World) (filePaths : list string) : list Line :=
  [LineCPU (numCPU W)] ++
  (if decide (length filePaths = 0%nat) then [LineNoImages] else []) ++
  [LineFound (Z.of_nat (length filePaths)); LineRule;
   LineSeqHeader; LineSeqTime (elapsed_seq W); LineRule;
   LineParHeader (numCPU W); LineParTime (elapsed_par W); LineRule;
   LineFinished].

Lemma main_outcome_spec W p o :
  wf_world W -> 1 <= numCPU W ->
  main_outcome W p o ->
  match filepath_Glob W (filepath_Join W "input_images" "*.jpg") with
  | inr err => o = (1, log_Printf (LogFatal err) (fmt_Println (LineCPU (numCPU W)) p))
  | inl filePaths =>
      exists pr h,
        pr ≡ₚ filePaths /\
        o = (0, mkProc h
                  (foldl (files_after W "output_parallel")
                     (foldl (files_after W "output_sequential") (files p) filePaths) pr)
                  (log p ++ (filePaths ≫= log_of W "output_sequential" false)
                         ++ (pr ≫= log_of W "output_parallel" true))
                  (stdout p ++ main_stdout W filePaths))
  end.
Proof.
  intros Hwf HN Hout.
  assert (Hbefore : forall fp,
    filepath_Glob W (filepath_Join W "input_images" "*.jpg") = inl fp ->
    exists h,
      main_before_pipeline W p =
        inr (fp, runParallelPipeline_init fp (numCPU W)
                   (mkProc h (foldl (files_after W "output_sequential") (files p) fp)
                      (log p ++ (fp ≫= log_of W "output_sequential" false))
                      (stdout p ++ [LineCPU (numCPU W)] ++
                       (if decide (length fp = 0%nat) then [LineNoImages] else []) ++
                       [LineFound (Z.of_nat (length fp)); LineRule;
                        LineSeqHeader; LineSeqTime (elapsed_seq W); LineRule])))).
  { intros fp Hg. unfold main_before_pipeline. rewrite Hg.
    match goal with |- context [runSequential W fp ?q] =>
      destruct (runSequential_spec W fp q Hwf) as (h & ->) end.
    exists h. do 3 f_equal. unfold fmt_Println. simpl.
    destruct (decide (length fp = 0%nat)); simpl; by rewrite <- !app_assoc. }
  destruct (filepath_Glob W _) as [fp|err] eqn:Hg.
  - destruct (Hbefore fp eq_refl) as (h0 & Hb).
    destruct Hout as [o Ho | fp' s0 s Ho Hr Hpc Hc | fp' s0 s Ho Hr Hpc Hstuck];
      rewrite Hb in Ho; [done | injection Ho as <- <- | injection Ho as <- <-].
    + destruct (final_state_spec W fp (numCPU W) _ s HN Hwf Hr Hpc)
        as (pr & Hperm & Hlog & Hfiles & Hstd & _).
      exists pr, (heap (proc s)). split; [done|].
      unfold main_after_pipeline, fmt_Println, main_stdout. simpl.
      rewrite Hlog, Hfiles, Hstd. simpl. do 2 f_equal.
      * by rewrite <- !app_assoc.
      * rewrite <- !app_assoc. simpl. do 2 f_equal.
        destruct (decide (length fp = 0%nat)); simpl; done.
    + exfalso.
      assert (Hc : crashed s = None) by (eapply reachable_no_panic; eauto; lia).
      destruct (progress W fp (numCPU W) s) as [s' Hs']; try done.
      { by eapply Inv_reachable. }
      by eapply Hstuck.
  - destruct Hout as [o Ho | fp' s0 s Ho Hr Hpc Hc | fp' s0 s Ho Hr Hpc Hstuck];
      unfold main_before_pipeline in Ho; rewrite Hg in Ho; by simplify_eq.
Qed.

(** [main] always ends. *)
Lemma main_outcome_exists W p :
  wf_world W -> 1 <= numCPU W -> exists o, main_outcome W p o.
Proof.
  intros Hwf HN. destruct (main_before_pipeline W p) as [o|[fp s0]] eqn:Hb.
  - exists o. by constructor.
  - assert (exists q, s0 = runParallelPipeline_init fp (numCPU W) q) as [q ->].
    { unfold main_before_pipeline in Hb. destruct (filepath_Glob W _); [|done].
      destruct (runSequential W _ _); [|done]. simplify_eq. eauto. }
    destruct (can_finish W fp (numCPU W) q _ HN Hwf (rtc_refl _ _)) as (s & Hr & Hpc & Hc).
    eexists. by eapply main_returns.
Qed.

(** The state in which [main] of [demo_world] starts the pipeline, and the
    state in which the pipeline ends under [demo_schedule]. *)
Definition demo_main_start : PState :=
  match main_before_pipeline demo_world demo_proc with
  | inr (_, s0) => s0
  | inl _ => runParallelPipeline_init [] 0 demo_proc
  end.

Definition demo_main_final : PState :=
  run_schedule demo_world demo_paths 2 demo_schedule demo_main_start.

Lemma demo_main_before :
  main_before_pipeline demo_world demo_proc = inr (demo_paths, demo_main_start).
Proof. vm_compute. reflexivity. Qed.

Lemma demo_main_outcome :
  main_outcome demo_world demo_proc (main_after_pipeline (proc demo_main_final)).
Proof.
  eapply main_returns.
  - exact demo_main_before.
  - apply run_schedule_rtc.
  - vm_compute. reflexivity.
  - vm_compute. reflexivity.
Qed.

(** ** Counting outcomes *)

(** The path ends with its output file written in full. *)
Definition written (W : World) (dir path : string) : bool :=
  match outcome_of W dir path with
  | OutWritten _ => true
  | _ => false
  end.

Definition succeeded (W : World) (dir : string) (paths : list string) : nat :=
  length (filter (fun q => written W dir q = true) paths).

Definition failed (W : World) (dir : string) (paths : list string) : nat :=
  length (filter (fun q => written W dir q = false) paths).





Lemma succeeded_plus_failed W dir paths :
  (succeeded W dir paths + failed W dir paths = length paths)%nat.
Proof.
  unfold succeeded, failed. induction paths as [|q paths IH]; [done|].
  rewrite !filter_cons. destruct (written W dir q); repeat case_decide; simpl; try done; lia.
Qed.



(** ** Failures in the load stage *)

(** The log line of a path that cannot be opened or decoded. *)
Definition load_failure (W : World) (path : string) : option LogEntry :=
  match load_file W path with
  | OpenFails err => Some (LogOpen path err)
  | DecodeFails err => Some (LogDecode path err)
  | Decodes _ => None
  end.

Lemma load_failure_log_of W dir b path entry :
  load_failure W path = Some entry -> log_of W dir b path = [entry].
Proof.
  unfold load_failure, log_of, outcome_of.
  destruct (load_file W path); by intros [= <-].
Qed.

(** The pipeline of [demo_world] when the load stage is about to receive the
    path of the file that does not decode. *)
Definition demo_load_state : PState :=
  run_schedule demo_world demo_paths 2 (replicate 8 TMain ++ [TLoad; TLoad])
    (runParallelPipeline_init demo_paths 2 demo_proc).

(** C6: when the load stage receives a path whose open or decode fails, it
    logs a failure record for that path, forwards nothing (both task queues,
    the heap and the files are unchanged) and is ready for the next path;
    the run is not halted: it can still be brought to its end, without
    panic, and the record is in the log of every state in which
    [runParallelPipeline] has returned. *)
Theorem loadWorker_failure_contained W filePaths numWorkers p s path rest entry :
  1 <= numWorkers -> wf_world W ->
  rtc (step W filePaths numWorkers) (runParallelPipeline_init filePaths numWorkers p) s ->
  loadpc s = LRecv ->
  buf (filesChan s) = path :: rest ->
  load_failure W path = Some entry ->
  exists s',
    step_of W filePaths numWorkers TLoad s = Some s' /\
    log (proc s') = log (proc s) ++ [entry] /\
    tasksChan s' = tasksChan s /\
    resultsChan s' = resultsChan s /\
    heap (proc s') = heap (proc s) /\
    files (proc s') = files (proc s) /\
    loadpc s' = LRecv /\
    buf (filesChan s') = rest /\
    crashed s' = None /\
    (exists s'', rtc (step W filePaths numWorkers) s' s'' /\ pc s'' = MDone /\
                 crashed s'' = None) /\
    (forall s'', rtc (step W filePaths numWorkers) s' s'' -> pc s'' = MDone ->
                 entry ∈ log (proc s'')).
Proof.
  intros HN Hwf Hr Hl Hbuf Hfail.
  destruct (reachable_invs W filePaths numWorkers p Hwf s Hr) as [HI [pr HD]].
  assert (Hc : crashed s = None) by (eapply reachable_no_panic; eauto; lia).
  assert (Hpc : pc s <> MDone).
  { pose proof (inv_load _ _ _ HI) as H. rewrite Hl in H. intros E. rewrite E in H.
    simpl in H. lia. }
  set (s' := set_proc (log_Printf entry (proc s))
               (set_filesChan (mkChan rest (cap (filesChan s)) (closed (filesChan s))) s)).
  assert (Hstep : step_of W filePaths numWorkers TLoad s = Some s').
  { rewrite step_of_running by done. unfold loadWorker_step, chan_recv.
    rewrite Hl, Hbuf. unfold load_failure in Hfail.
    destruct (load_file W path); by simplify_eq. }
  assert (Hr' : rtc (step W filePaths numWorkers)
                  (runParallelPipeline_init filePaths numWorkers p) s').
  { eapply rtc_r; [exact Hr|]. by exists TLoad. }
  exists s'. repeat (split; [done|]). split.
  - by eapply can_finish.
  - intros s'' Hr'' Hdone.
    destruct (final_state_spec W filePaths numWorkers p s'' HN Hwf) as (pr' & Hperm & Hlog & _);
      [by etrans | done |].
    rewrite Hlog. apply elem_of_app. right.
    assert (Hin : path ∈ pr').
    { rewrite Hperm, (d_perm _ _ _ _ _ _ HD). unfold in_flight. rewrite Hbuf.
      rewrite !elem_of_app. right. right. left. by left. }
    apply list_elem_of_bind. exists path. split; [|done].
    rewrite (load_failure_log_of W _ _ path entry Hfail). by left.
Qed.

Lemma loadWorker_failure_contained_witness :
  1 <= 2 /\ wf_world demo_world /\
  rtc (step demo_world demo_paths 2) (runParallelPipeline_init demo_paths 2 demo_proc)
      demo_load_state /\
  loadpc demo_load_state = LRecv /\
  buf (filesChan demo_load_state) = ["input_images/b.jpg"; "input_images/c.jpg"] /\
  load_failure demo_world "input_images/b.jpg"
    = Some (LogDecode "input_images/b.jpg" "invalid JPEG format") /\
  exists s',
    step_of demo_world demo_paths 2 TLoad demo_load_state = Some s' /\
    log (proc s') = [LogDecode "input_images/b.jpg" "invalid JPEG format"] /\
    tasksChan s' = tasksChan demo_load_state.
Proof.
  assert (Hl : loadpc demo_load_state = LRecv) by (vm_compute; reflexivity).
  assert (Hb : buf (filesChan demo_load_state)
               = ["input_images/b.jpg"; "input_images/c.jpg"]) by (vm_compute; reflexivity).
  assert (Hlog : log (proc demo_load_state) = []) by (vm_compute; reflexivity).
  split; [lia|]. split; [apply demo_world_wf|]. split; [apply run_schedule_rtc|].
  split; [exact Hl|]. split; [exact Hb|]. split; [reflexivity|].
  destruct (loadWorker_failure_contained demo_world demo_paths 2 demo_proc demo_load_state
              "input_images/b.jpg" ["input_images/c.jpg"]
              (LogDecode "input_images/b.jpg" "invalid JPEG format")
              ltac:(lia) demo_world_wf (run_schedule_rtc _ _ _ _ _) Hl Hb eq_refl)
    as (s' & Hstep & Hlog' & Htasks & _).
  exists s'. rewrite Hlog in Hlog'. exact (conj Hstep (conj Hlog' Htasks)).
Defined.

(** ** Failures in the transform stage *)

(** A 1 x 1 RGBA image whose pixel buffer is empty. *)
Definition malformed_img : ImageObj :=
  ObjRGBA (mkRGBAImage [] 4 (mkRect (mkPoint 0 0) (mkPoint 1 1))).

(** The first transform worker is about to receive the task of the
    malformed image; the task of a good image is queued behind it. *)
Definition malformed_state : PState :=
  {| pc := MWaitLoad; loadpc := LDone; workers := [WRecv; WRecv]; savepc := SRecv;
     filesChan := mkChan [] 2 true;
     tasksChan := mkChan [mkTask "input_images/bad.jpg" 1%positive;
                          mkTask "input_images/a.jpg" 2%positive] 2 false;
     resultsChan := mkChan [] 2 false;
     wgLoad := 0; wgProcess := 2; wgSave := 1;
     proc := mkProc (<[2%positive := demo_img 100]> {[ 1%positive := malformed_img ]}) ∅ [] [];
     crashed := None |}.

(** C5, as stated, fails: on a malformed buffer the worker records no
    failure and does not go on to the next item; the transform panics, the
    item queued behind stays where it is, and no goroutine runs any more. *)
Lemma transform_panic_ends_run :
  exists s',
    step_of demo_world demo_paths 2 (TProcess 0) malformed_state = Some s' /\
    crashed s' = Some TransformPanic /\
    log (proc s') = [] /\
    buf (tasksChan s') = [mkTask "input_images/a.jpg" 2%positive] /\
    buf (resultsChan s') = [] /\
    forall t, step_of demo_world demo_paths 2 t s' = None.
Proof.
  eexists. split; [vm_compute; reflexivity|].
  repeat (split; [reflexivity|]). intros t. reflexivity.
Qed.

(** C5, amended: the transform stage has no failure record and no recovery.
    A worker that receives an item logs nothing and writes no file; when the
    transform chain returns, the worker holds the item, with the transformed
    image in place of the decoded one, to send it to the save queue; the
    chain returns for every image whose pixels can be read; when it does not
    return, it panics, and the panic ends the whole run.  A worker holding an
    item puts it on the save queue as soon as there is room and goes back to
    receiving. *)
Theorem processWorker_no_error_path (i : nat) (s : PState) :
  (forall task rest,
     workers s !! i = Some WRecv -> buf (tasksChan s) = task :: rest ->
     exists s',
       processWorker_step i s = Some s' /\
       log (proc s') = log (proc s) /\
       files (proc s') = files (proc s) /\
       buf (tasksChan s') = rest /\
       resultsChan s' = resultsChan s /\
       match (do grayImg <~ toGrayscale (Img task); toSepia grayImg) (heap (proc s)) with
       | Some (sepiaImg, h) =>
           workers s' !! i = Some (WSend (mkTask (FilePath task) sepiaImg)) /\
           heap (proc s') = h /\ crashed s' = crashed s
       | None =>
           crashed s' = Some TransformPanic /\
           forall W filePaths numWorkers t, step_of W filePaths numWorkers t s' = None
       end /\
       (forall o, heap (proc s) !! Img task = Some o -> readable o ->
          (do grayImg <~ toGrayscale (Img task); toSepia grayImg) (heap (proc s)) <> None)) /\
  (forall task,
     workers s !! i = Some (WSend task) ->
     closed (resultsChan s) = false ->
     Z.of_nat (length (buf (resultsChan s))) < cap (resultsChan s) ->
     exists s',
       processWorker_step i s = Some s' /\
       buf (resultsChan s') = buf (resultsChan s) ++ [task] /\
       workers s' !! i = Some WRecv /\
       log (proc s') = log (proc s) /\
       crashed s' = crashed s).
Proof.
  split.
  - intros task rest Hw Hbuf.
    assert (Hi : (i < length (workers s))%nat) by (by eapply lookup_lt_Some).
    unfold processWorker_step, chan_recv. rewrite Hw, Hbuf. simpl.
    destruct (bind _ _ (heap (proc s))) as [[sepiaImg h]|] eqn:Hrun.
    + eexists. split; [done|]. simpl. repeat (split; [done|]). split.
      * split; [by apply list_lookup_insert_eq | done].
      * done.
    + eexists. split; [done|]. simpl. repeat (split; [done|]).
      intros o Ho Hread.
      destruct (transform_spec (heap (proc s)) (Img task) o Ho Hread)
        as (g & sp & h' & Hrun' & _). congruence.
  - intros task Hw Hcl Hroom.
    assert (Hi : (i < length (workers s))%nat) by (by eapply lookup_lt_Some).
    unfold processWorker_step, chan_send. rewrite Hw, Hcl.
    apply Z.ltb_lt in Hroom. rewrite Hroom. eexists. split; [done|]. simpl.
    repeat split; try done. by apply list_lookup_insert_eq.
Qed.

Lemma processWorker_no_error_path_witness :
  workers demo_worker_state !! 0%nat = Some WRecv /\
  buf (tasksChan demo_worker_state) = [mkTask "input_images/a.jpg" 1%positive] /\
  exists s',
    processWorker_step 0 demo_worker_state = Some s' /\
    log (proc s') = [] /\
    buf (tasksChan s') = [].
Proof.
  split; [reflexivity|]. split; [reflexivity|].
  destruct (proj1 (processWorker_no_error_path 0 demo_worker_state)
              (mkTask "input_images/a.jpg" 1%positive) [] eq_refl eq_refl)
    as (s' & Hstep & Hlog & _ & Hbuf & _).
  exists s'. exact (conj Hstep (conj Hlog Hbuf)).
Defined.

(** ** Failures in the save step *)

(** The world of [demo_world] in which every write to an output file fails. *)
Definition disk_full_world : World :=
  {| numCPU := numCPU demo_world;
     filepath_Glob := fun _ => inl ["input_images/a.jpg"];
     filepath_Join := filepath_Join demo_world;
     filepath_Base := filepath_Base demo_world;
     load_file := load_file demo_world;
     os_Create := os_Create demo_world;
     jpeg_stream := jpeg_stream demo_world;
     write_err := fun _ => Some "no space left on device";
     elapsed_seq := elapsed_seq demo_world;
     elapsed_par := elapsed_par demo_world |}.

(** C7 at the failing input: the file decodes and its output file is
    created, but writing the stream fails.  The save stage of the pipeline
    logs the error of [jpeg.Encode]; the sequential runner, which discards
    that error, logs nothing.  Both go on to the end. *)
Theorem sequential_drops_encode_error :
  log <$> runSequential disk_full_world ["input_images/a.jpg"] demo_proc = Some [] /\
  log (proc (run_schedule disk_full_world ["input_images/a.jpg"] 2 demo_schedule
               (runParallelPipeline_init ["input_images/a.jpg"] 2 demo_proc)))
    = [LogEncode "output_parallel/a.jpg" "no space left on device"] /\
  pc (run_schedule disk_full_world ["input_images/a.jpg"] 2 demo_schedule
        (runParallelPipeline_init ["input_images/a.jpg"] 2 demo_proc)) = MDone /\
  outcome_of disk_full_world "output_sequential" "input_images/a.jpg"
    = OutEncodeFails "no space left on device" Incomplete.
Proof. repeat split; vm_compute; reflexivity. Qed.

(** * Further properties of the code *)

(** ** The transforms as functions on the heap *)

(** What a run of the loop nest that returns has done. *)
Lemma mapPixels_Some_spec f (h : Heap) img out h' :
  mapPixels f img h = Some (out, h') ->
  exists o,
    h !! img = Some o /\ readable o /\ out = fresh (dom h) /\
    h' = <[out := ObjRGBA (mapImage f (at_total o) (obj_Bounds o))]> h.
Proof.
  intros Hrun. destruct (mapPixels_Some_inv _ _ _ _ _ Hrun) as (o & Himg & Hread).
  rewrite (mapPixels_spec f h img o Himg Hread) in Hrun. injection Hrun as <- <-.
  by exists o.
Qed.

(** Two per-pixel functions that agree on the colours of two images give the
    same buffer. *)
Lemma mapImage_ext2 f1 f2 at1 at2 b :
  (forall x y, Point_In (mkPoint x y) b = true -> f1 (at1 x y) = f2 (at2 x y)) ->
  mapImage f1 at1 b = mapImage f2 at2 b.
Proof.
  intros Hext. unfold mapImage. do 2 f_equal. unfold rows_upto. f_equal.
  apply list_fmap_ext. intros i y' Hy'. apply lookup_seqZ in Hy' as [-> Hi].
  unfold row_upto. apply list_fmap_ext. intros j x' Hx'.
  apply lookup_seqZ in Hx' as [-> Hj]. apply Hext, Point_In_true. lia.
Qed.

(** A property of bytes checked on each of the 256 values. *)
Lemma byte_cases (P : Z -> bool) :
  forallb P (seqZ 0 256) = true -> forall v, 0 <= v < 256 -> P v = true.
Proof.
  intros H v Hv. rewrite forallb_forall in H. apply H.
  apply list_elem_of_In, elem_of_seqZ. lia.
Qed.

(** The pixel read back where the loop nest wrote it. *)
Lemma mapPixels_At f (h : Heap) img out h' x y :
  mapPixels f img h = Some (out, h') ->
  (exists b, Bounds img h = Some (b, h) /\ Point_In (mkPoint x y) b = true) ->
  exists c, At img x y h = Some (c, h) /\ At out x y h' = Some (ColorRGBA (f c), h').
Proof.
  intros Hrun (b & Hb & Hin).
  destruct (mapPixels_Some_spec _ _ _ _ _ Hrun) as (o & Himg & Hread & -> & ->).
  unfold Bounds in Hb. rewrite Himg in Hb. injection Hb as <-.
  exists (at_total o x y). split.
  - unfold At. by rewrite Himg, (obj_At_readable o x y).
  - unfold At. rewrite lookup_insert_eq. simpl.
    rewrite RGBA_At_mapImage; [done | apply Hread | done].
Qed.

(** *** Grayscale of a gray image *)

Lemma grayPixel_gray_byte v :
  0 <= v < 256 -> R (grayPixel (ColorRGBA (mkRGBA v v v 0))) = v.
Proof.
  intros Hv. apply Z.eqb_eq.
  apply (byte_cases (fun v => R (grayPixel (ColorRGBA (mkRGBA v v v 0))) =? v));
    [vm_compute; reflexivity | done].
Qed.

Lemma alpha_byte a : 0 <= a < 256 -> uint8 (Z.lor a (Z.shiftl a 8) / 256) = a.
Proof.
  intros Ha. apply Z.eqb_eq.
  apply (byte_cases (fun a => uint8 (Z.lor a (Z.shiftl a 8) / 256) =? a));
    [vm_compute; reflexivity | done].
Qed.

Lemma grayPixel_idempotent c : grayPixel (ColorRGBA (grayPixel c)) = grayPixel c.
Proof.
  assert (Hshape : exists v a, 0 <= v < 256 /\ 0 <= a < 256 /\ grayPixel c = mkRGBA v v v a).
  { unfold grayPixel. destruct (Color_RGBA c) as [[[r g] b] a].
    eexists _, _. split; [apply uint8_range|]. split; [apply uint8_range|]. done. }
  destruct Hshape as (v & a & Hv & Ha & ->).
  pose proof (grayPixel_gray_byte v Hv) as Hg. pose proof (alpha_byte a Ha) as Hal.
  unfold grayPixel in *. simpl in *. by rewrite Hg, Hal.
Qed.

(** X1: converting twice to grayscale changes nothing more: on the image a
    first conversion returned, a second conversion returns too, and its
    result is an image with the same rectangle, stride and pixel buffer. *)
Theorem toGrayscale_idempotent (h : Heap) img grayImg h' :
  toGrayscale img h = Some (grayImg, h') ->
  exists again h'' p,
    toGrayscale grayImg h' = Some (again, h'') /\
    h' !! grayImg = Some (ObjRGBA p) /\
    h'' !! again = Some (ObjRGBA p).
Proof.
  intros Hrun. change (mapPixels grayPixel img h = Some (grayImg, h')) in Hrun.
  destruct (mapPixels_Some_spec _ _ _ _ _ Hrun) as (o & Himg & Hread & -> & ->).
  set (g := mapImage grayPixel (at_total o) (obj_Bounds o)).
  set (l1 := fresh (dom h)). set (hg := <[l1 := ObjRGBA g]> h).
  assert (Hrect : wf_rect (obj_Bounds o)) by apply Hread.
  exists (fresh (dom hg)), (<[fresh (dom hg) := ObjRGBA g]> hg), g.
  split; [|split; [apply lookup_insert_eq | apply lookup_insert_eq]].
  change (toGrayscale l1) with (mapPixels grayPixel l1).
  rewrite (mapPixels_spec grayPixel hg l1 (ObjRGBA g));
    [| apply lookup_insert_eq | by apply wf_readable, mapImage_wf].
  do 3 f_equal. simpl. unfold g. f_equal. apply mapImage_ext2. intros x y Hin.
  rewrite at_total_mapImage by done. apply grayPixel_idempotent.
Qed.

Lemma toGrayscale_idempotent_witness :
  toGrayscale 1%positive demo_heap
    = Some (2%positive, <[2%positive := ObjRGBA demo_gray]> demo_heap) /\
  exists again h'' p,
    toGrayscale 2%positive (<[2%positive := ObjRGBA demo_gray]> demo_heap)
      = Some (again, h'') /\
    (<[2%positive := ObjRGBA demo_gray]> demo_heap) !! 2%positive = Some (ObjRGBA p) /\
    h'' !! again = Some (ObjRGBA p).
Proof.
  split; [exact demo_toGrayscale | exact (toGrayscale_idempotent _ _ _ _ demo_toGrayscale)].
Defined.

(** *** Sepia of a gray pixel *)

Lemma sepiaPixel_gray_byte v a :
  0 <= v < 256 -> 0 <= a < 256 ->
  sepiaPixel (ColorRGBA (mkRGBA v v v a))
  = mkRGBA (Z.min 255 (1351 * v / 1000)) (Z.min 255 (1203 * v / 1000)) (937 * v / 1000) a.
Proof.
  intros Hv Ha.
  assert (HR : R (sepiaPixel (ColorRGBA (mkRGBA v v v 0))) = Z.min 255 (1351 * v / 1000)).
  { apply Z.eqb_eq.
    apply (byte_cases (fun v => R (sepiaPixel (ColorRGBA (mkRGBA v v v 0)))
                                =? Z.min 255 (1351 * v / 1000)));
      [vm_compute; reflexivity | done]. }
  assert (HG : G (sepiaPixel (ColorRGBA (mkRGBA v v v 0))) = Z.min 255 (1203 * v / 1000)).
  { apply Z.eqb_eq.
    apply (byte_cases (fun v => G (sepiaPixel (ColorRGBA (mkRGBA v v v 0)))
                                =? Z.min 255 (1203 * v / 1000)));
      [vm_compute; reflexivity | done]. }
  assert (HB : B (sepiaPixel (ColorRGBA (mkRGBA v v v 0))) = 937 * v / 1000).
  { apply Z.eqb_eq.
    apply (byte_cases (fun v => B (sepiaPixel (ColorRGBA (mkRGBA v v v 0)))
                                =? 937 * v / 1000));
      [vm_compute; reflexivity | done]. }
  pose proof (alpha_byte a Ha) as Hal.
  unfold sepiaPixel in *. simpl in *. by rewrite HR, HG, HB, Hal.
Qed.

(** The gray image of the worked examples, on the heap, and its sepia. *)
Definition demo_gray_heap : Heap := <[2%positive := ObjRGBA demo_gray]> demo_heap.

Definition demo_sepia : RGBAImage :=
  mkRGBAImage [72; 64; 50; 255; 120; 107; 83; 255] 8 (mkRect (mkPoint 0 0) (mkPoint 2 1)).

Lemma demo_gray_readable : readable (ObjRGBA demo_gray).
Proof.
  apply wf_readable. split; [|split]; try reflexivity.
  unfold wf_rect, Dx, Dy, maxInt. simpl. lia.
Qed.

Lemma demo_toSepia :
  toSepia 2%positive demo_gray_heap
  = Some (3%positive, <[3%positive := ObjRGBA demo_sepia]> demo_gray_heap).
Proof.
  change (toSepia 2%positive) with (mapPixels sepiaPixel 2%positive).
  rewrite (mapPixels_spec sepiaPixel demo_gray_heap 2%positive (ObjRGBA demo_gray));
    [| done | apply demo_gray_readable].
  replace (fresh (dom demo_gray_heap)) with 3%positive by (vm_compute; reflexivity).
  replace (mapImage sepiaPixel (at_total (ObjRGBA demo_gray)) (obj_Bounds (ObjRGBA demo_gray)))
    with demo_sepia by (vm_compute; reflexivity).
  done.
Qed.

(** X2: where the image given to the sepia transform holds a gray pixel, of
    level [v] and alpha [a], the result holds the pixel
    (min(255, 1351 v / 1000), min(255, 1203 v / 1000), 937 v / 1000, a), in
    integer arithmetic; so red is at least green and green at least blue.
    In the pipeline every pixel given to the sepia transform is gray. *)
Theorem toSepia_of_gray (h : Heap) img sepiaImg h' b x y v a :
  toSepia img h = Some (sepiaImg, h') ->
  Bounds img h = Some (b, h) ->
  Point_In (mkPoint x y) b = true ->
  At img x y h = Some (ColorRGBA (mkRGBA v v v a), h) ->
  0 <= v < 256 -> 0 <= a < 256 ->
  exists c,
    At sepiaImg x y h' = Some (ColorRGBA c, h') /\
    R c = Z.min 255 (1351 * v / 1000) /\
    G c = Z.min 255 (1203 * v / 1000) /\
    B c = 937 * v / 1000 /\
    A c = a /\
    B c <= G c <= R c.
Proof.
  intros Hrun Hb Hin Hat Hv Ha.
  change (mapPixels sepiaPixel img h = Some (sepiaImg, h')) in Hrun.
  destruct (mapPixels_At _ _ _ _ _ x y Hrun) as (c & Hc & Hout); [by exists b|].
  rewrite Hat in Hc. injection Hc as <-.
  rewrite (sepiaPixel_gray_byte v a Hv Ha) in Hout.
  eexists. split; [exact Hout|]. simpl. repeat (split; [done|]).
  split.
  - etrans; [|apply Z.min_glb]; [reflexivity| |].
    + transitivity (937 * 255 / 1000); [apply Z.div_le_mono; lia | by vm_compute].
    + apply Z.div_le_mono; lia.
  - apply Z.min_le_compat_l, Z.div_le_mono; lia.
Qed.

Lemma toSepia_of_gray_witness :
  toSepia 2%positive demo_gray_heap
    = Some (3%positive, <[3%positive := ObjRGBA demo_sepia]> demo_gray_heap) /\
  Bounds 2%positive demo_gray_heap
    = Some (mkRect (mkPoint 0 0) (mkPoint 2 1), demo_gray_heap) /\
  Point_In (mkPoint 1 0) (mkRect (mkPoint 0 0) (mkPoint 2 1)) = true /\
  At 2%positive 1 0 demo_gray_heap = Some (ColorRGBA (mkRGBA 89 89 89 255), demo_gray_heap) /\
  0 <= 89 < 256 /\ 0 <= 255 < 256 /\
  exists c,
    At 3%positive 1 0 (<[3%positive := ObjRGBA demo_sepia]> demo_gray_heap)
      = Some (ColorRGBA c, <[3%positive := ObjRGBA demo_sepia]> demo_gray_heap) /\
    R c = Z.min 255 (1351 * 89 / 1000) /\
    G c = Z.min 255 (1203 * 89 / 1000) /\
    B c = 937 * 89 / 1000 /\
    A c = 255 /\
    B c <= G c <= R c.
Proof.
  split; [exact demo_toSepia|]. split; [reflexivity|]. split; [reflexivity|].
  split; [reflexivity|]. split; [lia|]. split; [lia|].
  exact (toSepia_of_gray demo_gray_heap 2%positive 3%positive _ _ 1 0 89 255
           demo_toSepia eq_refl eq_refl eq_refl ltac:(lia) ltac:(lia)).
Defined.

(** *** The alpha channel *)

(** The chain of the two transforms, where it returns. *)
Lemma transform_Some_spec (h : Heap) img sepiaImg h' :
  (do grayImg <~ toGrayscale img; toSepia grayImg) h = Some (sepiaImg, h') ->
  exists o,
    h !! img = Some o /\ readable o /\ h ⊆ h' /\
    h' !! sepiaImg = Some (ObjRGBA (transformed o)).
Proof.
  intros Hrun.
  assert (exists o, h !! img = Some o /\ readable o) as (o & Himg & Hread).
  { unfold bind in Hrun. destruct (toGrayscale img h) as [[g hg]|] eqn:Hg; [|done].
    by apply (mapPixels_Some_inv grayPixel h img g hg). }
  destruct (transform_spec h img o Himg Hread) as (g & sp & h2 & Hrun' & _ & _ & _ & Hsub & Hres).
  rewrite Hrun in Hrun'. injection Hrun' as -> ->. by exists o.
Qed.

Lemma chain_alpha c :
  0 <= (Color_RGBA c).2 < 65536 ->
  A (sepiaPixel (ColorRGBA (grayPixel c))) = (Color_RGBA c).2 / 256.
Proof.
  intros Ha. unfold grayPixel. destruct (Color_RGBA c) as [[[r g] b] a]. simpl in Ha.
  assert (Hq : 0 <= a / 256 < 256).
  { split; [apply Z.div_pos; lia | apply Z.div_lt_upper_bound; lia]. }
  unfold sepiaPixel. simpl. rewrite (uint8_small (a / 256)) by done.
  by apply alpha_byte.
Qed.

(** X3: the chain of the two transforms keeps the alpha channel: the alpha
    byte of each pixel of the result is the high byte of the 16-bit alpha of
    the input colour at that place.  For an opaque colour, as every colour of
    a decoded JPEG is, that is 255. *)
Theorem transforms_keep_alpha (h : Heap) img sepiaImg h' b x y c :
  (do grayImg <~ toGrayscale img; toSepia grayImg) h = Some (sepiaImg, h') ->
  Bounds img h = Some (b, h) ->
  Point_In (mkPoint x y) b = true ->
  At img x y h = Some (c, h) ->
  0 <= (Color_RGBA c).2 < 65536 ->
  exists out,
    At sepiaImg x y h' = Some (ColorRGBA out, h') /\
    A out = (Color_RGBA c).2 / 256 /\
    ((Color_RGBA c).2 = 65535 -> A out = 255).
Proof.
  intros Hrun Hb Hin Hat Ha.
  destruct (transform_Some_spec _ _ _ _ Hrun) as (o & Himg & Hread & _ & Hres).
  unfold Bounds in Hb. rewrite Himg in Hb. injection Hb as <-.
  assert (Hrect : wf_rect (obj_Bounds o)) by apply Hread.
  assert (c = at_total o x y) as ->.
  { unfold At in Hat. rewrite Himg, (obj_At_readable o x y) in Hat by done. congruence. }
  exists (sepiaPixel (ColorRGBA (grayPixel (at_total o x y)))). split; [|split].
  - unfold At. rewrite Hres. simpl. unfold transformed.
    rewrite RGBA_At_mapImage by done. by rewrite at_total_mapImage.
  - by apply chain_alpha.
  - intros E. rewrite chain_alpha by done. by rewrite E.
Qed.

Lemma transforms_keep_alpha_witness :
  exists sepiaImg h',
    (do grayImg <~ toGrayscale 1%positive; toSepia grayImg) demo_heap = Some (sepiaImg, h') /\
    Bounds 1%positive demo_heap = Some (mkRect (mkPoint 0 0) (mkPoint 2 1), demo_heap) /\
    Point_In (mkPoint 1 0) (mkRect (mkPoint 0 0) (mkPoint 2 1)) = true /\
    At 1%positive 1 0 demo_heap = Some (ColorOther 30100 20000 20000 65535, demo_heap) /\
    0 <= (Color_RGBA (ColorOther 30100 20000 20000 65535)).2 < 65536 /\
    exists out,
      At sepiaImg 1 0 h' = Some (ColorRGBA out, h') /\
      A out = (Color_RGBA (ColorOther 30100 20000 20000 65535)).2 / 256 /\
      ((Color_RGBA (ColorOther 30100 20000 20000 65535)).2 = 65535 -> A out = 255).
Proof.
  destruct (transform_spec demo_heap 1%positive (demo_img 100) eq_refl (demo_img_readable 100))
    as (g & sp & h' & Hrun & _).
  exists sp, h'. split; [exact Hrun|]. split; [reflexivity|]. split; [reflexivity|].
  split; [reflexivity|]. split; [simpl; lia|].
  exact (transforms_keep_alpha demo_heap 1%positive sp h' _ 1 0 _
           Hrun eq_refl eq_refl eq_refl ltac:(simpl; lia)).
Defined.

(** *** When the transforms return *)

(** The allocation limit of the Go runtime on 64-bit Linux: [make] panics
    when asked for more bytes than this. *)
Definition maxAlloc : Z := 2 ^ 48.

(** An image of ordinary size: the coordinates of its rectangle and its
    stride are small enough for the arithmetic of [int] never to wrap, and
    the buffer of its rectangle is within the allocation limit.  For such
    images the integers of this development and the [int]s of the program
    agree. *)
Definition ordinary_size (o : ImageObj) : Prop :=
  - 2 ^ 30 <= X (Min (obj_Bounds o)) <= 2 ^ 30 /\
  - 2 ^ 30 <= Y (Min (obj_Bounds o)) <= 2 ^ 30 /\
  - 2 ^ 30 <= X (Max (obj_Bounds o)) <= 2 ^ 30 /\
  - 2 ^ 30 <= Y (Max (obj_Bounds o)) <= 2 ^ 30 /\
  4 * Z.max 0 (Dx (obj_Bounds o)) * Z.max 0 (Dy (obj_Bounds o)) <= maxAlloc /\
  match o with
  | ObjRGBA p => - 2 ^ 31 <= Stride p <= 2 ^ 31
  | ObjOther _ _ => True
  end.

Lemma demo_img_ordinary k : ordinary_size (demo_img k).
Proof. unfold ordinary_size, maxAlloc, Dx, Dy. simpl. lia. Qed.

(** X4: on an argument of ordinary size (coordinates within 2^30 of zero,
    a buffer of at most 2^48 bytes, the allocation limit) each transform
    returns exactly when the argument is an image on the heap, no side of
    its rectangle is negative and every pixel inside the rectangle can be
    read; otherwise (a nil image, a negative side, a pixel buffer too short)
    it panics. *)
Theorem transforms_return_iff_readable (h : Heap) img :
  (forall o, h !! img = Some o -> ordinary_size o) ->
  (is_Some (toGrayscale img h) <->
   exists o, h !! img = Some o /\
     0 <= Dx (obj_Bounds o) /\ 0 <= Dy (obj_Bounds o) /\
     forall x y, Point_In (mkPoint x y) (obj_Bounds o) = true -> is_Some (obj_At o x y)) /\
  (is_Some (toSepia img h) <->
   exists o, h !! img = Some o /\
     0 <= Dx (obj_Bounds o) /\ 0 <= Dy (obj_Bounds o) /\
     forall x y, Point_In (mkPoint x y) (obj_Bounds o) = true -> is_Some (obj_At o x y)).
Proof.
  intros Hord.
  assert (Hread : forall o, h !! img = Some o ->
            (readable o <->
             0 <= Dx (obj_Bounds o) /\ 0 <= Dy (obj_Bounds o) /\
             forall x y, Point_In (mkPoint x y) (obj_Bounds o) = true ->
                         is_Some (obj_At o x y))).
  { intros o Ho. destruct (Hord o Ho) as (_ & _ & _ & _ & Hsize & _).
    unfold readable, wf_rect, maxInt. unfold maxAlloc in Hsize. split.
    - intros [(? & ? & ?) ?]. done.
    - intros (Hx & Hy & Hpix). repeat split; try done.
      rewrite !Z.max_r in Hsize by done. lia. }
  split; split.
  - intros [[out h'] Hrun].
    destruct (mapPixels_Some_inv grayPixel h img out h' Hrun) as (o & Ho & Hr).
    exists o. split; [done|]. by apply Hread.
  - intros (o & Himg & Hr). apply Hread in Hr; [|done].
    change (toGrayscale img) with (mapPixels grayPixel img).
    by rewrite (mapPixels_spec grayPixel h img o).
  - intros [[out h'] Hrun].
    destruct (mapPixels_Some_inv sepiaPixel h img out h' Hrun) as (o & Ho & Hr).
    exists o. split; [done|]. by apply Hread.
  - intros (o & Himg & Hr). apply Hread in Hr; [|done].
    change (toSepia img) with (mapPixels sepiaPixel img).
    by rewrite (mapPixels_spec sepiaPixel h img o).
Qed.

Lemma transforms_return_iff_readable_witness :
  (forall o, demo_heap !! 1%positive = Some o -> ordinary_size o) /\
  is_Some (toGrayscale 1%positive demo_heap) /\
  is_Some (toSepia 1%positive demo_heap).
Proof.
  assert (Hord : forall o, demo_heap !! 1%positive = Some o -> ordinary_size o).
  { intros o Ho. injection Ho as <-. apply demo_img_ordinary. }
  assert (Hok : exists o, demo_heap !! 1%positive = Some o /\
            0 <= Dx (obj_Bounds o) /\ 0 <= Dy (obj_Bounds o) /\
            forall x y, Point_In (mkPoint x y) (obj_Bounds o) = true ->
                        is_Some (obj_At o x y)).
  { exists (demo_img 100). split; [reflexivity|].
    split; [by vm_compute|]. split; [by vm_compute|]. intros x y _. simpl. eauto. }
  split; [exact Hord|].
  destruct (transforms_return_iff_readable demo_heap 1%positive Hord) as [Hg Hs].
  split; [exact (proj2 Hg Hok) | exact (proj2 Hs Hok)].
Defined.

(** X5: the image the sepia transform returns is newly allocated, has the
    rectangle of its argument and a tightly packed buffer (four bytes a
    pixel, no padding between rows, whatever the layout of the argument);
    its pixel at each place is computed from the pixel of the argument at
    that place only; nothing else on the heap changes. *)
Theorem toSepia_pixelwise (h : Heap) img sepiaImg h' :
  toSepia img h = Some (sepiaImg, h') ->
  exists o p,
    h !! img = Some o /\
    (sepiaImg ∉ dom h) /\
    h' = <[sepiaImg := ObjRGBA p]> h /\
    Rect p = obj_Bounds o /\
    Stride p = 4 * Dx (obj_Bounds o) /\
    Z.of_nat (length (Pix p)) = 4 * Dx (obj_Bounds o) * Dy (obj_Bounds o) /\
    forall x y, Point_In (mkPoint x y) (obj_Bounds o) = true ->
      exists c,
        At img x y h = Some (c, h) /\
        At sepiaImg x y h' = Some (ColorRGBA (sepiaPixel c), h').
Proof.
  intros Hrun. change (mapPixels sepiaPixel img h = Some (sepiaImg, h')) in Hrun.
  destruct (mapPixels_Some_spec _ _ _ _ _ Hrun) as (o & Himg & Hread & Hout & Hh').
  exists o, (mapImage sepiaPixel (at_total o) (obj_Bounds o)).
  split; [done|]. split; [rewrite Hout; apply is_fresh|]. split; [done|].
  split; [done|]. split; [done|]. split; [apply length_mapImage, Hread|].
  intros x y Hin. apply (mapPixels_At sepiaPixel h img sepiaImg h' x y Hrun).
  exists (obj_Bounds o). split; [|done]. unfold Bounds. by rewrite Himg.
Qed.

Lemma toSepia_pixelwise_witness :
  toSepia 2%positive demo_gray_heap
    = Some (3%positive, <[3%positive := ObjRGBA demo_sepia]> demo_gray_heap) /\
  exists o p,
    demo_gray_heap !! 2%positive = Some o /\
    (3%positive ∉ dom demo_gray_heap) /\
    <[3%positive := ObjRGBA demo_sepia]> demo_gray_heap
      = <[3%positive := ObjRGBA p]> demo_gray_heap /\
    Rect p = obj_Bounds o /\
    Stride p = 4 * Dx (obj_Bounds o) /\
    Z.of_nat (length (Pix p)) = 4 * Dx (obj_Bounds o) * Dy (obj_Bounds o) /\
    forall x y, Point_In (mkPoint x y) (obj_Bounds o) = true ->
      exists c,
        At 2%positive x y demo_gray_heap = Some (c, demo_gray_heap) /\
        At 3%positive x y (<[3%positive := ObjRGBA demo_sepia]> demo_gray_heap)
          = Some (ColorRGBA (sepiaPixel c), <[3%positive := ObjRGBA demo_sepia]> demo_gray_heap).
Proof.
  split; [exact demo_toSepia | exact (toSepia_pixelwise _ _ _ _ demo_toSepia)].
Defined.

(** *** Rectangles without pixels *)




(** ** The sequential runner, whatever the decoder returns *)

(** One iteration that returns has the effects of its path; a decoded image
    that was transformed is readable. *)
Lemma runSequential_body_effect W path p p' :
  runSequential_body W path p = Some p' ->
  files p' = files_after W "output_sequential" (files p) path /\
  log p' = log p ++ log_of W "output_sequential" false path /\
  stdout p' = stdout p /\
  heap p ⊆ heap p' /\
  (forall o, load_file W path = Decodes o -> readable o).
Proof.
  unfold runSequential_body, files_after, log_of, outcome_of.
  destruct (load_file W path) as [err|err|o] eqn:Hload.
  - intros [= <-]. simpl. by rewrite app_nil_r || done.
  - intros [= <-]. done.
  - simpl.
    destruct (bind _ _ (<[fresh (dom (heap p)) := o]> (heap p))) as [[sp h']|] eqn:Hrun; [|done].
    destruct (transform_Some_spec _ _ _ _ Hrun) as (o' & Ho' & Hread & Hsub & Hlook).
    rewrite lookup_insert_eq in Ho'. injection Ho' as <-.
    fold (outputPath_of W "output_sequential" path).
    assert (Hheap : heap p ⊆ h') by (etrans; [apply insert_fresh_subseteq | done]).
    assert (Hall : forall o', Decodes o = Decodes o' -> readable o') by (by intros ? [= <-]).
    destruct (os_Create W _) as [err|]; [by intros [= <-]|].
    unfold jpeg_Encode, create_file. simpl. rewrite Hlook.
    destruct (jpeg_stream W _) as [bytes|err]; simpl.
    + destruct (write_err W _); simpl; intros [= <-]; simpl;
        by rewrite insert_insert_eq, app_nil_r.
    + intros [= <-]. simpl. by rewrite app_nil_r.
Qed.

(** One iteration panics exactly on a decoded image that is not readable. *)
Lemma runSequential_body_None W path p :
  runSequential_body W path p = None <->
  exists o, load_file W path = Decodes o /\ ~ readable o.
Proof.
  split.
  - unfold runSequential_body.
    destruct (load_file W path) as [err|err|o] eqn:Hload; [done|done|]. simpl.
    destruct (bind _ _ (<[fresh (dom (heap p)) := o]> (heap p))) as [[sp h']|] eqn:Hrun.
    + destruct (transform_Some_spec _ _ _ _ Hrun) as (o' & _ & _ & _ & Hlook).
      destruct (os_Create W _); [done|].
      unfold jpeg_Encode, create_file. simpl. rewrite Hlook.
      destruct (jpeg_stream W _); [destruct (write_err W _)|]; done.
    + intros _. exists o. split; [done|]. intros Hread.
      destruct (transform_spec (<[fresh (dom (heap p)) := o]> (heap p))
                  (fresh (dom (heap p))) o) as (g & sp & h' & Hrun' & _);
        [apply lookup_insert_eq | done | congruence].
  - intros (o & Hload & Hbad).
    destruct (runSequential_body W path p) as [p'|] eqn:Hbody; [|done].
    destruct (runSequential_body_effect _ _ _ _ Hbody) as (_ & _ & _ & _ & Hread).
    destruct Hbad. by apply Hread.
Qed.

Lemma runSequential_loop_effect W paths p p' :
  runSequential_loop W paths p = Some p' ->
  files p' = foldl (files_after W "output_sequential") (files p) paths /\
  log p' = log p ++ (paths ≫= log_of W "output_sequential" false) /\
  stdout p' = stdout p /\
  heap p ⊆ heap p'.
Proof.
  revert p. induction paths as [|path rest IH]; intros p; simpl.
  - intros [= <-]. by rewrite app_nil_r.
  - destruct (runSequential_body W path p) as [p1|] eqn:Hbody; [|done].
    intros Hloop. destruct (runSequential_body_effect _ _ _ _ Hbody) as (Hf & Hl & Ho & Hh & _).
    destruct (IH _ Hloop) as (Hf' & Hl' & Ho' & Hh').
    rewrite Hf', Hl', Ho', Hf, Hl, Ho, <- app_assoc. repeat split; try done. by etrans.
Qed.

Lemma runSequential_loop_None W paths p :
  runSequential_loop W paths p = None <->
  exists path o, path ∈ paths /\ load_file W path = Decodes o /\ ~ readable o.
Proof.
  revert p. induction paths as [|q rest IH]; intros p; simpl.
  - split; [done|]. intros (path & o & Hin & _). by apply elem_of_nil in Hin.
  - destruct (runSequential_body W q p) as [p1|] eqn:Hbody.
    + rewrite IH. split.
      * intros (path & o & Hin & H). exists path, o. split; [by right | done].
      * intros (path & o & Hin & Hload & Hbad). apply elem_of_cons in Hin as [->|Hin].
        -- assert (runSequential_body W q p = None); [|congruence].
           apply runSequential_body_None. by exists o.
        -- by exists path, o.
    + split; [|done]. intros _.
      apply runSequential_body_None in Hbody as (o & Hload & Hbad).
      exists q, o. split; [by left | done].
Qed.

Lemma runSequential_effect W paths p p' :
  runSequential W paths p = Some p' ->
  files p' = foldl (files_after W "output_sequential") (files p) paths /\
  log p' = log p ++ (paths ≫= log_of W "output_sequential" false) /\
  stdout p' = stdout p ++ [LineSeqHeader; LineSeqTime (elapsed_seq W)] /\
  heap p ⊆ heap p'.
Proof.
  unfold runSequential.
  destruct (runSequential_loop W paths (fmt_Println LineSeqHeader p)) as [p1|] eqn:Hloop; [|done].
  intros [= <-]. destruct (runSequential_loop_effect _ _ _ _ Hloop) as (Hf & Hl & Ho & Hh).
  simpl in *. rewrite Hf, Hl, Ho, <- app_assoc. done.
Qed.

(** X7: the sequential runner panics exactly when one of the paths decodes
    to an image that cannot be transformed (one that is not readable);
    failures to open, decode, create or encode never stop it. *)
Theorem runSequential_panics_iff_unreadable W filePaths p :
  runSequential W filePaths p = None <->
  exists path o, path ∈ filePaths /\ load_file W path = Decodes o /\ ~ readable o.
Proof.
  rewrite <- (runSequential_loop_None W filePaths (fmt_Println LineSeqHeader p)).
  unfold runSequential. by destruct (runSequential_loop _ _ _).
Qed.

(** X8: the sequential runner writes to the output paths of its inputs and
    nowhere else: every other file, the inputs among them, is as it was. *)
Theorem runSequential_writes_only_outputs W filePaths p p' key :
  runSequential W filePaths p = Some p' ->
  key ∉ (outputPath_of W "output_sequential" <$> filePaths) ->
  files p' !! key = files p !! key.
Proof.
  intros Hrun Hkey. destruct (runSequential_effect _ _ _ _ Hrun) as (-> & _).
  by apply foldl_files_other.
Qed.

Lemma runSequential_writes_only_outputs_witness :
  exists p',
    runSequential demo_world demo_paths demo_proc = Some p' /\
    ("input_images/a.jpg" ∉ (outputPath_of demo_world "output_sequential" <$> demo_paths)) /\
    files p' !! "input_images/a.jpg" = files demo_proc !! "input_images/a.jpg".
Proof.
  destruct (runSequential_spec demo_world demo_paths demo_proc demo_world_wf) as (h & Hrun).
  eexists. split; [exact Hrun|].
  assert (Hkey : "input_images/a.jpg"
                 ∉ (outputPath_of demo_world "output_sequential" <$> demo_paths)).
  { apply (bool_decide_unpack _). vm_compute. exact I. }
  split; [exact Hkey|].
  exact (runSequential_writes_only_outputs demo_world demo_paths demo_proc _ _ Hrun Hkey).
Defined.

(** The line the sequential runner logs for a path: the error of the first
    of open, decode and create that fails; none when they succeed, whatever
    the encoder then returns. *)
Definition sequential_log_line (W : World) (path : string) : list LogEntry :=
  match load_file W path with
  | OpenFails err => [LogOpen path err]
  | DecodeFails err => [LogDecode path err]
  | Decodes _ =>
      match os_Create W (filepath_Join W "output_sequential" (filepath_Base W path)) with
      | Some err => [LogCreate (filepath_Join W "output_sequential" (filepath_Base W path)) err]
      | None => []
      end
  end.

Lemma sequential_log_line_log_of W path :
  log_of W "output_sequential" false path = sequential_log_line W path.
Proof.
  unfold log_of, outcome_of, sequential_log_line, outputPath_of.
  destruct (load_file W path); try done.
  destruct (os_Create W _); try done.
  destruct (jpeg_stream W _); [destruct (write_err W _)|]; done.
Qed.

(** X9: the sequential runner reports failures in the order of its input:
    its log grows by the lines of the paths, taken in order, at most one
    line a path. *)
Theorem runSequential_log_in_path_order W filePaths p p' :
  runSequential W filePaths p = Some p' ->
  log p' = log p ++ (filePaths ≫= sequential_log_line W) /\
  forall path, (length (sequential_log_line W path) <= 1)%nat.
Proof.
  intros Hrun. destruct (runSequential_effect _ _ _ _ Hrun) as (_ & -> & _). split.
  - f_equal. clear Hrun. induction filePaths as [|q rest IH]; [done|].
    csimpl. by rewrite IH, sequential_log_line_log_of.
  - intros path. unfold sequential_log_line.
    destruct (load_file W path); simpl; try lia. destruct (os_Create W _); simpl; lia.
Qed.

Lemma runSequential_log_in_path_order_witness :
  exists p',
    runSequential demo_world demo_paths demo_proc = Some p' /\
    log p' = log demo_proc ++ (demo_paths ≫= sequential_log_line demo_world) /\
    forall path, (length (sequential_log_line demo_world path) <= 1)%nat.
Proof.
  destruct (runSequential_spec demo_world demo_paths demo_proc demo_world_wf) as (h & Hrun).
  eexists. split; [exact Hrun|].
  exact (runSequential_log_in_path_order demo_world demo_paths demo_proc _ Hrun).
Defined.

(** With distinct output paths, the file at the output path of a path is,
    once all the paths are handled, what that path alone makes of it. *)
Lemma foldl_files_NoDup W dir fs paths path :
  path ∈ paths ->
  NoDup (outputPath_of W dir <$> paths) ->
  foldl (files_after W dir) fs paths !! outputPath_of W dir path
  = files_after W dir fs path !! outputPath_of W dir path.
Proof.
  revert fs. induction paths as [|q paths IH]; intros fs Hin Hnd.
  - by apply elem_of_nil in Hin.
  - rewrite fmap_cons in Hnd. apply NoDup_cons in Hnd as [Hq Hnd].
    apply elem_of_cons in Hin as [->|Hin]; simpl.
    + by rewrite foldl_files_other.
    + rewrite IH by done.
      assert (Hne : outputPath_of W dir q <> outputPath_of W dir path).
      { intros E. apply Hq. rewrite E. by apply list_elem_of_fmap_2. }
      unfold files_after at 1 3. destruct (outcome_of W dir path);
        rewrite ?lookup_insert_eq; try done;
        unfold files_after; destruct (outcome_of W dir q); by rewrite ?lookup_insert_ne.
Qed.

(** The world of [demo_world] in which the encoder rejects every image. *)
Definition encoder_fails_world : World :=
  {| numCPU := numCPU demo_world;
     filepath_Glob := filepath_Glob demo_world;
     filepath_Join := filepath_Join demo_world;
     filepath_Base := filepath_Base demo_world;
     load_file := load_file demo_world;
     os_Create := os_Create demo_world;
     jpeg_stream := fun _ => inr "unsupported image";
     write_err := write_err demo_world;
     elapsed_seq := elapsed_seq demo_world;
     elapsed_par := elapsed_par demo_world |}.

Lemma encoder_fails_world_wf : wf_world encoder_fails_world.
Proof. exact demo_world_wf. Qed.

(** X10: an output file whose encoding fails is left behind truncated: once
    the output file of a decoded input is created, whatever the file held
    before is lost; when the encoder rejects the image the file stays empty,
    and when a write fails it stays incomplete.  (Distinct inputs are taken
    to have distinct output paths.) *)
Theorem runSequential_failed_encode_truncates W filePaths p p' path o :
  runSequential W filePaths p = Some p' ->
  path ∈ filePaths ->
  NoDup (outputPath_of W "output_sequential" <$> filePaths) ->
  load_file W path = Decodes o ->
  os_Create W (outputPath_of W "output_sequential" path) = None ->
  match jpeg_stream W (ObjRGBA (transformed o)) with
  | inr _ => files p' !! outputPath_of W "output_sequential" path = Some (Complete [])
  | inl bytes =>
      match write_err W (outputPath_of W "output_sequential" path) with
      | Some _ => files p' !! outputPath_of W "output_sequential" path = Some Incomplete
      | None => files p' !! outputPath_of W "output_sequential" path = Some (Complete bytes)
      end
  end.
Proof.
  intros Hrun Hin Hnd Hload Hcreate.
  destruct (runSequential_effect _ _ _ _ Hrun) as (-> & _).
  rewrite foldl_files_NoDup by done.
  unfold files_after, outcome_of. rewrite Hload, Hcreate.
  destruct (jpeg_stream W _); [destruct (write_err W _)|]; apply lookup_insert_eq.
Qed.

Lemma runSequential_failed_encode_truncates_witness :
  exists p',
    runSequential encoder_fails_world demo_paths
      (mkProc ∅ {[ "output_sequential/a.jpg" := Complete [1; 2; 3] ]} [] []) = Some p' /\
    "input_images/a.jpg" ∈ demo_paths /\
    NoDup (outputPath_of encoder_fails_world "output_sequential" <$> demo_paths) /\
    load_file encoder_fails_world "input_images/a.jpg" = Decodes (demo_img 100) /\
    os_Create encoder_fails_world
      (outputPath_of encoder_fails_world "output_sequential" "input_images/a.jpg") = None /\
    files p' !! "output_sequential/a.jpg" = Some (Complete []).
Proof.
  destruct (runSequential_spec encoder_fails_world demo_paths
              (mkProc ∅ {[ "output_sequential/a.jpg" := Complete [1; 2; 3] ]} [] [])
              encoder_fails_world_wf) as (h & Hrun).
  assert (Hin : "input_images/a.jpg" ∈ demo_paths)
    by (apply (bool_decide_unpack _); vm_compute; exact I).
  assert (Hnd : NoDup (outputPath_of encoder_fails_world "output_sequential" <$> demo_paths))
    by (apply (bool_decide_unpack _); vm_compute; exact I).
  eexists. split; [exact Hrun|]. split; [exact Hin|]. split; [exact Hnd|].
  split; [reflexivity|]. split; [reflexivity|].
  exact (runSequential_failed_encode_truncates encoder_fails_world demo_paths _ _
           "input_images/a.jpg" (demo_img 100) Hrun Hin Hnd eq_refl eq_refl).
Defined.

(** ** The pipeline, whatever the decoder returns *)

(** A goroutine moves only while the run is on, and then by its own step
    function. *)
Lemma step_of_Some W filePaths numWorkers t s s' :
  step_of W filePaths numWorkers t s = Some s' ->
  crashed s = None /\ pc s <> MDone /\
  match t with
  | TMain => runParallelPipeline_step W filePaths numWorkers s
  | TLoad => loadWorker_step W s
  | TProcess i => processWorker_step i s
  | TSave => saveWorker_step W s
  end = Some s'.
Proof.
  unfold step_of. destruct (crashed s); [done|].
  destruct (pc s) eqn:Hpc; try done; intros H; repeat split; try done.
Qed.

(** The case analysis of a step, goroutine by goroutine. *)
Ltac split_state s :=
  destruct s as [pc0 lp ws sp [fb fcap fcl] [tb tcap tcl] [rb rcap rcl] wl wp wsv p cr];
  simpl in *.

Ltac main_cases Hs :=
  unfold runParallelPipeline_step in Hs; simpl in Hs;
  match type of Hs with
  | context [match ?m with MSpawnSave => _ | _ => _ end] =>
      destruct m as [| | |[|? ?]| | | | | | |]
  end; simpl in *; step_cases Hs; simpl in *; simplify_eq; simpl in *.

Ltac load_cases Hs :=
  unfold loadWorker_step in Hs; simpl in Hs;
  match type of Hs with
  | context [match ?l with LIdle => _ | _ => _ end] => destruct l
  end; simpl in *; step_cases Hs;
  repeat match type of Hs with
    | context [load_file ?W ?x] =>
        let E := fresh "Hload" in destruct (load_file W x) eqn:E
    end; simpl in *; simplify_eq; simpl in *.

Ltac save_cases Hs :=
  unfold saveWorker_step in Hs; simpl in Hs;
  match type of Hs with
  | context [match ?l with SIdle => _ | _ => _ end] => destruct l
  end; simpl in *; step_cases Hs;
  repeat match type of Hs with
    | context [os_Create ?W ?x] => destruct (os_Create W x)
    | context [jpeg_Encode ?W ?x ?y ?z] =>
        let E := fresh "Henc" in destruct (jpeg_Encode W x y z) as [[[?|] ?]|] eqn:E
    end; simpl in *; simplify_eq; simpl in *.

Ltac process_cases Hs i :=
  unfold processWorker_step in Hs; simpl in Hs;
  match type of Hs with
  | context [?ws !! i] =>
      let Hi := fresh "Hi" in
      destruct (ws !! i) as [[| |]|] eqn:Hi
  end; simpl in *; step_cases Hs;
  repeat match type of Hs with
    | context [bind ?a ?b ?c] =>
        let E := fresh "Hrun" in
        let sp := fresh "sepiaImg" in
        let hs := fresh "hs" in
        destruct (bind a b c) as [[sp hs]|] eqn:E
    end; simpl in *; simplify_eq; simpl in *.

Lemma jpeg_Encode_heap W outputPath img p r p' :
  jpeg_Encode W outputPath img p = Some (r, p') -> heap p' = heap p.
Proof.
  unfold jpeg_Encode. destruct (heap p !! img); [|done].
  destruct (jpeg_stream W _); [destruct (write_err W _)|]; by intros [= <- <-].
Qed.

(** No step changes or removes an object of the heap. *)
Lemma step_heap_mono W filePaths numWorkers s s' :
  step W filePaths numWorkers s s' -> heap (proc s) ⊆ heap (proc s').
Proof.
  intros [t Ht]. apply step_of_Some in Ht as (_ & _ & Hs). destruct t.
  - split_state s. main_cases Hs; done.
  - split_state s. load_cases Hs; try done. apply insert_fresh_subseteq.
  - split_state s. process_cases Hs i; try done.
    by destruct (transform_Some_spec _ _ _ _ Hrun) as (o & _ & _ & Hsub & _).
  - split_state s. save_cases Hs; try done.
    all: by rewrite (jpeg_Encode_heap _ _ _ _ _ _ Henc).
Qed.

(** X13: no goroutine ever overwrites or removes an image that exists: an
    object on the heap at some point of a run is there, unchanged, at every
    later point.  (The stages hand images to each other by reference; each
    writes only to the buffer it has just allocated.) *)
Theorem pipeline_never_overwrites_images W filePaths numWorkers s s' l o :
  rtc (step W filePaths numWorkers) s s' ->
  heap (proc s) !! l = Some o ->
  heap (proc s') !! l = Some o.
Proof.
  intros Hr. induction Hr as [s|s s1 s' Hstep _ IH]; [done|].
  intros Hl. apply IH. eapply lookup_weaken; [exact Hl|]. by eapply step_heap_mono.
Qed.

Lemma pipeline_never_overwrites_images_witness :
  rtc (step demo_world demo_paths 2)
      (runParallelPipeline_init demo_paths 2 (mkProc demo_heap ∅ [] []))
      (run_schedule demo_world demo_paths 2 demo_schedule
         (runParallelPipeline_init demo_paths 2 (mkProc demo_heap ∅ [] []))) /\
  heap (proc (runParallelPipeline_init demo_paths 2 (mkProc demo_heap ∅ [] []))) !! 1%positive
    = Some (demo_img 100) /\
  heap (proc (run_schedule demo_world demo_paths 2 demo_schedule
                (runParallelPipeline_init demo_paths 2 (mkProc demo_heap ∅ [] []))))
    !! 1%positive = Some (demo_img 100).
Proof.
  split; [apply run_schedule_rtc|]. split; [reflexivity|].
  exact (pipeline_never_overwrites_images demo_world demo_paths 2
           (runParallelPipeline_init demo_paths 2 (mkProc demo_heap ∅ [] [])) _
           1%positive (demo_img 100) (run_schedule_rtc _ _ _ _ _) eq_refl).
Defined.

(** *** The only panic is that of a transform *)

Definition in_heap (h : Heap) (task : ImageTask) : Prop := is_Some (h !! Img task).

Lemma in_heap_weaken (h h' : Heap) task : h ⊆ h' -> in_heap h task -> in_heap h' task.
Proof. intros Hsub [o Ho]. exists o. by eapply lookup_weaken. Qed.

(** The transformed images waiting to be saved are on the heap, and no
    panic has occurred but that of a transform (or of a negative capacity
    given to [make]). *)
Record SInv (numWorkers : Z) (s : PState) : Prop := mkSInv {
  s_done : Forall (in_heap (heap (proc s))) (done_tasks s);
  s_crashed :
    forall e, crashed s = Some e ->
      e = TransformPanic \/ (e = MakeChanSize /\ numWorkers < 0)
}.

Lemma SInv_init filePaths numWorkers p :
  SInv numWorkers (runParallelPipeline_init filePaths numWorkers p).
Proof.
  split; simpl.
  - constructor.
  - intros e. destruct (numWorkers <? 0) eqn:E; [|done].
    apply Z.ltb_lt in E. intros [= <-]. by right.
Qed.

Section Safety.
Variable W : World.
Variable filePaths : list string.
Variable numWorkers : Z.

Ltac sinv_start s Hs :=
  intros HI' Hc [Hdone Hcr] Hs; split_state s; unfold done_tasks in *; simpl in *.

Ltac protocol_panic_absurd HI' :=
  exfalso; pose proof (inv_crashed _ _ _ HI' _ eq_refl) as Hpp; simpl in Hpp; discriminate.

Lemma SInv_main s s' :
  Inv filePaths numWorkers s' -> crashed s = None -> SInv numWorkers s ->
  runParallelPipeline_step W filePaths numWorkers s = Some s' -> SInv numWorkers s'.
Proof.
  sinv_start s Hs. main_cases Hs; try (protocol_panic_absurd HI');
    split; unfold done_tasks; simpl; try done.
  by rewrite bind_app, app_nil_r.
Qed.

Lemma SInv_load s s' :
  Inv filePaths numWorkers s' -> crashed s = None -> SInv numWorkers s ->
  loadWorker_step W s = Some s' -> SInv numWorkers s'.
Proof.
  sinv_start s Hs. load_cases Hs; try (protocol_panic_absurd HI');
    split; unfold done_tasks; simpl; try done.
  eapply Forall_impl; [exact Hdone|]. intros task. apply in_heap_weaken, insert_fresh_subseteq.
Qed.

Lemma SInv_process i s s' :
  Inv filePaths numWorkers s' -> crashed s = None -> SInv numWorkers s ->
  processWorker_step i s = Some s' -> SInv numWorkers s'.
Proof.
  sinv_start s Hs. process_cases Hs i; try (protocol_panic_absurd HI');
    split; unfold done_tasks; simpl; try done.
  - destruct (transform_Some_spec _ _ _ _ Hrun) as (o & _ & _ & Hsub & Hlook).
    destruct (work_hold_insert ws i WRecv (WSend (mkTask (FilePath v) sepiaImg)) Hi)
      as (rest' & P1 & P2). simpl in P1, P2.
    apply Forall_app in Hdone as [Hd1 Hd2]. rewrite P1 in Hd1.
    apply Forall_app. split.
    + rewrite P2. constructor; [by exists (ObjRGBA (transformed o))|].
      eapply Forall_impl; eauto using in_heap_weaken.
    + eapply Forall_impl; eauto using in_heap_weaken.
  - intros e [= <-]. by left.
  - destruct (work_hold_insert ws i WRecv WDone Hi) as (rest' & P1 & P2). simpl in P1, P2.
    by rewrite P2, <- P1.
  - destruct (work_hold_insert ws i (WSend task) WRecv Hi) as (rest' & P1 & P2).
    simpl in P1, P2.
    apply Forall_app in Hdone as [Hd1 Hd2]. rewrite P1 in Hd1.
    apply Forall_cons in Hd1 as [Ht Hd1].
    rewrite P2. apply Forall_app. split; [done|]. apply Forall_app. split; [done|].
    by constructor.
Qed.

Lemma SInv_save s s' :
  Inv filePaths numWorkers s' -> crashed s = None -> SInv numWorkers s ->
  saveWorker_step W s = Some s' -> SInv numWorkers s'.
Proof.
  sinv_start s Hs. save_cases Hs; try (protocol_panic_absurd HI').
  all: try (split; unfold done_tasks; simpl; done).
  all: apply Forall_app in Hdone as [Hd1 Hd2]; apply Forall_cons in Hd2 as [Ht Hd2].
  all: try (split; unfold done_tasks; simpl; try done;
            rewrite ?(jpeg_Encode_heap _ _ _ _ _ _ Henc); simpl;
            by apply Forall_app).
  exfalso. destruct Ht as [o Ho]. unfold jpeg_Encode, create_file in Henc. simpl in Henc.
  rewrite Ho in Henc. destruct (jpeg_stream W o); [destruct (write_err W _)|]; done.
Qed.

Lemma SInv_step s s' :
  Inv filePaths numWorkers s' -> SInv numWorkers s ->
  step W filePaths numWorkers s s' -> SInv numWorkers s'.
Proof.
  intros HI' HS [t Ht]. apply step_of_Some in Ht as (Hc & _ & Hs).
  destruct t; eauto using SInv_main, SInv_load, SInv_process, SInv_save.
Qed.

Lemma SInv_reachable p s :
  rtc (step W filePaths numWorkers) (runParallelPipeline_init filePaths numWorkers p) s ->
  Inv filePaths numWorkers s /\ SInv numWorkers s.
Proof.
  intros Hr.
  apply (rtc_ind_r (fun s => Inv filePaths numWorkers s /\ SInv numWorkers s) _
           (conj (Inv_init filePaths numWorkers p) (SInv_init filePaths numWorkers p)))
    in Hr; [done|].
  intros s1 s2 _ Hstep [HI HS].
  assert (HI' : Inv filePaths numWorkers s2) by eauto using Inv_step.
  eauto using SInv_step.
Qed.

End Safety.

(** X14: whatever the files hold, the protocol of the pipeline never
    panics: no send on a closed channel, no second close, no negative
    wait-group counter, no nil image given to the encoder.  With a worker
    count that is not negative, the one panic a run can end in is that of a
    transform, on a decoded image that is not readable. *)
Theorem pipeline_panics_only_in_transform W filePaths numWorkers p s e :
  0 <= numWorkers ->
  rtc (step W filePaths numWorkers) (runParallelPipeline_init filePaths numWorkers p) s ->
  crashed s = Some e ->
  e = TransformPanic.
Proof.
  intros HN Hr Hc. destruct (SInv_reachable W filePaths numWorkers p s Hr) as [_ [_ Hcr]].
  destruct (Hcr e Hc) as [->|[_ ?]]; [done | lia].
Qed.

(** The world of [demo_world] in which every file decodes to an image whose
    buffer is too short. *)
Definition malformed_world : World :=
  {| numCPU := numCPU demo_world;
     filepath_Glob := filepath_Glob demo_world;
     filepath_Join := filepath_Join demo_world;
     filepath_Base := filepath_Base demo_world;
     load_file := fun _ => Decodes malformed_img;
     os_Create := os_Create demo_world;
     jpeg_stream := jpeg_stream demo_world;
     write_err := write_err demo_world;
     elapsed_seq := elapsed_seq demo_world;
     elapsed_par := elapsed_par demo_world |}.

Lemma pipeline_panics_only_in_transform_witness :
  0 <= 2 /\
  rtc (step malformed_world demo_paths 2)
      (runParallelPipeline_init demo_paths 2 demo_proc)
      (run_schedule malformed_world demo_paths 2 demo_schedule
         (runParallelPipeline_init demo_paths 2 demo_proc)) /\
  crashed (run_schedule malformed_world demo_paths 2 demo_schedule
             (runParallelPipeline_init demo_paths 2 demo_proc)) = Some TransformPanic /\
  TransformPanic = TransformPanic.
Proof.
  assert (Hc : crashed (run_schedule malformed_world demo_paths 2 demo_schedule
                          (runParallelPipeline_init demo_paths 2 demo_proc))
               = Some TransformPanic) by (vm_compute; reflexivity).
  split; [lia|]. split; [apply run_schedule_rtc|]. split; [exact Hc|].
  exact (pipeline_panics_only_in_transform malformed_world demo_paths 2 demo_proc _ _
           ltac:(lia) (run_schedule_rtc _ _ _ _ _) Hc).
Defined.

(** ** Bounds the pipeline keeps *)

Lemma length_work_hold (ws : list WorkPC) :
  (length (ws ≫= work_hold) <= length ws)%nat.
Proof.
  induction ws as [|w ws IH]; [done|]. csimpl. rewrite length_app.
  destruct w; simpl; lia.
Qed.

Lemma workers_bound filePaths numWorkers s :
  Inv filePaths numWorkers s -> Z.of_nat (length (workers s)) <= Z.max 0 numWorkers.
Proof.
  intros HI. pose proof (inv_workers_len _ _ _ HI) as H.
  destruct (pc s); try lia. rewrite H. simpl. lia.
Qed.

(** X16: the bounded queues hold the load stage back: at every point of a
    run, the images that are decoded or transformed and not yet taken by the
    save stage (one in the hand of the load stage, those in the two queues,
    one in the hand of each transform worker) number at most three times
    the worker count, plus one. *)
Theorem pipeline_images_in_flight_bounded W filePaths numWorkers p s :
  rtc (step W filePaths numWorkers) (runParallelPipeline_init filePaths numWorkers p) s ->
  Z.of_nat (length (raw_tasks s)) + Z.of_nat (length (done_tasks s))
  <= 3 * Z.max 0 numWorkers + 1.
Proof.
  intros Hr. pose proof (Inv_reachable W filePaths numWorkers p s Hr) as HI.
  pose proof (inv_len_tasks _ _ _ HI). pose proof (inv_len_results _ _ _ HI).
  pose proof (workers_bound _ _ _ HI). pose proof (length_work_hold (workers s)).
  unfold raw_tasks, done_tasks. rewrite !length_app.
  assert (length (load_hold (loadpc s)) <= 1)%nat by (destruct (loadpc s); simpl; lia).
  lia.
Qed.

Lemma pipeline_images_in_flight_bounded_witness :
  rtc (step demo_world demo_paths 2) (runParallelPipeline_init demo_paths 2 demo_proc)
      demo_load_state /\
  Z.of_nat (length (raw_tasks demo_load_state)) + Z.of_nat (length (done_tasks demo_load_state))
  <= 3 * Z.max 0 2 + 1.
Proof.
  split; [apply run_schedule_rtc|].
  exact (pipeline_images_in_flight_bounded demo_world demo_paths 2 demo_proc demo_load_state
           (run_schedule_rtc _ _ _ _ _)).
Defined.

(** X17: each wait-group counter is the number of goroutines of its stage
    that are still running: one or zero for the load stage and for the save
    stage, the number of transform workers that have not left their loop for
    the transform stage.  So no counter is ever negative and each [Wait]
    returns exactly when its stage has finished. *)
Theorem wait_groups_count_running_goroutines W filePaths numWorkers p s :
  rtc (step W filePaths numWorkers) (runParallelPipeline_init filePaths numWorkers p) s ->
  wgLoad s = match loadpc s with LRecv | LSend _ => 1 | LIdle | LDone => 0 end /\
  wgProcess s = count_live (workers s) /\
  0 <= wgProcess s <= Z.max 0 numWorkers /\
  wgSave s = match savepc s with SRecv => 1 | SIdle | SDone => 0 end.
Proof.
  intros Hr. pose proof (Inv_reachable W filePaths numWorkers p s Hr) as HI.
  pose proof (inv_load _ _ _ HI) as Hl. pose proof (inv_save _ _ _ HI) as Hs.
  pose proof (inv_wgProcess _ _ _ HI) as Hp. pose proof (workers_bound _ _ _ HI) as Hw.
  split; [destruct (loadpc s); lia|]. split; [done|].
  split; [|destruct (savepc s); lia].
  rewrite Hp. split; [apply count_live_nonneg|].
  etrans; [|exact Hw]. clear. induction (workers s) as [|w ws IH]; simpl; [lia|].
  destruct (live w); lia.
Qed.

Lemma wait_groups_count_running_goroutines_witness :
  rtc (step demo_world demo_paths 2) (runParallelPipeline_init demo_paths 2 demo_proc)
      demo_load_state /\
  wgLoad demo_load_state = 1 /\ wgProcess demo_load_state = 2 /\ wgSave demo_load_state = 1.
Proof.
  split; [apply run_schedule_rtc|].
  destruct (wait_groups_count_running_goroutines demo_world demo_paths 2 demo_proc
              demo_load_state (run_schedule_rtc _ _ _ _ _)) as (Hl & Hp & _ & Hs).
  split; [|split].
  - rewrite Hl. vm_compute. reflexivity.
  - rewrite Hp. vm_compute. reflexivity.
  - rewrite Hs. vm_compute. reflexivity.
Defined.

(** ** The worker count at its edges *)

(** X11: with a negative worker count the pipeline panics when it makes its
    queues: the header is printed, no goroutine is started, nothing is
    logged or written, and [runParallelPipeline] does not return. *)
Theorem negative_worker_count_panics W filePaths numWorkers p s :
  numWorkers < 0 ->
  rtc (step W filePaths numWorkers) (runParallelPipeline_init filePaths numWorkers p) s ->
  s = runParallelPipeline_init filePaths numWorkers p /\
  crashed s = Some MakeChanSize /\
  pc s <> MDone /\
  loadpc s = LIdle /\ workers s = [] /\ savepc s = SIdle /\
  proc s = fmt_Println (LineParHeader numWorkers) p.
Proof.
  intros HN Hr.
  assert (Hc : crashed (runParallelPipeline_init filePaths numWorkers p) = Some MakeChanSize).
  { simpl. apply Z.ltb_lt in HN. by rewrite HN. }
  assert (s = runParallelPipeline_init filePaths numWorkers p) as ->.
  { inversion Hr as [|? s1 ? [t Ht] _]; [done|]. subst.
    apply step_of_Some in Ht as (Hc' & _). congruence. }
  repeat split; try done.
Qed.

Lemma negative_worker_count_panics_witness :
  -1 < 0 /\
  rtc (step demo_world demo_paths (-1)) (runParallelPipeline_init demo_paths (-1) demo_proc)
      (run_schedule demo_world demo_paths (-1) demo_schedule
         (runParallelPipeline_init demo_paths (-1) demo_proc)) /\
  crashed (run_schedule demo_world demo_paths (-1) demo_schedule
             (runParallelPipeline_init demo_paths (-1) demo_proc)) = Some MakeChanSize.
Proof.
  split; [lia|]. split; [apply run_schedule_rtc|].
  exact (proj1 (proj2 (negative_worker_count_panics demo_world demo_paths (-1) demo_proc _
                         ltac:(lia) (run_schedule_rtc _ _ _ _ _)))).
Defined.

(** *** No transform worker *)

(** With no transform worker, a path that decodes is never got rid of: it
    is still to be sent, or in the paths queue, or in the hand of the load
    stage, which cannot put it on a queue without room. *)
Record ZInv (filePaths : list string) (path : string) (s : PState) : Prop := mkZInv {
  z_crashed : crashed s = None;
  z_results : buf (resultsChan s) = [];
  z_stage : stage (pc s) <= 5;
  z_path :
    path ∈ to_send filePaths (pc s) ++ buf (filesChan s)
           ++ (FilePath <$> load_hold (loadpc s))
}.

Section NoWorker.
Variable W : World.
Variable filePaths : list string.
Variable path : string.
Variable o : ImageObj.
Hypothesis Hin : path ∈ filePaths.
Hypothesis Hdecodes : load_file W path = Decodes o.

Lemma ZInv_init p : ZInv filePaths path (runParallelPipeline_init filePaths 0 p).
Proof. split; simpl; try done. by rewrite app_nil_r. Qed.

Ltac elems H :=
  repeat first [rewrite elem_of_app in H | rewrite elem_of_cons in H
               | rewrite elem_of_nil in H];
  repeat first [rewrite elem_of_app | rewrite elem_of_cons | rewrite elem_of_nil].

Ltac zinv_start s Hs :=
  intros HI [Hc Hres Hst Hp] Hs; split_state s.

Lemma ZInv_main s s' :
  Inv filePaths 0 s -> ZInv filePaths path s ->
  runParallelPipeline_step W filePaths 0 s = Some s' -> ZInv filePaths path s'.
Proof.
  zinv_start s Hs.
  pose proof (inv_closed_files _ _ _ HI) as Hcf. pose proof (inv_load _ _ _ HI) as Hl.
  simpl in *.
  main_cases Hs; try lia; try (split; simpl; try done; try lia).
  - apply elem_of_app. by left.
  - elems Hp. tauto.
  - (* wgLoad is zero: the load stage would have finished *)
    exfalso. destruct lp; simpl in *; try lia.
    destruct Hl as (_ & _ & ->). simpl in Hp. by apply elem_of_nil in Hp.
Qed.

Lemma ZInv_load s s' :
  Inv filePaths 0 s -> ZInv filePaths path s ->
  loadWorker_step W s = Some s' -> ZInv filePaths path s'.
Proof.
  zinv_start s Hs.
  pose proof (inv_closed_files _ _ _ HI) as Hcf. pose proof (inv_closed_tasks _ _ _ HI) as Hct.
  pose proof (inv_cap_tasks _ _ _ HI) as Hcap. pose proof (inv_load _ _ _ HI) as Hl.
  simpl in *.
  load_cases Hs; try lia; try (split; simpl; try done; try lia).
  - elems Hp. destruct Hp as [?|[->|?]]; [tauto | congruence | tauto].
  - elems Hp. destruct Hp as [?|[->|?]]; [tauto | congruence | tauto].
  - elems Hp. tauto.
Qed.

Lemma ZInv_process i s s' :
  Inv filePaths 0 s -> ZInv filePaths path s ->
  processWorker_step i s = Some s' -> ZInv filePaths path s'.
Proof.
  intros HI _ Hs. exfalso.
  pose proof (workers_bound _ _ _ HI) as Hw.
  unfold processWorker_step in Hs.
  destruct (workers s !! i) as [w|] eqn:Hi; [|done].
  apply lookup_lt_Some in Hi. lia.
Qed.

Lemma ZInv_save s s' :
  Inv filePaths 0 s -> ZInv filePaths path s ->
  saveWorker_step W s = Some s' -> ZInv filePaths path s'.
Proof.
  zinv_start s Hs.
  pose proof (inv_closed_results _ _ _ HI) as Hcr. simpl in *.
  save_cases Hs; try lia; try done.
Qed.

Lemma ZInv_step s s' :
  Inv filePaths 0 s -> ZInv filePaths path s ->
  step W filePaths 0 s s' -> ZInv filePaths path s'.
Proof.
  intros HI HZ [t Ht]. apply step_of_Some in Ht as (_ & _ & Hs).
  destruct t; eauto using ZInv_main, ZInv_load, ZInv_process, ZInv_save.
Qed.

Lemma ZInv_reachable p s :
  rtc (step W filePaths 0) (runParallelPipeline_init filePaths 0 p) s ->
  ZInv filePaths path s.
Proof.
  intros Hr.
  apply (rtc_ind_r (fun s => Inv filePaths 0 s /\ ZInv filePaths path s) _
           (conj (Inv_init filePaths 0 p) (ZInv_init p))) in Hr; [apply Hr|].
  intros s1 s2 _ Hstep [HI HZ]. split; eauto using Inv_step, ZInv_step.
Qed.

End NoWorker.

(** Files are written by the save stage only, from the results queue. *)
Lemma step_files_same W filePaths numWorkers s s' :
  buf (resultsChan s) = [] ->
  step W filePaths numWorkers s s' -> files (proc s') = files (proc s).
Proof.
  intros Hres [t Ht]. apply step_of_Some in Ht as (_ & _ & Hs). destruct t.
  - split_state s. main_cases Hs; done.
  - split_state s. load_cases Hs; done.
  - split_state s. process_cases Hs i; done.
  - split_state s. save_cases Hs; done.
Qed.

(** X12: with a worker count of zero the pipeline never returns once one
    path decodes: the transform queue has no room and no reader, so the load
    stage waits on it for ever, the orchestrator never gets past its wait
    for the load stage, and nothing is ever transformed or saved.  No
    goroutine panics and every execution is finite: the run ends with all
    goroutines waiting. *)
Theorem zero_workers_never_return W filePaths p path o :
  path ∈ filePaths ->
  load_file W path = Decodes o ->
  (forall s,
     rtc (step W filePaths 0) (runParallelPipeline_init filePaths 0 p) s ->
     pc s <> MDone /\ stage (pc s) <= 5 /\ crashed s = None /\
     workers s = [] /\ buf (resultsChan s) = [] /\ files (proc s) = files p) /\
  sn (step W filePaths 0) (runParallelPipeline_init filePaths 0 p).
Proof.
  intros Hin Hload. split; [|apply step_sn].
  intros s Hr.
  pose proof (ZInv_reachable W filePaths path o Hin Hload p s Hr) as [Hc Hres Hst Hp].
  pose proof (Inv_reachable W filePaths 0 p s Hr) as HI.
  split; [intros E; rewrite E in Hst; simpl in Hst; lia|].
  repeat (split; [done|]). split.
  - pose proof (workers_bound _ _ _ HI) as Hw. destruct (workers s); [done|]. simpl in Hw. lia.
  - split; [done|]. clear Hc Hres Hst Hp HI.
    apply (rtc_ind_r (fun s => files (proc s) = files p)
             (runParallelPipeline_init filePaths 0 p) eq_refl) in Hr; [done|].
    clear s Hr. intros s1 s2 Hr1 Hstep <-.
    pose proof (ZInv_reachable W filePaths path o Hin Hload p s1 Hr1) as [_ Hres1 _ _].
    by eapply step_files_same.
Qed.

Lemma zero_workers_never_return_witness :
  "input_images/a.jpg" ∈ demo_paths /\
  load_file demo_world "input_images/a.jpg" = Decodes (demo_img 100) /\
  pc (run_schedule demo_world demo_paths 0 demo_schedule
        (runParallelPipeline_init demo_paths 0 demo_proc)) <> MDone /\
  forall t, step_of demo_world demo_paths 0 t
              (run_schedule demo_world demo_paths 0 demo_schedule
                 (runParallelPipeline_init demo_paths 0 demo_proc)) = None.
Proof.
  assert (Hin : "input_images/a.jpg" ∈ demo_paths)
    by (apply (bool_decide_unpack _); vm_compute; exact I).
  split; [exact Hin|]. split; [reflexivity|]. split.
  - exact (proj1 (proj1 (zero_workers_never_return demo_world demo_paths demo_proc
                           "input_images/a.jpg" (demo_img 100) Hin eq_refl)
                    _ (run_schedule_rtc _ _ _ _ _))).
  - intros [| |i|]; vm_compute; reflexivity.
Defined.

(** ** The order of the load failures *)

(** The lines of the load stage. *)
Definition is_load_entry (e : LogEntry) : bool :=
  match e with
  | LogOpen _ _ | LogDecode _ _ => true
  | _ => false
  end.

Definition load_entries (l : list LogEntry) : list LogEntry :=
  filter (fun e => is_load_entry e = true) l.

(** The paths the load stage has taken so far are a prefix of the input,
    and its lines in the log are theirs, in that order. *)
Record LInv (W : World) (filePaths : list string) (p0 : Proc)
    (consumed : list string) (s : PState) : Prop := mkLInv {
  l_paths : filePaths = consumed ++ buf (filesChan s) ++ to_send filePaths (pc s);
  l_log :
    load_entries (log (proc s))
    = load_entries (log p0) ++ omap (load_failure W) consumed
}.

Lemma jpeg_Encode_log W outputPath img p r p' :
  jpeg_Encode W outputPath img p = Some (r, p') -> log p' = log p.
Proof.
  unfold jpeg_Encode. destruct (heap p !! img); [|done].
  destruct (jpeg_stream W _); [destruct (write_err W _)|]; by intros [= <- <-].
Qed.

Lemma load_entries_snoc l e :
  load_entries (l ++ [e]) = load_entries l ++ (if is_load_entry e then [e] else []).
Proof.
  unfold load_entries. rewrite filter_app. f_equal.
  destruct e; done.
Qed.

Section LoadOrder.
Variable W : World.
Variable filePaths : list string.
Variable numWorkers : Z.
Variable p0 : Proc.

Lemma LInv_init : LInv W filePaths p0 [] (runParallelPipeline_init filePaths numWorkers p0).
Proof.
  split; simpl; [done|]. rewrite app_nil_r. apply (load_entries_snoc (log p0)) || done.
Qed.

Ltac linv_start s Hs := intros [Hpaths Hlog] Hs; split_state s.

Lemma LInv_step consumed s s' :
  LInv W filePaths p0 consumed s -> step W filePaths numWorkers s s' ->
  exists consumed', LInv W filePaths p0 consumed' s'.
Proof.
  intros HL [t Ht]. apply step_of_Some in Ht as (_ & _ & Hs). revert HL Hs. destruct t.
  - linv_start s Hs. main_cases Hs; exists consumed; split; simpl; try done.
    by rewrite <- !app_assoc.
  - linv_start s Hs. load_cases Hs; try (by exists consumed; split).
    all: exists (consumed ++ [v]); split; simpl;
      [by rewrite <- app_assoc
      |rewrite ?load_entries_snoc, omap_app, Hlog; simpl; unfold load_failure;
       rewrite Hload; simpl; by rewrite ?app_nil_r, ?app_assoc].
  - linv_start s Hs. process_cases Hs i; exists consumed; by split.
  - linv_start s Hs. save_cases Hs; exists consumed; split; simpl; try done.
    all: rewrite ?load_entries_snoc; simpl; rewrite ?app_nil_r;
      by rewrite ?(jpeg_Encode_log _ _ _ _ _ _ Henc).
Qed.

Lemma LInv_reachable s :
  rtc (step W filePaths numWorkers) (runParallelPipeline_init filePaths numWorkers p0) s ->
  exists consumed, LInv W filePaths p0 consumed s.
Proof.
  intros Hr.
  apply (rtc_ind_r (fun s => exists consumed, LInv W filePaths p0 consumed s)
           (runParallelPipeline_init filePaths numWorkers p0)
           (ex_intro _ [] LInv_init)) in Hr; [done|].
  intros s1 s2 _ Hstep [consumed HL]. by eapply LInv_step.
Qed.

End LoadOrder.

(** X20: in the pipeline too the failures to open or decode are reported
    in the order of the input: at every point of a run, the lines of the
    load stage in the log are those of a prefix of the paths, in order
    (lines of the save stage may come in between); when
    [runParallelPipeline] returns, they are those of all the paths. *)
Theorem load_failures_logged_in_path_order W filePaths numWorkers p s :
  rtc (step W filePaths numWorkers) (runParallelPipeline_init filePaths numWorkers p) s ->
  exists consumed,
    consumed `prefix_of` filePaths /\
    load_entries (log (proc s))
    = load_entries (log p) ++ omap (load_failure W) consumed /\
    (pc s = MDone -> consumed = filePaths).
Proof.
  intros Hr. destruct (LInv_reachable W filePaths numWorkers p s Hr) as (consumed & Hp & Hl).
  exists consumed. split; [by eexists|]. split; [done|].
  intros Hdone. pose proof (Inv_reachable W filePaths numWorkers p s Hr) as HI.
  pose proof (inv_load _ _ _ HI) as Hld. rewrite Hdone in Hp, Hld. simpl in Hp, Hld.
  destruct (loadpc s); try lia. destruct Hld as (_ & _ & Hb).
  by rewrite Hb, !app_nil_r in Hp.
Qed.

Lemma load_failures_logged_in_path_order_witness :
  rtc (step demo_world demo_paths 2) (runParallelPipeline_init demo_paths 2 demo_proc)
      demo_final /\
  load_entries (log (proc demo_final))
  = omap (load_failure demo_world) demo_paths.
Proof.
  split; [apply run_schedule_rtc|].
  destruct (load_failures_logged_in_path_order demo_world demo_paths 2 demo_proc demo_final
              (run_schedule_rtc _ _ _ _ _)) as (consumed & _ & Hlog & Hall).
  rewrite Hlog, Hall; [reflexivity | vm_compute; reflexivity].
Defined.

(** ** The result of the pipeline does not depend on the interleaving *)

Lemma foldl_files_perm W dir fs l1 l2 :
  NoDup (outputPath_of W dir <$> l1) -> l1 ≡ₚ l2 ->
  foldl (files_after W dir) fs l1 = foldl (files_after W dir) fs l2.
Proof.
  intros Hnd Hp. apply map_eq. intros key.
  assert (Hnd2 : NoDup (outputPath_of W dir <$> l2)) by (by rewrite <- Hp).
  destruct (decide (key ∈ outputPath_of W dir <$> l1)) as [Hin|Hout].
  - apply list_elem_of_fmap in Hin as (path & -> & Hin).
    rewrite !foldl_files_NoDup; try done. by rewrite <- Hp.
  - rewrite !foldl_files_other; try done. by rewrite <- Hp.
Qed.

(** X15: the files and the log lines the pipeline ends with depend neither
    on the interleaving of the goroutines nor on the number of transform
    workers: two runs on the same paths from the same state end with the
    same files, and with the same log lines up to their order.  (Distinct
    inputs are taken to have distinct output paths, and decoded images to be
    readable.) *)
Theorem pipeline_result_schedule_independent W filePaths n1 n2 p s1 s2 :
  wf_world W -> 1 <= n1 -> 1 <= n2 ->
  NoDup (outputPath_of W "output_parallel" <$> filePaths) ->
  rtc (step W filePaths n1) (runParallelPipeline_init filePaths n1 p) s1 -> pc s1 = MDone ->
  rtc (step W filePaths n2) (runParallelPipeline_init filePaths n2 p) s2 -> pc s2 = MDone ->
  files (proc s1) = files (proc s2) /\ log (proc s1) ≡ₚ log (proc s2).
Proof.
  intros Hwf H1 H2 Hnd Hr1 Hd1 Hr2 Hd2.
  destruct (final_state_spec W filePaths n1 p s1 H1 Hwf Hr1 Hd1) as (pr1 & Hp1 & Hl1 & Hf1 & _).
  destruct (final_state_spec W filePaths n2 p s2 H2 Hwf Hr2 Hd2) as (pr2 & Hp2 & Hl2 & Hf2 & _).
  split.
  - rewrite Hf1, Hf2. apply foldl_files_perm; [by rewrite Hp1 | by rewrite Hp1, Hp2].
  - rewrite Hl1, Hl2. apply Permutation_app_head. by rewrite Hp1, Hp2.
Qed.

Lemma pipeline_result_schedule_independent_witness :
  wf_world demo_world /\ 1 <= 2 /\ 1 <= 1 /\
  NoDup (outputPath_of demo_world "output_parallel" <$> demo_paths) /\
  rtc (step demo_world demo_paths 2) (runParallelPipeline_init demo_paths 2 demo_proc)
      demo_final /\
  pc demo_final = MDone /\
  rtc (step demo_world demo_paths 1) (runParallelPipeline_init demo_paths 1 demo_proc)
      demo_final_one /\
  pc demo_final_one = MDone /\
  files (proc demo_final) = files (proc demo_final_one) /\
  log (proc demo_final) ≡ₚ log (proc demo_final_one).
Proof.
  assert (Hnd : NoDup (outputPath_of demo_world "output_parallel" <$> demo_paths))
    by (apply (bool_decide_unpack _); vm_compute; exact I).
  assert (Hd1 : pc demo_final = MDone) by (vm_compute; reflexivity).
  assert (Hd2 : pc demo_final_one = MDone) by (vm_compute; reflexivity).
  split; [apply demo_world_wf|]. split; [lia|]. split; [lia|]. split; [exact Hnd|].
  split; [apply run_schedule_rtc|]. split; [exact Hd1|].
  split; [apply run_schedule_rtc|]. split; [exact Hd2|].
  exact (pipeline_result_schedule_independent demo_world demo_paths 2 1 demo_proc
           demo_final demo_final_one demo_world_wf ltac:(lia) ltac:(lia) Hnd
           (run_schedule_rtc _ _ _ _ _) Hd1 (run_schedule_rtc _ _ _ _ _) Hd2).
Defined.

(** X18: at no point of a run has the pipeline written anywhere but to the
    output paths of its inputs: every other file, the inputs among them, is
    as it was.  (Decoded images are taken to be readable.) *)
Theorem pipeline_writes_only_outputs W filePaths numWorkers p s key :
  wf_world W ->
  rtc (step W filePaths numWorkers) (runParallelPipeline_init filePaths numWorkers p) s ->
  key ∉ (outputPath_of W "output_parallel" <$> filePaths) ->
  files (proc s) !! key = files p !! key.
Proof.
  intros Hwf Hr Hkey.
  destruct (reachable_invs W filePaths numWorkers p Hwf s Hr) as [_ [pr HD]].
  rewrite (d_files _ _ _ _ _ _ HD). apply foldl_files_other.
  intros Hin. apply Hkey. apply list_elem_of_fmap in Hin as (q & -> & Hq).
  apply list_elem_of_fmap_2. rewrite (d_perm _ _ _ _ _ _ HD). apply elem_of_app. by left.
Qed.

Lemma pipeline_writes_only_outputs_witness :
  wf_world demo_world /\
  rtc (step demo_world demo_paths 2) (runParallelPipeline_init demo_paths 2 demo_proc)
      demo_final /\
  ("input_images/a.jpg" ∉ (outputPath_of demo_world "output_parallel" <$> demo_paths)) /\
  files (proc demo_final) !! "input_images/a.jpg" = files demo_proc !! "input_images/a.jpg".
Proof.
  assert (Hkey : "input_images/a.jpg"
                 ∉ (outputPath_of demo_world "output_parallel" <$> demo_paths)).
  { apply (bool_decide_unpack _). vm_compute. exact I. }
  split; [apply demo_world_wf|]. split; [apply run_schedule_rtc|]. split; [exact Hkey|].
  exact (pipeline_writes_only_outputs demo_world demo_paths 2 demo_proc demo_final _
           demo_world_wf (run_schedule_rtc _ _ _ _ _) Hkey).
Defined.

(** ** [main] on an empty directory *)

(** The world of [demo_world] with no file in the input directory. *)
Definition empty_dir_world : World :=
  {| numCPU := numCPU demo_world;
     filepath_Glob := fun _ => inl [];
     filepath_Join := filepath_Join demo_world;
     filepath_Base := filepath_Base demo_world;
     load_file := load_file demo_world;
     os_Create := os_Create demo_world;
     jpeg_stream := jpeg_stream demo_world;
     write_err := write_err demo_world;
     elapsed_seq := elapsed_seq demo_world;
     elapsed_par := elapsed_par demo_world |}.

(** X19: when the input directory holds no image, [main] says so, still
    runs both modes, on no path, and exits with status 0: it prints the
    line about the missing images, a count of zero and the header and time
    of each mode; it writes no file and logs nothing. *)
Theorem main_without_images W p o :
  wf_world W -> 1 <= numCPU W ->
  filepath_Glob W (filepath_Join W "input_images" "*.jpg") = inl [] ->
  main_outcome W p o ->
  fst o = 0 /\
  files (snd o) = files p /\
  log (snd o) = log p /\
  stdout (snd o)
  = stdout p ++
    [LineCPU (numCPU W); LineNoImages; LineFound 0; LineRule;
     LineSeqHeader; LineSeqTime (elapsed_seq W); LineRule;
     LineParHeader (numCPU W); LineParTime (elapsed_par W); LineRule;
     LineFinished].
Proof.
  intros Hwf HN Hglob Hout.
  pose proof (main_outcome_spec W p o Hwf HN Hout) as Hspec. rewrite Hglob in Hspec.
  destruct Hspec as (pr & h & Hperm & ->). apply Permutation_nil_r in Hperm as ->.
  simpl. by rewrite app_nil_r.
Qed.

Lemma main_without_images_witness :
  wf_world empty_dir_world /\ 1 <= numCPU empty_dir_world /\
  filepath_Glob empty_dir_world (filepath_Join empty_dir_world "input_images" "*.jpg")
    = inl [] /\
  exists o,
    main_outcome empty_dir_world demo_proc o /\
    fst o = 0 /\ files (snd o) = ∅ /\ log (snd o) = [] /\
    stdout (snd o)
    = [LineCPU 2; LineNoImages; LineFound 0; LineRule; LineSeqHeader; LineSeqTime 10;
       LineRule; LineParHeader 2; LineParTime 5; LineRule; LineFinished].
Proof.
  assert (Hwf : wf_world empty_dir_world) by exact demo_world_wf.
  assert (HN : 1 <= numCPU empty_dir_world) by (simpl; lia).
  split; [exact Hwf|]. split; [exact HN|]. split; [reflexivity|].
  destruct (main_outcome_exists empty_dir_world demo_proc Hwf HN) as [o Ho].
  exists o. split; [exact Ho|].
  exact (main_without_images empty_dir_world demo_proc o Hwf HN eq_refl Ho).
Defined.

(** ** The two modes side by side *)

Lemma load_entries_sequential W paths :
  load_entries (paths ≫= sequential_log_line W) = omap (load_failure W) paths.
Proof.
  induction paths as [|q rest IH]; [done|]. csimpl.
  unfold load_entries in *. rewrite filter_app, IH. f_equal.
  unfold sequential_log_line, load_failure.
  destruct (load_file W q); try done. by destruct (os_Create W _).
Qed.

(** X21: the two modes report the same failures to open or decode, in the
    same order: in the log of each, the lines of these failures added by
    the run are those of the paths that fail to load, in the order of the
    input. *)
Theorem modes_report_same_load_failures W filePaths numWorkers pa pa' pb s :
  runSequential W filePaths pa = Some pa' ->
  rtc (step W filePaths numWorkers) (runParallelPipeline_init filePaths numWorkers pb) s ->
  pc s = MDone ->
  load_entries (log pa') = load_entries (log pa) ++ omap (load_failure W) filePaths /\
  load_entries (log (proc s)) = load_entries (log pb) ++ omap (load_failure W) filePaths.
Proof.
  intros Hrun Hr Hdone. split.
  - destruct (runSequential_effect _ _ _ _ Hrun) as (_ & -> & _).
    unfold load_entries at 1. rewrite filter_app. f_equal.
    rewrite <- load_entries_sequential. unfold load_entries. f_equal.
    clear. induction filePaths as [|q rest IH]; [done|].
    csimpl. by rewrite IH, sequential_log_line_log_of.
  - destruct (LInv_reachable W filePaths numWorkers pb s Hr) as (consumed & Hp & Hl).
    pose proof (Inv_reachable W filePaths numWorkers pb s Hr) as HI.
    pose proof (inv_load _ _ _ HI) as Hld. rewrite Hdone in Hp, Hld. simpl in Hp, Hld.
    destruct (loadpc s); try lia. destruct Hld as (_ & _ & Hb).
    rewrite Hb, !app_nil_r in Hp. by rewrite Hl, <- Hp.
Qed.

Lemma modes_report_same_load_failures_witness :
  exists pa',
    runSequential demo_world demo_paths demo_proc = Some pa' /\
    rtc (step demo_world demo_paths 2) (runParallelPipeline_init demo_paths 2 demo_proc)
        demo_final /\
    pc demo_final = MDone /\
    load_entries (log pa') = [LogDecode "input_images/b.jpg" "invalid JPEG format"] /\
    load_entries (log (proc demo_final))
    = [LogDecode "input_images/b.jpg" "invalid JPEG format"].
Proof.
  destruct (runSequential_spec demo_world demo_paths demo_proc demo_world_wf) as (h & Hrun).
  assert (Hd : pc demo_final = MDone) by (vm_compute; reflexivity).
  eexists. split; [exact Hrun|]. split; [apply run_schedule_rtc|]. split; [exact Hd|].
  exact (modes_report_same_load_failures demo_world demo_paths 2 demo_proc _ demo_proc
           demo_final Hrun (run_schedule_rtc _ _ _ _ _) Hd).
Defined.

(** ** What [main] leaves alone *)

(** X22: a run of [main] that gets past the enumeration writes to the
    output paths of the two modes and nowhere else: every other file, the
    inputs among them, is as it was.  (Decoded images are taken to be
    readable, the CPU count to be positive.) *)
Theorem main_writes_only_outputs W p o filePaths key :
  wf_world W -> 1 <= numCPU W ->
  filepath_Glob W (filepath_Join W "input_images" "*.jpg") = inl filePaths ->
  main_outcome W p o ->
  key ∉ (outputPath_of W "output_sequential" <$> filePaths) ->
  key ∉ (outputPath_of W "output_parallel" <$> filePaths) ->
  files (snd o) !! key = files p !! key.
Proof.
  intros Hwf HN Hglob Hout Hseq Hpar.
  pose proof (main_outcome_spec W p o Hwf HN Hout) as Hspec. rewrite Hglob in Hspec.
  destruct Hspec as (pr & h & Hperm & ->). simpl.
  rewrite foldl_files_other by (by rewrite Hperm).
  by apply foldl_files_other.
Qed.

Lemma main_writes_only_outputs_witness :
  wf_world demo_world /\ 1 <= numCPU demo_world /\
  filepath_Glob demo_world (filepath_Join demo_world "input_images" "*.jpg") = inl demo_paths /\
  main_outcome demo_world demo_proc (main_after_pipeline (proc demo_main_final)) /\
  ("input_images/a.jpg" ∉ (outputPath_of demo_world "output_sequential" <$> demo_paths)) /\
  ("input_images/a.jpg" ∉ (outputPath_of demo_world "output_parallel" <$> demo_paths)) /\
  files (snd (main_after_pipeline (proc demo_main_final))) !! "input_images/a.jpg"
  = files demo_proc !! "input_images/a.jpg".
Proof.
  assert (Hs : "input_images/a.jpg"
               ∉ (outputPath_of demo_world "output_sequential" <$> demo_paths))
    by (apply (bool_decide_unpack _); vm_compute; exact I).
  assert (Hp : "input_images/a.jpg"
               ∉ (outputPath_of demo_world "output_parallel" <$> demo_paths))
    by (apply (bool_decide_unpack _); vm_compute; exact I).
  assert (HN : 1 <= numCPU demo_world) by (simpl; lia).
  split; [apply demo_world_wf|]. split; [exact HN|]. split; [reflexivity|].
  split; [apply demo_main_outcome|]. split; [exact Hs|]. split; [exact Hp|].
  exact (main_writes_only_outputs demo_world demo_proc _ demo_paths "input_images/a.jpg"
           demo_world_wf HN eq_refl demo_main_outcome Hs Hp).
Defined.

(** ** The state the pipeline returns in *)

(** X23: when [runParallelPipeline] returns nothing is left behind: the
    three queues are closed and empty, the load stage, every transform
    worker and the save stage have returned (no goroutine is left waiting),
    and the three wait-group counters are zero. *)
Theorem pipeline_returns_clean W filePaths numWorkers p s :
  rtc (step W filePaths numWorkers) (runParallelPipeline_init filePaths numWorkers p) s ->
  pc s = MDone ->
  (closed (filesChan s) = true /\ buf (filesChan s) = []) /\
  (closed (tasksChan s) = true /\ buf (tasksChan s) = []) /\
  (closed (resultsChan s) = true /\ buf (resultsChan s) = []) /\
  loadpc s = LDone /\
  Forall (fun w => w = WDone) (workers s) /\
  Z.of_nat (length (workers s)) = Z.max 0 numWorkers /\
  savepc s = SDone /\
  wgLoad s = 0 /\ wgProcess s = 0 /\ wgSave s = 0.
Proof.
  intros Hr Hdone. pose proof (Inv_reachable W filePaths numWorkers p s Hr) as HI.
  destruct HI as [_ _ _ _ Hlt _ Hcf Hct Hcr Hl Hwl Hwg Hwd Hj Hs _ _ _ _].
  rewrite Hdone in *. simpl in *.
  assert (Hwg0 : wgProcess s = 0) by (apply Hj; lia).
  assert (Hall : Forall (fun w => w = WDone) (workers s)).
  { apply count_live_zero. by rewrite <- Hwg. }
  destruct (closed (filesChan s)); [|lia].
  destruct (closed (tasksChan s)); [|lia].
  destruct (closed (resultsChan s)); [|lia].
  destruct (loadpc s); try lia. destruct (savepc s); try lia.
  destruct Hl as (_ & ? & ?), Hs as (_ & ? & ?).
  repeat split; try done.
  destruct (workers s) as [|w ws] eqn:Hws.
  - simpl in Hwl. destruct (buf (tasksChan s)); [done | simpl in Hlt; lia].
  - apply Hwd. apply Forall_cons in Hall as [-> _]. by left.
Qed.

Lemma pipeline_returns_clean_witness :
  rtc (step demo_world demo_paths 2) (runParallelPipeline_init demo_paths 2 demo_proc)
      demo_final /\
  pc demo_final = MDone /\
  buf (filesChan demo_final) = [] /\ loadpc demo_final = LDone /\ savepc demo_final = SDone.
Proof.
  assert (Hd : pc demo_final = MDone) by (vm_compute; reflexivity).
  split; [apply run_schedule_rtc|]. split; [exact Hd|].
  destruct (pipeline_returns_clean demo_world demo_paths 2 demo_proc demo_final
              (run_schedule_rtc _ _ _ _ _) Hd)
    as ((_ & Hb) & _ & _ & Hl & _ & _ & Hs & _).
  exact (conj Hb (conj Hl Hs)).
Defined.

(** ** Output files whose encoding fails, in the pipeline *)

(** X24: in the pipeline too an output file whose encoding fails is left
    behind truncated, empty when the encoder rejects the image and
    incomplete when a write fails, whatever the file held before; the save
    stage logs the error of the encoder.  (Distinct inputs are taken to have
    distinct output paths, decoded images to be readable.) *)
Theorem pipeline_failed_encode_truncates W filePaths numWorkers p s path o :
  wf_world W -> 1 <= numWorkers ->
  rtc (step W filePaths numWorkers) (runParallelPipeline_init filePaths numWorkers p) s ->
  pc s = MDone ->
  path ∈ filePaths ->
  NoDup (outputPath_of W "output_parallel" <$> filePaths) ->
  load_file W path = Decodes o ->
  os_Create W (outputPath_of W "output_parallel" path) = None ->
  match jpeg_stream W (ObjRGBA (transformed o)) with
  | inr err =>
      files (proc s) !! outputPath_of W "output_parallel" path = Some (Complete []) /\
      LogEncode (outputPath_of W "output_parallel" path) err ∈ log (proc s)
  | inl bytes =>
      match write_err W (outputPath_of W "output_parallel" path) with
      | Some err =>
          files (proc s) !! outputPath_of W "output_parallel" path = Some Incomplete /\
          LogEncode (outputPath_of W "output_parallel" path) err ∈ log (proc s)
      | None =>
          files (proc s) !! outputPath_of W "output_parallel" path = Some (Complete bytes)
      end
  end.
Proof.
  intros Hwf HN Hr Hdone Hin Hnd Hload Hcreate.
  destruct (final_state_spec W filePaths numWorkers p s HN Hwf Hr Hdone)
    as (pr & Hperm & Hlog & Hfiles & _).
  assert (Hin' : path ∈ pr) by (by rewrite Hperm).
  assert (Hnd' : NoDup (outputPath_of W "output_parallel" <$> pr)) by (by rewrite Hperm).
  assert (Hline : forall err c,
            outcome_of W "output_parallel" path = OutEncodeFails err c ->
            LogEncode (outputPath_of W "output_parallel" path) err ∈ log (proc s)).
  { intros err c Hout. rewrite Hlog. apply elem_of_app. right.
    apply list_elem_of_bind. exists path. split; [|done].
    unfold log_of. rewrite Hout. by left. }
  rewrite Hfiles, foldl_files_NoDup by done.
  unfold files_after. unfold outcome_of in *. rewrite Hload, Hcreate in *.
  destruct (jpeg_stream W _) as [bytes|err]; [destruct (write_err W _) as [err|]|].
  - split; [apply lookup_insert_eq | by eapply Hline].
  - apply lookup_insert_eq.
  - split; [apply lookup_insert_eq | by eapply Hline].
Qed.

(** A run of the pipeline in the world where the encoder rejects every
    image, over an output file left by an earlier run. *)
Definition encoder_fails_final : PState :=
  run_schedule encoder_fails_world demo_paths 2 demo_schedule
    (runParallelPipeline_init demo_paths 2
       (mkProc ∅ {[ "output_parallel/a.jpg" := Complete [1; 2; 3] ]} [] [])).

Lemma pipeline_failed_encode_truncates_witness :
  wf_world encoder_fails_world /\ 1 <= 2 /\
  rtc (step encoder_fails_world demo_paths 2)
      (runParallelPipeline_init demo_paths 2
         (mkProc ∅ {[ "output_parallel/a.jpg" := Complete [1; 2; 3] ]} [] []))
      encoder_fails_final /\
  pc encoder_fails_final = MDone /\
  "input_images/a.jpg" ∈ demo_paths /\
  NoDup (outputPath_of encoder_fails_world "output_parallel" <$> demo_paths) /\
  load_file encoder_fails_world "input_images/a.jpg" = Decodes (demo_img 100) /\
  os_Create encoder_fails_world
    (outputPath_of encoder_fails_world "output_parallel" "input_images/a.jpg") = None /\
  files (proc encoder_fails_final)
    !! outputPath_of encoder_fails_world "output_parallel" "input_images/a.jpg"
    = Some (Complete []) /\
  LogEncode (outputPath_of encoder_fails_world "output_parallel" "input_images/a.jpg")
            "unsupported image"
    ∈ log (proc encoder_fails_final).
Proof.
  assert (Hin : "input_images/a.jpg" ∈ demo_paths)
    by (apply (bool_decide_unpack _); vm_compute; exact I).
  assert (Hnd : NoDup (outputPath_of encoder_fails_world "output_parallel" <$> demo_paths))
    by (apply (bool_decide_unpack _); vm_compute; exact I).
  assert (Hd : pc encoder_fails_final = MDone) by (vm_compute; reflexivity).
  split; [apply encoder_fails_world_wf|]. split; [lia|]. split; [apply run_schedule_rtc|].
  split; [exact Hd|]. split; [exact Hin|]. split; [exact Hnd|].
  split; [reflexivity|]. split; [reflexivity|].
  exact (pipeline_failed_encode_truncates encoder_fails_world demo_paths 2
           (mkProc ∅ {[ "output_parallel/a.jpg" := Complete [1; 2; 3] ]} [] [])
           encoder_fails_final "input_images/a.jpg" (demo_img 100)
           encoder_fails_world_wf ltac:(lia) (run_schedule_rtc _ _ _ _ _) Hd Hin Hnd
           eq_refl eq_refl).
Defined.

(** * One outcome a path, read off the final state *)

#[global] Instance FileContent_eq_dec : EqDecision FileContent.
Proof. solve_decision. Defined.





















(** * The exit status of [main], case by case *)

(** ** A run sees the world at the paths found only *)

(** The world in which only the paths of [filePaths] can be opened. *)
Definition restrict_world (W : World) (filePaths : list string) : World :=
  {| numCPU := numCPU W;
     filepath_Glob := filepath_Glob W;
     filepath_Join := filepath_Join W;
     filepath_Base := filepath_Base W;
     load_file := fun path =>
       if bool_decide (path ∈ filePaths) then load_file W path
       else OpenFails EmptyString;
     os_Create := os_Create W;
     jpeg_stream := jpeg_stream W;
     write_err := write_err W;
     elapsed_seq := elapsed_seq W;
     elapsed_par := elapsed_par W |}.

Lemma restrict_world_wf W filePaths :
  (forall path o, path ∈ filePaths -> load_file W path = Decodes o -> readable o) ->
  wf_world (restrict_world W filePaths).
Proof.
  intros Hread path o. simpl. case_bool_decide; [|done]. by apply Hread.
Qed.

Lemma restrict_world_load W filePaths path :
  path ∈ filePaths -> load_file (restrict_world W filePaths) path = load_file W path.
Proof. intros Hin. simpl. by rewrite bool_decide_eq_true_2. Qed.

Lemma runSequential_body_restrict W filePaths path p :
  path ∈ filePaths ->
  runSequential_body (restrict_world W filePaths) path p = runSequential_body W path p.
Proof.
  intros Hin. unfold runSequential_body. by rewrite restrict_world_load.
Qed.

Lemma runSequential_loop_restrict W filePaths paths p :
  paths ⊆ filePaths ->
  runSequential_loop (restrict_world W filePaths) paths p = runSequential_loop W paths p.
Proof.
  revert p. induction paths as [|q rest IH]; intros p Hsub; [done|]. simpl.
  rewrite runSequential_body_restrict by (apply Hsub; by left).
  destruct (runSequential_body W q p); [|done].
  apply IH. intros x Hx. apply Hsub. by right.
Qed.

Lemma runSequential_loop_panic_restrict W filePaths paths p :
  paths ⊆ filePaths ->
  runSequential_loop_panic (restrict_world W filePaths) paths p
  = runSequential_loop_panic W paths p.
Proof.
  revert p. induction paths as [|q rest IH]; intros p Hsub; [done|]. simpl.
  rewrite runSequential_body_restrict by (apply Hsub; by left).
  destruct (runSequential_body W q p); [|done].
  apply IH. intros x Hx. apply Hsub. by right.
Qed.

Lemma main_before_pipeline_restrict W filePaths p :
  filepath_Glob W (filepath_Join W "input_images" "*.jpg") = inl filePaths ->
  main_before_pipeline (restrict_world W filePaths) p = main_before_pipeline W p.
Proof.
  intros Hg. unfold main_before_pipeline. simpl. rewrite Hg.
  unfold runSequential, runSequential_panic.
  rewrite runSequential_loop_restrict, runSequential_loop_panic_restrict by done.
  by destruct (runSequential_loop W filePaths _).
Qed.

(** The paths in the paths queue are among those given. *)
Lemma filesChan_paths W filePaths numWorkers p s path :
  rtc (step W filePaths numWorkers) (runParallelPipeline_init filePaths numWorkers p) s ->
  path ∈ buf (filesChan s) -> path ∈ filePaths.
Proof.
  intros Hr Hin. destruct (LInv_reachable W filePaths numWorkers p s Hr) as (consumed & Hp & _).
  rewrite Hp, !elem_of_app. tauto.
Qed.

Lemma step_of_restrict W filePaths numWorkers t s :
  (forall path, path ∈ buf (filesChan s) -> path ∈ filePaths) ->
  step_of (restrict_world W filePaths) filePaths numWorkers t s
  = step_of W filePaths numWorkers t s.
Proof.
  intros Hbuf.
  assert (Hload : loadWorker_step (restrict_world W filePaths) s = loadWorker_step W s).
  { unfold loadWorker_step. destruct (loadpc s); try done.
    unfold chan_recv. destruct (buf (filesChan s)) as [|q qs] eqn:Hb.
    - by destruct (closed (filesChan s)).
    - by rewrite restrict_world_load by (apply Hbuf; by left). }
  unfold step_of. destruct (crashed s); [done|].
  destruct (pc s); try done; destruct t; try done; reflexivity.
Qed.

(** The executions of the pipeline in the restricted world are those in the
    world itself. *)
Lemma rtc_restrict W filePaths numWorkers p s :
  rtc (step (restrict_world W filePaths) filePaths numWorkers)
      (runParallelPipeline_init filePaths numWorkers p) s <->
  rtc (step W filePaths numWorkers) (runParallelPipeline_init filePaths numWorkers p) s.
Proof.
  split; intros Hr.
  - apply (rtc_ind_r (fun s => rtc (step W filePaths numWorkers)
                                 (runParallelPipeline_init filePaths numWorkers p) s)
             (runParallelPipeline_init filePaths numWorkers p) (rtc_refl _ _)) in Hr; [done|].
    intros s1 s2 Hr1 [t Ht] IH. eapply rtc_r; [exact IH|]. exists t.
    rewrite <- Ht. symmetry. apply step_of_restrict.
    intros path. by eapply filesChan_paths.
  - apply (rtc_ind_r (fun s => rtc (step (restrict_world W filePaths) filePaths numWorkers)
                                 (runParallelPipeline_init filePaths numWorkers p) s)
             (runParallelPipeline_init filePaths numWorkers p) (rtc_refl _ _)) in Hr; [done|].
    intros s1 s2 Hr1 [t Ht] IH. eapply rtc_r; [exact IH|]. exists t.
    rewrite <- Ht. apply step_of_restrict.
    intros path. by eapply filesChan_paths.
Qed.

Lemma step_restrict W filePaths numWorkers p s s' :
  rtc (step W filePaths numWorkers) (runParallelPipeline_init filePaths numWorkers p) s ->
  step (restrict_world W filePaths) filePaths numWorkers s s' <->
  step W filePaths numWorkers s s'.
Proof.
  intros Hr. unfold step. split; intros [t Ht]; exists t.
  - rewrite <- Ht. symmetry. apply step_of_restrict. intros path. by eapply filesChan_paths.
  - rewrite <- Ht. apply step_of_restrict. intros path. by eapply filesChan_paths.
Qed.

(** [main] ends in the world as it ends in the world restricted to the
    paths found. *)
Lemma main_outcome_restrict W filePaths p o :
  filepath_Glob W (filepath_Join W "input_images" "*.jpg") = inl filePaths ->
  main_outcome W p o <-> main_outcome (restrict_world W filePaths) p o.
Proof.
  intros Hg. pose proof (main_before_pipeline_restrict W filePaths p Hg) as Hb.
  assert (Hstart : forall fp s0, main_before_pipeline W p = inr (fp, s0) ->
            fp = filePaths /\ exists q, s0 = runParallelPipeline_init filePaths (numCPU W) q).
  { intros fp s0 H. unfold main_before_pipeline in H. rewrite Hg in H.
    destruct (runSequential W _ _); [|done]. injection H as <- <-. eauto. }
  split; intros Ho.
  - destruct Ho as [o Ho | fp s0 s Ho Hr Hpc Hc | fp s0 s Ho Hr Hpc Hstuck].
    + apply main_exits. by rewrite Hb.
    + destruct (Hstart _ _ Ho) as (-> & q & ->). rewrite <- Hb in Ho.
      apply (main_returns (restrict_world W filePaths) p filePaths _ s Ho);
        [by apply rtc_restrict | done | done].
    + destruct (Hstart _ _ Ho) as (-> & q & ->). rewrite <- Hb in Ho.
      apply (main_aborts (restrict_world W filePaths) p filePaths _ s Ho);
        [by apply rtc_restrict | done |].
      intros s' Hs'. apply (Hstuck s'). by eapply step_restrict.
  - destruct Ho as [o Ho | fp s0 s Ho Hr Hpc Hc | fp s0 s Ho Hr Hpc Hstuck];
      rewrite Hb in Ho.
    + by apply main_exits.
    + destruct (Hstart _ _ Ho) as (-> & q & ->).
      apply (proj1 (rtc_restrict W filePaths _ _ _)) in Hr.
      exact (main_returns W p filePaths _ s Ho Hr Hpc Hc).
    + destruct (Hstart _ _ Ho) as (-> & q & ->).
      apply (proj1 (rtc_restrict W filePaths _ _ _)) in Hr.
      apply (main_aborts W p filePaths _ s Ho Hr Hpc).
      intros s' Hs'. apply (Hstuck s'). by eapply step_restrict.
Qed.

(** ** The three ways [main] ends *)

(** With readable images at the paths found, [main] ends, with status 0. *)
Lemma main_exits_zero W p filePaths :
  1 <= numCPU W ->
  filepath_Glob W (filepath_Join W "input_images" "*.jpg") = inl filePaths ->
  (forall path o, path ∈ filePaths -> load_file W path = Decodes o -> readable o) ->
  (exists o, main_outcome W p o) /\
  forall o, main_outcome W p o -> fst o = 0 /\ main_before_pipeline W p <> inl o.
Proof.
  intros HN Hg Hread.
  pose proof (restrict_world_wf W filePaths Hread) as Hwf. split.
  - destruct (main_outcome_exists (restrict_world W filePaths) p Hwf HN) as [o Ho].
    exists o. by apply (main_outcome_restrict W filePaths p o Hg).
  - intros o Ho. pose proof (proj1 (main_outcome_restrict W filePaths p o Hg) Ho) as Ho'.
    pose proof (main_outcome_spec _ p o Hwf HN Ho') as Hspec. simpl in Hspec.
    rewrite Hg in Hspec. destruct Hspec as (pr & h & _ & ->). split; [done|].
    unfold main_before_pipeline. rewrite Hg. destruct (runSequential W _ _); [done|].
    by intros [= ?].
Qed.

(** With an image that cannot be read at one of the paths found, the
    sequential mode panics, and [main] with it. *)
Lemma main_exits_panic W p filePaths :
  filepath_Glob W (filepath_Join W "input_images" "*.jpg") = inl filePaths ->
  (exists path o, path ∈ filePaths /\ load_file W path = Decodes o /\ ~ readable o) ->
  exists q,
    main_before_pipeline W p = inl (2, q) /\
    forall o, main_outcome W p o <-> o = (2, q).
Proof.
  intros Hg Hbad. unfold main_before_pipeline. rewrite Hg.
  match goal with |- context [runSequential W filePaths ?q0] =>
    assert (Hrun : runSequential W filePaths q0 = None) end.
  { unfold runSequential.
    match goal with |- context [runSequential_loop W filePaths ?q1] =>
      pose proof (proj2 (runSequential_loop_None W filePaths q1) Hbad) as Hloop end.
    by rewrite Hloop. }
  rewrite Hrun. eexists. split; [done|].
  intros o. split.
  - intros Ho.
    destruct Ho as [o Ho | fp s0 s Ho Hr Hpc Hc | fp s0 s Ho Hr Hpc Hstuck];
      unfold main_before_pipeline in Ho; rewrite Hg, Hrun in Ho; by simplify_eq.
  - intros ->. apply main_exits. unfold main_before_pipeline. by rewrite Hg, Hrun.
Qed.

(** When the enumeration fails, [main] logs the error and exits with status
    1; nothing else has run. *)
Lemma main_exits_fatal W p err :
  filepath_Glob W (filepath_Join W "input_images" "*.jpg") = inr err ->
  main_before_pipeline W p
    = inl (1, log_Printf (LogFatal err) (fmt_Println (LineCPU (numCPU W)) p)) /\
  forall o, main_outcome W p o <->
            o = (1, log_Printf (LogFatal err) (fmt_Println (LineCPU (numCPU W)) p)).
Proof.
  intros Hg.
  assert (Hb : main_before_pipeline W p
               = inl (1, log_Printf (LogFatal err) (fmt_Println (LineCPU (numCPU W)) p))).
  { unfold main_before_pipeline. by rewrite Hg. }
  split; [done|]. intros o. split.
  - intros Ho.
    destruct Ho as [o Ho | fp s0 s Ho Hr Hpc Hc | fp s0 s Ho Hr Hpc Hstuck];
      rewrite Hb in Ho; by simplify_eq.
  - intros ->. by apply main_exits.
Qed.

(** C8, as stated, fails: the enumeration succeeds, every file decodes, to
    an image with a buffer too short, so that each fails to transform; [main]
    does not go on to exit with status 0: the sequential mode panics and the
    status is 2, the only outcome there is. *)
Lemma transform_failure_exits_nonzero :
  filepath_Glob malformed_world (filepath_Join malformed_world "input_images" "*.jpg")
    = inl demo_paths /\
  (exists o, main_outcome malformed_world demo_proc o) /\
  forall o, main_outcome malformed_world demo_proc o -> fst o = 2.
Proof.
  assert (Hbad : exists path o, path ∈ demo_paths /\
            load_file malformed_world path = Decodes o /\ ~ readable o).
  { exists "input_images/a.jpg", malformed_img. split; [by left|]. split; [done|].
    intros [_ Hpix]. destruct (Hpix 0 0 eq_refl) as [c Hc]. discriminate Hc. }
  destruct (main_exits_panic malformed_world demo_proc demo_paths eq_refl Hbad)
    as (q & _ & Hq).
  split; [reflexivity|]. split.
  - exists (2, q). by apply Hq.
  - intros o Ho. apply Hq in Ho. by rewrite Ho.
Qed.

(** C8, amended: [main] ends in one of three ways (the CPU count being
    positive).  When the enumeration of the input fails, it logs the error
    and exits with status 1 before any mode has started.  When the
    enumeration succeeds and every file found that decodes gives a readable
    image, it exits with status 0 after both modes, whatever fails to open,
    to decode, to be created or to be encoded.  When one of the files found
    decodes to an image that cannot be read, the failure to transform is not
    contained: the sequential mode panics and the process ends with status
    2, before the pipeline has started. *)
Theorem exit_status W p :
  1 <= numCPU W ->
  match filepath_Glob W (filepath_Join W "input_images" "*.jpg") with
  | inr err =>
      forall o, main_outcome W p o <->
                o = (1, log_Printf (LogFatal err) (fmt_Println (LineCPU (numCPU W)) p))
  | inl filePaths =>
      ((forall path o', path ∈ filePaths -> load_file W path = Decodes o' -> readable o') ->
       (exists o, main_outcome W p o) /\
       forall o, main_outcome W p o -> fst o = 0 /\ main_before_pipeline W p <> inl o) /\
      ((exists path o', path ∈ filePaths /\ load_file W path = Decodes o' /\ ~ readable o') ->
       (exists o, main_outcome W p o) /\
       forall o, main_outcome W p o -> fst o = 2 /\ main_before_pipeline W p = inl o)
  end.
Proof.
  intros HN. destruct (filepath_Glob W _) as [filePaths|err] eqn:Hg.
  - split.
    + intros Hread. exact (main_exits_zero W p filePaths HN Hg Hread).
    + intros Hbad. destruct (main_exits_panic W p filePaths Hg Hbad) as (q & Hb & Hq). split.
      * exists (2, q). by apply Hq.
      * intros o Ho. apply Hq in Ho. by rewrite Ho.
  - exact (proj2 (main_exits_fatal W p err Hg)).
Qed.

Lemma exit_status_witness :
  1 <= numCPU demo_world /\
  (forall path o', path ∈ demo_paths -> load_file demo_world path = Decodes o' -> readable o') /\
  main_outcome demo_world demo_proc (main_after_pipeline (proc demo_main_final)) /\
  fst (main_after_pipeline (proc demo_main_final)) = 0.
Proof.
  assert (HN : 1 <= numCPU demo_world) by (simpl; lia).
  assert (Hread : forall path o', path ∈ demo_paths ->
            load_file demo_world path = Decodes o' -> readable o').
  { intros path o' _ Hload. by eapply demo_world_wf. }
  split; [exact HN|]. split; [exact Hread|]. split; [apply demo_main_outcome|].
  pose proof (exit_status demo_world demo_proc HN) as H. simpl in H.
  destruct H as [H _]. destruct (H Hread) as [_ Hzero].
  exact (proj1 (Hzero _ demo_main_outcome)).
Defined.
